(** * WBWT codec of quick-note (src/lib/wbwt.ts): a shallow embedding

    The codec is a linear pipeline
      tokenize -> normalize -> dictionary ids -> cyclic BWT -> move-to-front
      -> RUNA/RUNB -> adaptive arithmetic coding -> framed container
    and its inverse.  Every function below is transcribed from the
    TypeScript source and keeps its name.

    Conventions of the embedding.
    - A JavaScript number that holds an integer is a [Z]; the 32-bit
      operators ([<<], [>>], [>>>], [&], [|]) have their wrap-around
      written out in module [JS].
    - A JavaScript string is the list of its UTF-16 code units
      ([jsstring]); this is the view the source has of a string
      ([length], indexing, regular expressions without the [u] flag and
      the default [sort] all work on code units).
    - A [Uint8Array] / [Uint32Array] / [Int32Array] is a [list Z]; a read
      out of range yields [undefined] ([None]), a write out of range is
      ignored, a stored value is reduced to the element width.
    - A loop whose number of iterations is bounded by a value known on
      entry is a structural [Fixpoint]; a [while] loop without such a bound
      takes fuel and lives in the [result] monad, whose third outcome
      [OutOfFuel] stands for "still running".
    - The engine bounds what a call can allocate.  Where a number that a
      caller or a frame supplies sets the size ([new Uint32Array(tokenCount)],
      [' '.repeat(count)]) the call goes through [newTypedArray] or
      [repeatString]: they throw where the source throws and are
      [Unmodelled] where the outcome depends on the engine.  An array as
      long as one that exists, or one element longer, is taken to be
      allocated ([zeros]); at both calls of the BWT and move-to-front
      stages [alphabetSize] is such a length, [dictionary.length + 1]. *)

From Stdlib Require Import String Ascii.
From Stdlib Require Import ZArith List Lia Bool.
From Stdlib Require Import Sorting.Sorted Sorting.Permutation.
Import ListNotations.
Local Open Scope Z_scope.

(* ====================================================================== *)
(** * JavaScript integer operators *)
(* ====================================================================== *)

Module JS.

Definition toUint32 (x : Z) : Z := x mod 4294967296.

Definition toInt32 (x : Z) : Z :=
  let u := x mod 4294967296 in
  if u <? 2147483648 then u else u - 4294967296.

(** [a << s] *)
Definition shl (a s : Z) : Z := toInt32 (Z.shiftl (toInt32 a) (toUint32 s mod 32)).
(** [a >> s] *)
Definition sar (a s : Z) : Z := Z.shiftr (toInt32 a) (toUint32 s mod 32).
(** [a >>> s] *)
Definition shr (a s : Z) : Z := Z.shiftr (toUint32 a) (toUint32 s mod 32).
(** [a & b] *)
Definition and (a b : Z) : Z := Z.land (toInt32 a) (toInt32 b).
(** [a | b] *)
Definition or (a b : Z) : Z := Z.lor (toInt32 a) (toInt32 b).

(** A value read from a typed array and used as a number in a bit
    operator: [undefined] converts to 0. *)
Definition num (v : option Z) : Z := match v with Some x => x | None => 0 end.

End JS.

(* ====================================================================== *)
(** * Outcomes of a call *)
(* ====================================================================== *)

Inductive result (A : Type) : Type :=
| Ok (a : A)               (* the call returns [a] *)
| Throw (msg : string)     (* the call throws *)
| OutOfFuel                (* the call has not returned within the fuel *)
| Unmodelled (why : string).
    (* the embedding does not follow the call: it goes on in floating
       point (arithmetic on [undefined], a division by zero, a product
       that a double no longer holds exactly), it needs the Unicode case
       mappings, or its outcome depends on a limit of the engine *)
Arguments Ok {A} a.
Arguments Throw {A} msg.
Arguments OutOfFuel {A}.
Arguments Unmodelled {A} why.

Definition bind {A B : Type} (m : result A) (k : A -> result B) : result B :=
  match m with
  | Ok a => k a
  | Throw msg => Throw msg
  | OutOfFuel => OutOfFuel
  | Unmodelled why => Unmodelled why
  end.

Declare Scope result_scope.
Delimit Scope result_scope with result.
Notation "x <- m ;; k" := (bind m (fun x => k))
  (at level 61, m at next level, right associativity) : result_scope.
Notation "' p <- m ;; k" := (bind m (fun x => let p := x in k))
  (at level 61, p pattern, m at next level, right associativity) : result_scope.

(* ====================================================================== *)
(** * Typed arrays *)
(* ====================================================================== *)

Section TypedArrays.

(** [arr[i]]: [None] is [undefined]. *)
Definition aget (arr : list Z) (i : Z) : option Z :=
  if i <? 0 then None else nth_error arr (Z.to_nat i).

Fixpoint update_nth (n : nat) (v : Z) (arr : list Z) {struct arr} : list Z :=
  match arr with
  | [] => []
  | x :: arr' => match n with
                 | O => v :: arr'
                 | S n' => x :: update_nth n' v arr'
                 end
  end.

(** [arr[i] = v] on a [Uint32Array]: ignored out of range. *)
Definition aset32 (arr : list Z) (i : Z) (v : Z) : list Z :=
  if i <? 0 then arr else update_nth (Z.to_nat i) (JS.toUint32 v) arr.

(** [arr[i]++] on a [Uint32Array] (on [undefined] the result is NaN and
    the out-of-range write is ignored). *)
Definition aincr32 (arr : list Z) (i : Z) : list Z :=
  match aget arr i with
  | Some v => aset32 arr i (v + 1)
  | None => arr
  end.

(** [n] zeros: a typed array that has just been allocated or filled with
    0.  Where it stands for [new Uint32Array(n)], [n] is the length of an
    array that exists, or one more; the other allocations go through
    [newTypedArray]. *)
Definition zeros (n : Z) : list Z := repeat 0 (Z.to_nat n).

Definition len {A : Type} (arr : list A) : Z := Z.of_nat (length arr).

(** The longest typed array the embedding takes the engine to allocate:
    2^31 - 1 elements. *)
Definition MAX_ARRAY_LENGTH : Z := 2147483647.

(** [new Uint32Array(n)] (and [new Uint8Array(n)]) for a number [n] that a
    caller or a frame supplies.  A negative [n] is no array length, and
    neither is one from 2^53 on: RangeError.  Whether a long array is
    allocated depends on the engine and on the memory it has: up to
    [MAX_ARRAY_LENGTH] elements the array is taken to be there, beyond
    that the embedding does not say. *)
Definition newTypedArray (n : Z) : result (list Z) :=
  if n <? 0 then Throw "RangeError: Invalid typed array length"
  else if n <=? MAX_ARRAY_LENGTH then Ok (zeros n)
  else if n <? 9007199254740992
       then Unmodelled "whether the engine allocates an array this long"
  else Throw "RangeError: Invalid typed array length".

End TypedArrays.

(* ====================================================================== *)
(** * Strings *)
(* ====================================================================== *)

(** UTF-16 code units. *)
Definition jsstring : Type := list Z.

(** An ASCII literal as a JavaScript string. *)
Definition js (s : string) : jsstring :=
  map (fun a => Z.of_N (N_of_ascii a)) (list_ascii_of_string s).

Definition slen (s : jsstring) : Z := Z.of_nat (length s).

Fixpoint streq (a b : jsstring) : bool :=
  match a, b with
  | [], [] => true
  | x :: a', y :: b' => (x =? y) && streq a' b'
  | _, _ => false
  end.

(** The order of [Array.prototype.sort] without comparator on strings:
    lexicographic on code units, a proper prefix first. *)
Fixpoint strcmp (a b : jsstring) : comparison :=
  match a, b with
  | [], [] => Eq
  | [], _ :: _ => Lt
  | _ :: _, [] => Gt
  | x :: a', y :: b' =>
      match x ?= y with
      | Eq => strcmp a' b'
      | c => c
      end
  end.

Definition strlt (a b : jsstring) : Prop := strcmp a b = Lt.
Definition strleb (a b : jsstring) : bool :=
  match strcmp a b with Gt => false | _ => true end.

Section CharClasses.

Definition inRange (lo hi c : Z) : bool := (lo <=? c) && (c <=? hi).

Definition isDigit (c : Z) : bool := inRange 48 57 c.
Definition isUpper (c : Z) : bool := inRange 65 90 c.
Definition isLower (c : Z) : bool := inRange 97 122 c.
Definition isLetter (c : Z) : bool := isUpper c || isLower c.
(** [[A-Za-z0-9]] *)
Definition isAlnum (c : Z) : bool := isLetter c || isDigit c.

(** [\s]: WhiteSpace and LineTerminator of ECMAScript. *)
Definition isSpace (c : Z) : bool :=
  inRange 9 13 c || (c =? 32) || (c =? 160) || (c =? 5760)
  || inRange 8192 8202 c || (c =? 8232) || (c =? 8233) || (c =? 8239)
  || (c =? 8287) || (c =? 12288) || (c =? 65279).

(** [[^\sA-Za-z0-9]] *)
Definition isOther (c : Z) : bool := negb (isSpace c) && negb (isAlnum c).

(** ['-] *)
Definition isJoiner (c : Z) : bool := (c =? 39) || (c =? 45).

(** Every code unit is below 128. *)
Definition isAscii (s : jsstring) : bool := forallb (inRange 0 127) s.

(** [toLowerCase] / [toUpperCase] of a string of ASCII code units, where
    the case mappings of Unicode are those of ASCII.  The normalizer
    applies them only to tokens that match [WORD_PATTERN], which are
    ASCII; [renderTokens] applies them to any token of the dictionary and
    goes through [caseMapped]. *)
Definition toLowerCase (s : jsstring) : jsstring :=
  map (fun c => if isUpper c then c + 32 else c) s.
Definition toUpperCase (s : jsstring) : jsstring :=
  map (fun c => if isLower c then c - 32 else c) s.

(** [converted] is [s] after [toUpperCase] and [toLowerCase] as above:
    the result of the source when [s] is ASCII.  Outside ASCII the source
    follows the case mappings of Unicode (U+00E9 becomes U+00C9, U+00DF
    becomes "SS"), which the embedding does not model. *)
Definition caseMapped (s converted : jsstring) : result jsstring :=
  if isAscii s then Ok converted
  else Unmodelled "case mapping outside ASCII".

End CharClasses.

(* ====================================================================== *)
(** * Constants *)
(* ====================================================================== *)

Definition CONTROL_PREFIX : Z := 31.
Definition TOKEN_WS_SPACE : jsstring := [CONTROL_PREFIX; 115].
Definition TOKEN_WS_NEWLINE : jsstring := [CONTROL_PREFIX; 110].
Definition TOKEN_WS_TAB : jsstring := [CONTROL_PREFIX; 116].
Definition TOKEN_NUM : jsstring := [CONTROL_PREFIX; 100].
Definition TOKEN_CASE_UPPER : jsstring := [CONTROL_PREFIX; 117].
Definition TOKEN_CASE_TITLE : jsstring := [CONTROL_PREFIX; 99].
Definition TOKEN_ESCAPE : jsstring := [CONTROL_PREFIX; 101].

Definition WBWT_MAGIC : Z := 1463965524.        (* 0x57425754 *)
Definition WBWT_VERSION : Z := 4.
Definition SENTINEL_ID : Z := 0.
Definition ENTROPY_MAX_TOTAL : Z := 32768.      (* 1 << 15 *)
Definition ENTROPY_TOP_VALUE : Z := 4294967295. (* 0xFFFFFFFF *)
Definition ENTROPY_FIRST_QTR : Z := 1073741824. (* 0x40000000 *)
Definition ENTROPY_HALF : Z := 2147483648.      (* 0x80000000 *)
Definition ENTROPY_THIRD_QTR : Z := 3221225472. (* 0xC0000000 *)

(* ====================================================================== *)
(** * Regular expressions of the tokenizer *)
(* ====================================================================== *)

Section Patterns.

(** The longest prefix of [s] in the class [p], and what follows it:
    a greedy [[p]*]. *)
Fixpoint span (p : Z -> bool) (s : jsstring) : jsstring * jsstring :=
  match s with
  | c :: s' =>
      if p c then let (a, b) := span p s' in (c :: a, b) else ([], s)
  | [] => ([], [])
  end.

(** [[p]+] at the start of [s]. *)
Definition matchRun (p : Z -> bool) (s : jsstring) : option (jsstring * jsstring) :=
  match span p s with
  | ([], _) => None
  | (w, rest) => Some (w, rest)
  end.

(** [(?:['-][p]+)*] at the start of [s], greedy.  An iteration consumes at
    least two code units, so [length s] iterations are enough. *)
Fixpoint joinedTail (p : Z -> bool) (fuel : nat) (s : jsstring) : jsstring * jsstring :=
  match fuel with
  | O => ([], s)
  | S fuel' =>
      match s with
      | c :: s' =>
          if isJoiner c then
            match span p s' with
            | ([], _) => ([], s)
            | (w, rest) =>
                let (t, rest') := joinedTail p fuel' rest in
                (c :: w ++ t, rest')
            end
          else ([], s)
      | [] => ([], s)
      end
  end.

(** [[p]+(?:['-][p]+)*] at the start of [s]. *)
Definition matchJoined (p : Z -> bool) (s : jsstring) : option (jsstring * jsstring) :=
  match span p s with
  | ([], _) => None
  | (w, rest) =>
      let (t, rest') := joinedTail p (length rest) rest in
      Some (w ++ t, rest')
  end.

(** TOKEN_PATTERN at the start of [s]: the three alternatives in order. *)
Definition TOKEN_PATTERN (s : jsstring) : option (jsstring * jsstring) :=
  match matchJoined isAlnum s with
  | Some r => Some r
  | None =>
      match matchRun isOther s with
      | Some r => Some r
      | None => matchRun isSpace s
      end
  end.

(** [text.match(re)] with the [g] flag: all matches from left to right;
    where nothing matches the scan moves on by one code unit. *)
Fixpoint matchAll (re : jsstring -> option (jsstring * jsstring))
         (fuel : nat) (s : jsstring) : list jsstring :=
  match fuel with
  | O => []
  | S fuel' =>
      match s with
      | [] => []
      | _ :: s' =>
          match re s with
          | Some (tok, rest) => tok :: matchAll re fuel' rest
          | None => matchAll re fuel' s'
          end
      end
  end.

(** [/^[A-Za-z]+(?:['-][A-Za-z]+)*$/.test(token)] *)
Definition WORD_PATTERN (token : jsstring) : bool :=
  match matchJoined isLetter token with
  | Some (_, []) => true
  | _ => false
  end.

(** [/^c+$/.test(token)] for a class [p] *)
Definition allOf (p : Z -> bool) (token : jsstring) : bool :=
  match token with
  | [] => false
  | _ => forallb p token
  end.

Definition NUMBER_PATTERN : jsstring -> bool := allOf isDigit.
Definition SPACE_PATTERN : jsstring -> bool := allOf (Z.eqb 32).
Definition NEWLINE_PATTERN : jsstring -> bool := allOf (Z.eqb 10).
Definition TAB_PATTERN : jsstring -> bool := allOf (Z.eqb 9).

End Patterns.

(* ====================================================================== *)
(** * 2. Tokenization and mapping *)
(* ====================================================================== *)

Definition tokenize (text : jsstring) : list jsstring :=
  match text with
  | [] => []
  | _ => matchAll TOKEN_PATTERN (length text) text
  end.

Definition digit36 (d : Z) : Z := if d <? 10 then 48 + d else 87 + d.

Fixpoint toString36_aux (fuel : nat) (n : Z) (acc : jsstring) : jsstring :=
  match fuel with
  | O => acc
  | S fuel' =>
      let acc' := digit36 (n mod 36) :: acc in
      if n / 36 =? 0 then acc' else toString36_aux fuel' (n / 36) acc'
  end.

(** [n.toString(36)] for an integer [n >= 0]. *)
Definition toString36 (n : Z) : jsstring :=
  toString36_aux (S (Z.to_nat (Z.log2 n))) n [].

Definition startsWith (token : jsstring) (c : Z) : bool :=
  match token with
  | x :: _ => x =? c
  | [] => false
  end.

(** [token[0].toUpperCase() + token.slice(1).toLowerCase()] *)
Definition titleCase (token : jsstring) : jsstring :=
  firstn 1 (toUpperCase token) ++ toLowerCase (skipn 1 token).

(** The body of the loop of [normalizeTokens]: what one raw token pushes. *)
Definition normalizeToken (token : jsstring) : list jsstring :=
  if startsWith token CONTROL_PREFIX then [TOKEN_ESCAPE; token]
  else if SPACE_PATTERN token then [TOKEN_WS_SPACE; toString36 (slen token)]
  else if NEWLINE_PATTERN token then [TOKEN_WS_NEWLINE; toString36 (slen token)]
  else if TAB_PATTERN token then [TOKEN_WS_TAB; toString36 (slen token)]
  else if NUMBER_PATTERN token then [TOKEN_NUM; token]
  else if WORD_PATTERN token then
    let lower := toLowerCase token in
    if streq token lower then [lower]
    else if streq token (toUpperCase token) then [TOKEN_CASE_UPPER; lower]
    else if streq token (titleCase token) then [TOKEN_CASE_TITLE; lower]
    else [token]
  else [token].

Definition normalizeTokens (tokens : list jsstring) : list jsstring :=
  flat_map normalizeToken tokens.

(** ** [Map<string, number>] *)

Definition strmap : Type := list (jsstring * Z).

Fixpoint mapGet (m : strmap) (k : jsstring) : option Z :=
  match m with
  | [] => None
  | (k', v) :: m' => if streq k k' then Some v else mapGet m' k
  end.

(** [m.set(k, v)]: the newest binding of a key is the one [mapGet] finds. *)
Definition mapSet (m : strmap) (k : jsstring) (v : Z) : strmap := (k, v) :: m.

(** ** [Array.prototype.sort] *)

Section Sort.
Context {A : Type} (le : A -> A -> bool).

Fixpoint insertBy (x : A) (l : list A) : list A :=
  match l with
  | [] => [x]
  | y :: l' => if le x y then x :: l else y :: insertBy x l'
  end.

(** A stable sort: of two elements that compare equal the one that came
    first stays first. *)
Fixpoint sortBy (l : list A) : list A :=
  match l with
  | [] => []
  | x :: l' => insertBy x (sortBy l')
  end.
End Sort.

(** ** tokensToIds *)

Record IdTable : Type := mkIdTable {
  tbl_dictionary : list jsstring;   (* [dictionary], in first-seen order *)
  tbl_tokenToId : strmap;           (* [tokenToId] *)
  tbl_ids : list Z                  (* [ids[0..i)] *)
}.

(** One iteration of the first loop of [tokensToIds]. *)
Definition assignId (st : IdTable) (token : jsstring) : IdTable :=
  match mapGet (tbl_tokenToId st) token with
  | Some id =>
      mkIdTable (tbl_dictionary st) (tbl_tokenToId st)
                (tbl_ids st ++ [JS.toUint32 id])
  | None =>
      let id := len (tbl_dictionary st) + 1 in
      mkIdTable (tbl_dictionary st ++ [token])
                (mapSet (tbl_tokenToId st) token id)
                (tbl_ids st ++ [JS.toUint32 id])
  end.

(** [tokenToNewId] after the loop over [sortedDictionary] from index [i]. *)
Fixpoint newIds (sorted : list jsstring) (i : Z) (m : strmap) : strmap :=
  match sorted with
  | [] => m
  | t :: sorted' => newIds sorted' (i + 1) (mapSet m t (i + 1))
  end.

(** [oldToNew]: entry 0 stays 0, entry [i + 1] is the new id of
    [dictionary[i]]. *)
Definition oldToNewTable (dictionary : list jsstring) (tokenToNewId : strmap) : list Z :=
  0 :: map (fun t => JS.toUint32 (JS.num (mapGet tokenToNewId t))) dictionary.

Record IdsAndDictionary : Type := mkIds {
  ids : list Z;
  sortedDictionary : list jsstring
}.

Definition tokensToIds (tokens : list jsstring) : IdsAndDictionary :=
  let st := fold_left assignId tokens (mkIdTable [] [] []) in
  let dictionary := tbl_dictionary st in
  let sorted := sortBy strleb dictionary in
  let tokenToNewId := newIds sorted 0 [] in
  let oldToNew := oldToNewTable dictionary tokenToNewId in
  mkIds (map (fun id => JS.num (aget oldToNew id)) (tbl_ids st)) sorted.

(** ** renderTokens *)

Inductive PendingCase := CaseUpper | CaseTitle.
Inductive PendingMode := ModeSpace | ModeNewline | ModeTab | ModeNumber | ModeEscape.

Definition digitValue36 (c : Z) : option Z :=
  if isDigit c then Some (c - 48)
  else if isLower c then Some (c - 87)
  else if isUpper c then Some (c - 55)
  else None.

Fixpoint parseDigits36 (s : jsstring) (acc : Z) : Z :=
  match s with
  | c :: s' =>
      match digitValue36 c with
      | Some d => parseDigits36 s' (acc * 36 + d)
      | None => acc
      end
  | [] => acc
  end.

(** [parseInt(token, 36)]; [None] is NaN.  The value is the exact integer
    (the rounding of a double above 2^53 is not modelled). *)
Definition parseInt36 (token : jsstring) : option Z :=
  let s := snd (span isSpace token) in
  let (neg, s1) :=
    match s with
    | 45 :: r => (true, r)
    | 43 :: r => (false, r)
    | _ => (false, s)
    end in
  match s1 with
  | c :: _ =>
      match digitValue36 c with
      | Some _ => let v := parseDigits36 s1 0 in Some (if neg then - v else v)
      | None => None
      end
  | [] => None
  end.

(** [Number.isFinite(length) ? length : 0]: NaN gives 0, and so does a
    value beyond the range of a double. *)
Definition finiteOrZero (v : option Z) : Z :=
  match v with
  | Some x => if Z.abs x <? 2 ^ 1024 then x else 0
  | None => 0
  end.

(** The longest string that V8 (2^28 - 16 code units on 32 bits, 2^29 - 24
    on 64 bits), SpiderMonkey (2^30 - 2) and JavaScriptCore (2^31 - 1) all
    hold. *)
Definition MAX_STRING_LENGTH : Z := 268435440.

(** [s.repeat(count)] for a string [s] of one code unit [c].  A negative
    count is a RangeError ("Invalid count value"), and so is a result
    longer than the engine holds ("Invalid string length"): up to
    [MAX_STRING_LENGTH] every engine returns the string, from 2^32 on none
    does (the length of a string is a 32-bit number in each of them), in
    between the outcome depends on the engine. *)
Definition repeatString (c : Z) (count : Z) : result jsstring :=
  if count <? 0 then Throw "RangeError: Invalid count value"
  else if count <=? MAX_STRING_LENGTH then Ok (repeat c (Z.to_nat count))
  else if count <? 4294967296
       then Unmodelled "whether the engine holds a string this long"
  else Throw "RangeError: Invalid string length".

(** The text of a token in [output.join('')]: [undefined] joins as the
    empty string. *)
Definition joined (token : option jsstring) : jsstring :=
  match token with Some s => s | None => [] end.

Definition tokenIs (token : option jsstring) (marker : jsstring) : bool :=
  match token with Some s => streq s marker | None => false end.

Fixpoint renderLoop (tokens : list (option jsstring))
         (pendingCase : option PendingCase) (pendingMode : option PendingMode)
         (output : jsstring) : result jsstring :=
  match tokens with
  | [] => Ok output
  | token :: rest =>
      if tokenIs token TOKEN_CASE_UPPER then renderLoop rest (Some CaseUpper) pendingMode output
      else if tokenIs token TOKEN_CASE_TITLE then renderLoop rest (Some CaseTitle) pendingMode output
      else if tokenIs token TOKEN_WS_SPACE then renderLoop rest pendingCase (Some ModeSpace) output
      else if tokenIs token TOKEN_WS_NEWLINE then renderLoop rest pendingCase (Some ModeNewline) output
      else if tokenIs token TOKEN_WS_TAB then renderLoop rest pendingCase (Some ModeTab) output
      else if tokenIs token TOKEN_NUM then renderLoop rest pendingCase (Some ModeNumber) output
      else if tokenIs token TOKEN_ESCAPE then renderLoop rest pendingCase (Some ModeEscape) output
      else
        match pendingMode with
        | Some mode =>
            (* [parseInt(undefined, 36)] parses the text "undefined" *)
            let count := finiteOrZero
                           (parseInt36 (match token with
                                        | Some s => s
                                        | None => js "undefined"
                                        end)) in
            match mode with
            | ModeSpace =>
                (piece <- repeatString 32 count ;;
                 renderLoop rest pendingCase None (output ++ piece))%result
            | ModeNewline =>
                (piece <- repeatString 10 count ;;
                 renderLoop rest pendingCase None (output ++ piece))%result
            | ModeTab =>
                (piece <- repeatString 9 count ;;
                 renderLoop rest pendingCase None (output ++ piece))%result
            | ModeNumber | ModeEscape =>
                renderLoop rest pendingCase None (output ++ joined token)
            end
        | None =>
            match pendingCase with
            | Some CaseUpper =>
                match token with
                | Some s =>
                    (text <- caseMapped s (toUpperCase s) ;;
                     renderLoop rest None None (output ++ text))%result
                | None => Throw "TypeError: token is undefined"
                end
            | Some CaseTitle =>
                match token with
                | Some (c :: s) =>
                    (text <- caseMapped (c :: s) (titleCase (c :: s)) ;;
                     renderLoop rest None None (output ++ text))%result
                | _ => renderLoop rest None None (output ++ joined token)
                end
            | None => renderLoop rest None None (output ++ joined token)
            end
        end
  end.

Definition renderTokens (tokens : list (option jsstring)) : result jsstring :=
  renderLoop tokens None None [].

(* ====================================================================== *)
(** * 3. Word-based Burrows-Wheeler transform *)
(* ====================================================================== *)

(** [a < b] on values read from an array: false when one is [undefined]. *)
Definition ltU (a b : option Z) : bool :=
  match a, b with
  | Some x, Some y => x <? y
  | _, _ => false
  end.

(** The loop of [compareRotation] with [n] iterations left, at [offset]. *)
Fixpoint compareRotationFrom (ids : list Z) (length left right : Z)
         (n : nat) (offset : Z) : Z :=
  match n with
  | O => 0
  | S n' =>
      let leftIndex :=
        if left + offset <? length then left + offset else left + offset - length in
      let rightIndex :=
        if right + offset <? length then right + offset else right + offset - length in
      let leftValue := aget ids leftIndex in
      let rightValue := aget ids rightIndex in
      if ltU leftValue rightValue then -1
      else if ltU rightValue leftValue then 1
      else compareRotationFrom ids length left right n' (offset + 1)
  end.

Definition compareRotation (ids : list Z) (length left right : Z) : Z :=
  compareRotationFrom ids length left right (Z.to_nat length) 0.

(** [0, 1, ..., n - 1] *)
Definition indicesUpTo (n : nat) : list Z := map Z.of_nat (seq 0 n).

Definition buildCyclicSuffixArray (ids : list Z) : list Z :=
  let length := len ids in
  sortBy (fun left right => compareRotation ids length left right <=? 0)
         (indicesUpTo (List.length ids)).

Record BwtResult : Type := mkBwt {
  lastColumn : list Z;
  bwt_primaryIndex : Z
}.

(** The loop of [burrowsWheelerTransform] over [order], at index [i]. *)
Fixpoint bwtLoop (ids : list Z) (length : Z) (order : list Z) (i : Z)
         (lastColumn : list Z) (primaryIndex : Z) : BwtResult :=
  match order with
  | [] => mkBwt lastColumn primaryIndex
  | start :: order' =>
      let lastIndex := if start =? 0 then length - 1 else start - 1 in
      bwtLoop ids length order' (i + 1)
              (aset32 lastColumn i (JS.num (aget ids lastIndex)))
              (if start =? 0 then i else primaryIndex)
  end.

Definition burrowsWheelerTransform (ids : list Z) : BwtResult :=
  match ids with
  | [] => mkBwt [] 0
  | [x] => mkBwt [x] 0
  | _ =>
      let length := len ids in
      let order := buildCyclicSuffixArray ids in
      bwtLoop ids length order 0 (zeros length) 0
  end.

(** [starts] : the exclusive prefix sums of [counts]. *)
Fixpoint prefixStarts (counts : list Z) (sum : Z) : list Z :=
  match counts with
  | [] => []
  | c :: counts' => JS.toUint32 sum :: prefixStarts counts' (sum + c)
  end.

(** The loop that fills [next], over [lastColumn] from index [i]. *)
Fixpoint nextLoop (column : list Z) (starts : list Z) (i : Z)
         (occ next : list Z) : list Z :=
  match column with
  | [] => next
  | symbol :: column' =>
      match aget starts symbol, aget occ symbol with
      | Some s, Some o =>
          nextLoop column' starts (i + 1) (aincr32 occ symbol) (aset32 next (s + o) i)
      | _, _ =>
          (* [pos] is NaN: both writes are ignored *)
          nextLoop column' starts (i + 1) occ next
      end
  end.

(** [arr[row]] where [row] itself may be [undefined]. *)
Definition agetU (arr : list Z) (row : option Z) : option Z :=
  match row with
  | Some r => aget arr r
  | None => None
  end.

(** The last loop of [inverseBurrowsWheelerTransform]: [n] iterations
    left, the next one writes index [n - 1]. *)
Fixpoint restoreLoop (column next : list Z) (n : nat) (row : option Z)
         (restored : list Z) : list Z :=
  match n with
  | O => restored
  | S n' =>
      let row' := agetU next row in
      restoreLoop column next n' row'
                  (aset32 restored (Z.of_nat n') (JS.num (agetU column row')))
  end.

(** [alphabetSize] is [dictionary.length + 1] at the call, in
    [wbwtDecompress]. *)
Definition inverseBurrowsWheelerTransform
           (lastColumn : list Z) (primaryIndex alphabetSize : Z) : list Z :=
  match lastColumn with
  | [] => []
  | _ =>
      let length := len lastColumn in
      let counts := fold_left aincr32 lastColumn (zeros alphabetSize) in
      let starts := prefixStarts counts 0 in
      let next := nextLoop lastColumn starts 0 (zeros alphabetSize) (zeros length) in
      restoreLoop lastColumn next (List.length lastColumn) (Some primaryIndex)
                  (zeros length)
  end.

(* ====================================================================== *)
(** * 4. Move-to-front *)
(* ====================================================================== *)

(** The array [list] of the source is [order] here.
    [for (let j = pos; j > 0; j--) { moved = list[j - 1]; list[j] = moved;
    positions[moved] = j; }] with [j] iterations left. *)
Fixpoint shiftEncode (j : nat) (order positions : list Z) : list Z * list Z :=
  match j with
  | O => (order, positions)
  | S j' =>
      let moved := aget order (Z.of_nat j') in
      let order' := aset32 order (Z.of_nat j) (JS.num moved) in
      let positions' :=
        match moved with
        | Some m => aset32 positions m (Z.of_nat j)
        | None => positions
        end in
      shiftEncode j' order' positions'
  end.

Definition mtfEncodeStep (st : list Z * list Z * list Z) (symbol : Z)
  : list Z * list Z * list Z :=
  let '(order, positions, mtf) := st in
  match aget positions symbol with
  | Some pos =>
      if pos =? 0 then (order, positions, mtf ++ [pos])
      else
        let (order', positions') := shiftEncode (Z.to_nat pos) order positions in
        (aset32 order' 0 symbol, aset32 positions' symbol 0, mtf ++ [pos])
  | None =>
      (* [pos] is undefined: 0 is stored, the shift loop does not run *)
      (aset32 order 0 symbol, positions, mtf ++ [0])
  end.

(** [list] and [positions] after the first loop: the identity on
    [alphabetSize] entries ([dictionary.length + 1] at the call, in
    [wbwtCompress]). *)
Definition moveToFrontEncode (sequence : list Z) (alphabetSize : Z) : list Z :=
  let identity := indicesUpTo (Z.to_nat alphabetSize) in
  snd (fold_left mtfEncodeStep sequence (identity, identity, [])).

(** [for (let j = pos; j > 0; j--) list[j] = list[j - 1];] *)
Fixpoint shiftDecode (j : nat) (order : list Z) : list Z :=
  match j with
  | O => order
  | S j' => shiftDecode j' (aset32 order (Z.of_nat j) (JS.num (aget order (Z.of_nat j'))))
  end.

Definition mtfDecodeStep (st : list Z * list Z) (pos : Z) : list Z * list Z :=
  let (order, sequence) := st in
  let symbol := JS.num (aget order pos) in
  if pos =? 0 then (order, sequence ++ [symbol])
  else (aset32 (shiftDecode (Z.to_nat pos) order) 0 symbol, sequence ++ [symbol]).

(** [alphabetSize] is [dictionary.length + 1] at the call, in
    [wbwtDecompress]. *)
Definition moveToFrontDecode (mtf : list Z) (alphabetSize : Z) : list Z :=
  snd (fold_left mtfDecodeStep mtf (indicesUpTo (Z.to_nat alphabetSize), [])).

(* ====================================================================== *)
(** * 7. Public API: compress and decompress *)
(* ====================================================================== *)

Record WBWTPayload : Type := mkPayload {
  dictionary : list jsstring;
  primaryIndex : Z;
  mtf : list Z
}.

Definition wbwtCompress (text : jsstring) : WBWTPayload :=
  let rawTokens := tokenize text in
  let tokens := normalizeTokens rawTokens in
  match tokens with
  | [] => mkPayload [] 0 []
  | _ =>
      let r := tokensToIds tokens in
      let idsWithSentinel := ids r ++ [SENTINEL_ID] in
      let b := burrowsWheelerTransform idsWithSentinel in
      let mtf := moveToFrontEncode (lastColumn b) (len (sortedDictionary r) + 1) in
      mkPayload (sortedDictionary r) (bwt_primaryIndex b) mtf
  end.

(** [dictionary[i]]; [None] is [undefined]. *)
Definition dictGet (dictionary : list jsstring) (i : Z) : option jsstring :=
  if i <? 0 then None else nth_error dictionary (Z.to_nat i).

Definition wbwtDecompress (payload : option WBWTPayload) : result jsstring :=
  match payload with
  | None => Ok []
  | Some p =>
      match dictionary p, mtf p with
      | [], _ | _, [] => Ok []
      | _, _ =>
          let alphabetSize := len (dictionary p) + 1 in
          let lastColumn := moveToFrontDecode (mtf p) alphabetSize in
          let ids := inverseBurrowsWheelerTransform lastColumn (primaryIndex p) alphabetSize in
          let tokens :=
            map (fun id => dictGet (dictionary p) (id - 1))
                (filter (fun id => negb (id =? SENTINEL_ID)) ids) in
          renderTokens tokens
      end
  end.


(* ====================================================================== *)
(** * 0. Byte utilities *)
(* ====================================================================== *)

(** A [ByteWriter] is the list of the bytes pushed so far; its growth
    policy ([ensure]) is not observable through [toUint8Array]. *)
Definition ByteWriter : Type := list Z.

Definition pushByte (w : ByteWriter) (value : Z) : ByteWriter :=
  w ++ [JS.and value 255].

Definition pushBytes (w : ByteWriter) (bytes : list Z) : ByteWriter := w ++ bytes.

Definition pushUint32LE (w : ByteWriter) (value : Z) : ByteWriter :=
  w ++ [JS.and value 255;
        JS.and (JS.shr value 8) 255;
        JS.and (JS.shr value 16) 255;
        JS.and (JS.shr value 24) 255].

Record BitWriter : Type := mkBitWriter {
  bw_writer : ByteWriter;
  bw_current : Z;
  bw_filled : Z
}.

Definition newBitWriter : BitWriter := mkBitWriter [] 0 0.

Definition writeBit (w : BitWriter) (bit : Z) : BitWriter :=
  let current := JS.or (JS.shl (bw_current w) 1) (JS.and bit 1) in
  let filled := bw_filled w + 1 in
  if filled =? 8 then mkBitWriter (pushByte (bw_writer w) current) 0 0
  else mkBitWriter (bw_writer w) current filled.

(** [BitWriter.finish] *)
Definition finishBits (w : BitWriter) : list Z :=
  if 0 <? bw_filled w then
    pushByte (bw_writer w) (JS.shl (bw_current w) (8 - bw_filled w))
  else bw_writer w.

Record BitReader : Type := mkBitReader {
  br_bytes : list Z;
  br_index : Z;
  br_current : Z;
  br_remaining : Z
}.

Definition newBitReader (bytes : list Z) : BitReader := mkBitReader bytes 0 0 0.

Definition readBit (r : BitReader) : Z * BitReader :=
  let r1 :=
    if br_remaining r =? 0 then
      if br_index r <? len (br_bytes r) then
        mkBitReader (br_bytes r) (br_index r + 1)
                    (JS.num (aget (br_bytes r) (br_index r))) 8
      else mkBitReader (br_bytes r) (br_index r) 0 8
    else r in
  let bit := if JS.and (br_current r1) 128 =? 0 then 0 else 1 in
  (bit, mkBitReader (br_bytes r1) (br_index r1)
                    (JS.and (JS.shl (br_current r1) 1) 255)
                    (br_remaining r1 - 1)).

Fixpoint readBitsLoop (count : nat) (value : Z) (r : BitReader) : Z * BitReader :=
  match count with
  | O => (value, r)
  | S count' =>
      let (bit, r') := readBit r in
      readBitsLoop count' (JS.or (JS.shl value 1) bit) r'
  end.

Definition readBits (r : BitReader) (count : Z) : Z * BitReader :=
  let (value, r') := readBitsLoop (Z.to_nat count) 0 r in
  (JS.shr value 0, r').

(** ** Varint and u32-LE *)

(** The loop of [writeVarint].  [current] is below 2^32, so it is below
    0x80 after at most four shifts by 7. *)
Fixpoint writeVarintLoop (n : nat) (w : ByteWriter) (current : Z) : ByteWriter :=
  match n with
  | O => pushByte w current
  | S n' =>
      if 128 <=? current then
        writeVarintLoop n' (pushByte w (JS.or (JS.and current 127) 128))
                        (JS.shr current 7)
      else pushByte w current
  end.

Definition writeVarint (w : ByteWriter) (value : Z) : ByteWriter :=
  writeVarintLoop 5 w (JS.shr value 0).

(** The [do ... while (byte & 0x80)] loop of [readVarint], on the bytes
    from [offset] on.  Past the end of the buffer [byte] is [undefined]:
    it adds nothing to [result] and ends the loop. *)
Fixpoint readVarintLoop (rest : list Z) (result shift offset : Z) : Z * Z :=
  match rest with
  | [] => (JS.shr (JS.or result 0) 0, offset + 1)
  | byte :: rest' =>
      let result' := JS.or result (JS.shl (JS.and byte 127) shift) in
      if JS.and byte 128 =? 0 then (JS.shr result' 0, offset + 1)
      else readVarintLoop rest' result' (shift + 7) (offset + 1)
  end.

(** [bytes.subarray(offset)] for [offset >= 0]. *)
Definition subarrayFrom (bytes : list Z) (offset : Z) : list Z :=
  skipn (Z.to_nat offset) bytes.

(** Returns [(value, offset)]. *)
Definition readVarint (bytes : list Z) (offset : Z) : Z * Z :=
  readVarintLoop (subarrayFrom bytes offset) 0 0 offset.

Definition readUint32LE (bytes : list Z) (offset : Z) : Z :=
  JS.shr
    (JS.or (JS.or (JS.or (JS.num (aget bytes offset))
                         (JS.shl (JS.num (aget bytes (offset + 1))) 8))
                  (JS.shl (JS.num (aget bytes (offset + 2))) 16))
           (JS.shl (JS.num (aget bytes (offset + 3))) 24))
    0.

(* ====================================================================== *)
(** * Fenwick tree *)
(* ====================================================================== *)

Local Open Scope result_scope.

Record FenwickTree : Type := mkFenwick {
  fw_size : Z;
  fw_tree : list Z;
  fw_freq : list Z;
  fw_total : Z
}.

(** [new FenwickTree(size)] *)
Definition newFenwickTree (size : Z) : result FenwickTree :=
  tree <- newTypedArray (size + 1) ;;
  freq <- newTypedArray (size + 1) ;;
  Ok (mkFenwick size tree freq 0).

(** [while (idx <= size) { tree[idx] += delta; idx += idx & -idx; }] *)
Fixpoint treeAddLoop (fuel : nat) (size : Z) (tree : list Z) (idx delta : Z)
  : result (list Z) :=
  if idx <=? size then
    match fuel with
    | O => OutOfFuel
    | S fuel' =>
        let tree' :=
          match aget tree idx with
          | Some t => aset32 tree idx (t + delta)
          | None => tree
          end in
        treeAddLoop fuel' size tree' (idx + JS.and idx (- idx)) delta
    end
  else Ok tree.

(** The [for] loop shared by [reset] and [rescale]: [n] indices left,
    the next one is [i]; [value i] is what [freq[i]] becomes. *)
Fixpoint rebuildLoop (fuel : nat) (n : nat) (i : Z) (value : Z -> Z) (m : FenwickTree)
  : result FenwickTree :=
  match n with
  | O => Ok m
  | S n' =>
      let v := value (JS.num (aget (fw_freq m) i)) in
      tree' <- treeAddLoop fuel (fw_size m) (fw_tree m) i v ;;
      rebuildLoop fuel n' (i + 1) value
                  (mkFenwick (fw_size m) tree' (aset32 (fw_freq m) i v) (fw_total m + v))
  end.

Definition fenwickReset (fuel : nat) (m : FenwickTree) (value : Z) : result FenwickTree :=
  rebuildLoop fuel (Z.to_nat (fw_size m)) 1 (fun _ => value)
              (mkFenwick (fw_size m) (zeros (len (fw_tree m))) (zeros (len (fw_freq m))) 0).

(** [while (idx > 0) { result += tree[idx]; idx -= idx & -idx; }] *)
Fixpoint fenwickSumLoop (fuel : nat) (tree : list Z) (idx acc : Z) : result Z :=
  if 0 <? idx then
    match fuel with
    | O => OutOfFuel
    | S fuel' =>
        match aget tree idx with
        | Some t => fenwickSumLoop fuel' tree (idx - JS.and idx (- idx)) (acc + t)
        | None => Unmodelled "sum: tree[idx] is undefined"
        end
    end
  else Ok acc.

Definition fenwickSum (fuel : nat) (m : FenwickTree) (index : Z) : result Z :=
  fenwickSumLoop fuel (fw_tree m) index 0.

Definition fenwickAdd (fuel : nat) (m : FenwickTree) (index delta : Z) : result FenwickTree :=
  let freq' := match aget (fw_freq m) index with
               | Some f => aset32 (fw_freq m) index (f + delta)
               | None => fw_freq m
               end in
  tree' <- treeAddLoop fuel (fw_size m) (fw_tree m) index delta ;;
  Ok (mkFenwick (fw_size m) tree' freq' (fw_total m + delta)).

Definition fenwickRescale (fuel : nat) (m : FenwickTree) : result FenwickTree :=
  rebuildLoop fuel (Z.to_nat (fw_size m)) 1
              (fun f => let value := JS.sar (f + 1) 1 in
                        if value =? 0 then 1 else value)
              (mkFenwick (fw_size m) (zeros (len (fw_tree m))) (fw_freq m) 0).

(** [while (bit <= size) bit <<= 1;] *)
Fixpoint topBitLoop (fuel : nat) (size bit : Z) : result Z :=
  if bit <=? size then
    match fuel with
    | O => OutOfFuel
    | S fuel' => topBitLoop fuel' size (JS.shl bit 1)
    end
  else Ok bit.

(** The descent of [findByCumulative]. *)
Fixpoint descendLoop (fuel : nat) (m : FenwickTree) (value idx bit sum : Z) : result Z :=
  if bit =? 0 then Ok (idx + 1)
  else
    match fuel with
    | O => OutOfFuel
    | S fuel' =>
        let next := idx + bit in
        match aget (fw_tree m) next with
        | Some t =>
            if (next <=? fw_size m) && (sum + t <=? value)
            then descendLoop fuel' m value next (JS.sar bit 1) (sum + t)
            else descendLoop fuel' m value idx (JS.sar bit 1) sum
        | None => descendLoop fuel' m value idx (JS.sar bit 1) sum
        end
    end.

Definition findByCumulative (fuel : nat) (m : FenwickTree) (value : Z) : result Z :=
  bit <- topBitLoop fuel (fw_size m) 1 ;;
  descendLoop fuel m value 0 (JS.sar bit 1) 0.

(* ====================================================================== *)
(** * 1. Entropy coding (adaptive arithmetic) *)
(* ====================================================================== *)

(** [Math.floor(a / b)] for integers [a], [b] held in doubles.  The
    quotient is followed while the double is exact. *)
Definition floorDiv (a b : Z) : result Z :=
  if b =? 0 then Unmodelled "division by zero"
  else if 9007199254740992 <=? Z.abs a then Unmodelled "product beyond 2^53"
  else Ok (a / b).

Record ArithmeticEncoder : Type := mkEncoder {
  enc_writer : BitWriter;
  enc_low : Z;
  enc_high : Z;
  enc_pending : Z
}.

Definition newArithmeticEncoder (w : BitWriter) : ArithmeticEncoder :=
  mkEncoder w 0 ENTROPY_TOP_VALUE 0.

Fixpoint writePending (n : nat) (w : BitWriter) (fill : Z) : BitWriter :=
  match n with
  | O => w
  | S n' => writePending n' (writeBit w fill) fill
  end.

(** Leaves [pending] at 0 (or where it was if it was not positive). *)
Definition outputBitAndPending (e : ArithmeticEncoder) (bit : Z) : ArithmeticEncoder :=
  let w := writeBit (enc_writer e) bit in
  let fill := if bit =? 0 then 1 else 0 in
  mkEncoder (writePending (Z.to_nat (enc_pending e)) w fill)
            (enc_low e) (enc_high e)
            (if 0 <? enc_pending e then 0 else enc_pending e).

(** The [while (true)] loop of [encodeSymbol]. *)
Fixpoint encodeRenorm (fuel : nat) (e : ArithmeticEncoder) : result ArithmeticEncoder :=
  match fuel with
  | O => OutOfFuel
  | S fuel' =>
      if enc_high e <? ENTROPY_HALF then
        let e1 := outputBitAndPending e 0 in
        encodeRenorm fuel'
          (mkEncoder (enc_writer e1) (enc_low e1 * 2) (enc_high e1 * 2 + 1) (enc_pending e1))
      else if ENTROPY_HALF <=? enc_low e then
        let e1 := outputBitAndPending e 1 in
        encodeRenorm fuel'
          (mkEncoder (enc_writer e1) ((enc_low e1 - ENTROPY_HALF) * 2)
                     ((enc_high e1 - ENTROPY_HALF) * 2 + 1) (enc_pending e1))
      else if (ENTROPY_FIRST_QTR <=? enc_low e) && (enc_high e <? ENTROPY_THIRD_QTR) then
        encodeRenorm fuel'
          (mkEncoder (enc_writer e) ((enc_low e - ENTROPY_FIRST_QTR) * 2)
                     ((enc_high e - ENTROPY_FIRST_QTR) * 2 + 1) (enc_pending e + 1))
      else Ok e
  end.

(** [model.freq[symbolIndex]] used as a number. *)
Definition freqAt (m : FenwickTree) (symbolIndex : Z) : result Z :=
  match aget (fw_freq m) symbolIndex with
  | Some f => Ok f
  | None => Unmodelled "freq[symbolIndex] is undefined"
  end.

Definition encodeSymbol (fuel : nat) (e : ArithmeticEncoder) (model : FenwickTree)
           (symbolIndex : Z) : result ArithmeticEncoder :=
  let total := fw_total model in
  cum <- fenwickSum fuel model (symbolIndex - 1) ;;
  freq <- freqAt model symbolIndex ;;
  let range := enc_high e - enc_low e + 1 in
  hi <- floorDiv (range * (cum + freq)) total ;;
  lo <- floorDiv (range * cum) total ;;
  encodeRenorm fuel
    (mkEncoder (enc_writer e) (enc_low e + lo) (enc_low e + hi - 1) (enc_pending e)).

(** [ArithmeticEncoder.finish] *)
Definition finishEncoder (e : ArithmeticEncoder) : ArithmeticEncoder :=
  let e1 := mkEncoder (enc_writer e) (enc_low e) (enc_high e) (enc_pending e + 1) in
  if enc_low e1 <? ENTROPY_FIRST_QTR then outputBitAndPending e1 0
  else outputBitAndPending e1 1.

Record ArithmeticDecoder : Type := mkDecoder {
  dec_reader : BitReader;
  dec_low : Z;
  dec_high : Z;
  dec_value : Z
}.

Definition newArithmeticDecoder (r : BitReader) : ArithmeticDecoder :=
  let (value, r') := readBits r 32 in
  mkDecoder r' 0 ENTROPY_TOP_VALUE value.

(** The tail of an iteration of the loop of [decodeSymbol]. *)
Definition decodeShift (r : BitReader) (low high value : Z) : ArithmeticDecoder :=
  let (bit, r') := readBit r in
  mkDecoder r' (low * 2) (high * 2 + 1) (JS.shr (value * 2 + bit) 0).

(** The [while (true)] loop of [decodeSymbol]. *)
Fixpoint decodeRenorm (fuel : nat) (d : ArithmeticDecoder) : result ArithmeticDecoder :=
  match fuel with
  | O => OutOfFuel
  | S fuel' =>
      if dec_high d <? ENTROPY_HALF then
        decodeRenorm fuel' (decodeShift (dec_reader d) (dec_low d) (dec_high d) (dec_value d))
      else if ENTROPY_HALF <=? dec_low d then
        decodeRenorm fuel'
          (decodeShift (dec_reader d) (dec_low d - ENTROPY_HALF)
                       (dec_high d - ENTROPY_HALF) (dec_value d - ENTROPY_HALF))
      else if (ENTROPY_FIRST_QTR <=? dec_low d) && (dec_high d <? ENTROPY_THIRD_QTR) then
        decodeRenorm fuel'
          (decodeShift (dec_reader d) (dec_low d - ENTROPY_FIRST_QTR)
                       (dec_high d - ENTROPY_FIRST_QTR) (dec_value d - ENTROPY_FIRST_QTR))
      else Ok d
  end.

(** Returns the decoder after the symbol, and [symbolIndex]. *)
Definition decodeSymbol (fuel : nat) (d : ArithmeticDecoder) (model : FenwickTree)
  : result (ArithmeticDecoder * Z) :=
  let total := fw_total model in
  let range := dec_high d - dec_low d + 1 in
  cumValue <- floorDiv ((dec_value d - dec_low d + 1) * total - 1) range ;;
  symbolIndex <- findByCumulative fuel model cumValue ;;
  cum <- fenwickSum fuel model (symbolIndex - 1) ;;
  freq <- freqAt model symbolIndex ;;
  hi <- floorDiv (range * (cum + freq)) total ;;
  lo <- floorDiv (range * cum) total ;;
  d' <- decodeRenorm fuel
          (mkDecoder (dec_reader d) (dec_low d + lo) (dec_low d + hi - 1) (dec_value d)) ;;
  Ok (d', symbolIndex).

(** [model.add(symbolIndex, 1); if (model.total >= ENTROPY_MAX_TOTAL)
    model.rescale();] *)
Definition updateModel (fuel : nat) (model : FenwickTree) (symbolIndex : Z)
  : result FenwickTree :=
  model' <- fenwickAdd fuel model symbolIndex 1 ;;
  if ENTROPY_MAX_TOTAL <=? fw_total model' then fenwickRescale fuel model'
  else Ok model'.

Fixpoint encodeLoop (fuel : nat) (symbols : list Z) (e : ArithmeticEncoder)
         (model : FenwickTree) : result ArithmeticEncoder :=
  match symbols with
  | [] => Ok e
  | s :: symbols' =>
      let symbolIndex := s + 1 in
      e' <- encodeSymbol fuel e model symbolIndex ;;
      model' <- updateModel fuel model symbolIndex ;;
      encodeLoop fuel symbols' e' model'
  end.

Definition entropyEncodeSymbols (fuel : nat) (symbols : list Z) (alphabetSize : Z)
  : result (list Z) :=
  match symbols with
  | [] => Ok []
  | _ =>
      model <- newFenwickTree alphabetSize ;;
      model <- fenwickReset fuel model 1 ;;
      e <- encodeLoop fuel symbols (newArithmeticEncoder newBitWriter) model ;;
      Ok (finishBits (enc_writer (finishEncoder e)))
  end.

(** The decoding loop, [n] symbols left; [store] is the conversion of the
    output array ([Uint32Array] or [Uint8Array]).  The loop writes
    [output[0]], [output[1]], ... in turn: [output] is the part of the
    array written so far. *)
Fixpoint decodeLoop (fuel : nat) (store : Z -> Z) (n : nat) (d : ArithmeticDecoder)
         (model : FenwickTree) (output : list Z) : result (list Z) :=
  match n with
  | O => Ok output
  | S n' =>
      ' (d', symbolIndex) <- decodeSymbol fuel d model ;;
      model' <- updateModel fuel model symbolIndex ;;
      decodeLoop fuel store n' d' model' (output ++ [store (symbolIndex - 1)])
  end.

(** [fresh] is [output] as allocated; the loop writes each of its
    [symbolCount] entries. *)
Definition entropyDecodeSymbols (fuel : nat) (bytes : list Z) (symbolCount alphabetSize : Z)
  : result (list Z) :=
  if symbolCount =? 0 then Ok []
  else
    model <- newFenwickTree alphabetSize ;;
    model <- fenwickReset fuel model 1 ;;
    let decoder := newArithmeticDecoder (newBitReader bytes) in
    fresh <- newTypedArray symbolCount ;;
    decodeLoop fuel JS.toUint32 (Z.to_nat symbolCount) decoder model [].

Definition entropyDecodeBytes (fuel : nat) (bytes : list Z) (outputLength : Z)
  : result (list Z) :=
  if outputLength =? 0 then Ok []
  else
    model <- newFenwickTree 256 ;;
    model <- fenwickReset fuel model 1 ;;
    let decoder := newArithmeticDecoder (newBitReader bytes) in
    fresh <- newTypedArray outputLength ;;
    decodeLoop fuel (fun v => v mod 256) (Z.to_nat outputLength) decoder model [].

(* ====================================================================== *)
(** * 5. Legacy RLE + varint *)
(* ====================================================================== *)

(** [while (run > 0 && index < tokenCount) { mtf[index++] = 0; run--; }]
    with at most [n] iterations; returns [(mtf, index, run)]. *)
Fixpoint zeroFill (n : nat) (tokenCount : Z) (mtf : list Z) (index run : Z)
  : list Z * Z * Z :=
  match n with
  | O => (mtf, index, run)
  | S n' =>
      if (0 <? run) && (index <? tokenCount)
      then zeroFill n' tokenCount (aset32 mtf index 0) (index + 1) (run - 1)
      else (mtf, index, run)
  end.

(** The outer [while (index < tokenCount)] loop of [decodeMtfRle]. *)
Fixpoint decodeMtfRleLoop (fuel : nat) (bytes : list Z) (tokenCount : Z)
         (mtf : list Z) (index offset : Z) : result (list Z * Z) :=
  if index <? tokenCount then
    match fuel with
    | O => OutOfFuel
    | S fuel' =>
        let (value, offset') := readVarint bytes offset in
        if JS.and value 1 =? 0 then
          let run := JS.shr value 1 in
          let '(mtf', index', _) := zeroFill (Z.to_nat run) tokenCount mtf index run in
          decodeMtfRleLoop fuel' bytes tokenCount mtf' index' offset'
        else
          decodeMtfRleLoop fuel' bytes tokenCount
                           (aset32 mtf index (JS.shr value 1)) (index + 1) offset'
    end
  else Ok (mtf, offset).

(** Returns [(mtf, offset)]. *)
Definition decodeMtfRle (fuel : nat) (bytes : list Z) (offset tokenCount : Z)
  : result (list Z * Z) :=
  mtf <- newTypedArray tokenCount ;;
  decodeMtfRleLoop fuel bytes tokenCount mtf 0 offset.

(* ====================================================================== *)
(** * 6. Zero-run encoding (RUNA/RUNB) *)
(* ====================================================================== *)

(** [flushRun]: [while (run > 0) { digit = ((run - 1) & 1) + 1;
    symbols.push(digit - 1); run = (run - 1) >> 1; }].  [>>] works on 32
    bits, so the loop ends within 33 iterations. *)
Fixpoint flushRunLoop (n : nat) (run : Z) (symbols : list Z) : list Z :=
  match n with
  | O => symbols
  | S n' =>
      if 0 <? run then
        let digit := JS.and (run - 1) 1 + 1 in
        flushRunLoop n' (JS.sar (run - 1) 1) (symbols ++ [digit - 1])
      else symbols
  end.

Definition flushRun (run : Z) (symbols : list Z) : list Z :=
  flushRunLoop 33 run symbols.

(** The [for] loop of [mtfToSymbols]: state [(symbols, run)]. *)
Definition mtfToSymbolsStep (st : list Z * Z) (value : Z) : list Z * Z :=
  let (symbols, run) := st in
  if value =? 0 then (symbols, run + 1)
  else
    let symbols' := if 0 <? run then flushRun run symbols else symbols in
    (symbols' ++ [value + 1], 0).

(** The result is [Uint32Array.from(symbols)]. *)
Definition mtfToSymbols (mtf : list Z) : list Z :=
  let (symbols, run) := fold_left mtfToSymbolsStep mtf ([], 0) in
  map JS.toUint32 (if 0 <? run then flushRun run symbols else symbols).

(** The state of [symbolsToMtf]. *)
Record RunState : Type := mkRun {
  rs_mtf : list Z;
  rs_mtfIndex : Z;
  rs_run : Z;
  rs_base : Z
}.

(** [while (run > 0 && mtfIndex < tokenCount) { mtf[mtfIndex++] = 0; run--; }]
    It runs at most [tokenCount - mtfIndex] times. *)
Definition writeZeros (tokenCount : Z) (st : RunState) : RunState :=
  let '(mtf, index, run) :=
    zeroFill (Z.to_nat (tokenCount - rs_mtfIndex st)) tokenCount
             (rs_mtf st) (rs_mtfIndex st) (rs_run st) in
  mkRun mtf index run (rs_base st).

(** One iteration of the [for] loop of [symbolsToMtf]. *)
Definition symbolsToMtfStep (tokenCount : Z) (st : RunState) (symbol : Z) : RunState :=
  if symbol <=? 1 then
    mkRun (rs_mtf st) (rs_mtfIndex st)
          (rs_run st + (if symbol =? 0 then 1 else 2) * rs_base st)
          (JS.shl (rs_base st) 1)
  else
    let st1 :=
      if 0 <? rs_run st then
        let st' := writeZeros tokenCount st in
        mkRun (rs_mtf st') (rs_mtfIndex st') 0 1
      else st in
    if rs_mtfIndex st1 <? tokenCount then
      mkRun (aset32 (rs_mtf st1) (rs_mtfIndex st1) (symbol - 1))
            (rs_mtfIndex st1 + 1) (rs_run st1) (rs_base st1)
    else st1.

Definition symbolsToMtf (symbols : list Z) (tokenCount : Z) : result (list Z) :=
  mtf <- newTypedArray tokenCount ;;
  let st := fold_left (symbolsToMtfStep tokenCount) symbols (mkRun mtf 0 0 1) in
  Ok (rs_mtf (writeZeros tokenCount st)).

(* ====================================================================== *)
(** * TextEncoder and TextDecoder (UTF-8, WHATWG Encoding) *)
(* ====================================================================== *)

Section Utf8.

Definition isHighSurrogate (c : Z) : bool := inRange 55296 56319 c.
Definition isLowSurrogate (c : Z) : bool := inRange 56320 57343 c.

(** The UTF-8 bytes of a scalar value. *)
Definition utf8Bytes (cp : Z) : list Z :=
  if cp <? 128 then [cp]
  else if cp <? 2048 then [192 + cp / 64; 128 + cp mod 64]
  else if cp <? 65536 then
    [224 + cp / 4096; 128 + (cp / 64) mod 64; 128 + cp mod 64]
  else
    [240 + cp / 262144; 128 + (cp / 4096) mod 64;
     128 + (cp / 64) mod 64; 128 + cp mod 64].

(** [new TextEncoder().encode(s)]: a surrogate pair is one scalar value,
    a surrogate on its own is replaced by U+FFFD. *)
Fixpoint textEncode (s : jsstring) : list Z :=
  match s with
  | [] => []
  | c :: s' =>
      if isHighSurrogate c then
        match s' with
        | d :: s'' =>
            if isLowSurrogate d
            then utf8Bytes (65536 + (c - 55296) * 1024 + (d - 56320)) ++ textEncode s''
            else utf8Bytes 65533 ++ textEncode s'
        | [] => utf8Bytes 65533
        end
      else if isLowSurrogate c then utf8Bytes 65533 ++ textEncode s'
      else utf8Bytes c ++ textEncode s'
  end.

(** A sequence in progress: code point so far, bytes still needed, and
    the bounds of the next byte. *)
Record Utf8Pending : Type := mkPending {
  up_codePoint : Z;
  up_needed : Z;
  up_lower : Z;
  up_upper : Z
}.

(** A byte read while no sequence is in progress: what it emits and the
    sequence it starts. *)
Definition utf8Lead (b : Z) : list Z * option Utf8Pending :=
  if b <=? 127 then ([b], None)
  else if inRange 194 223 b then ([], Some (mkPending (b - 192) 1 128 191))
  else if inRange 224 239 b then
    ([], Some (mkPending (b - 224) 2 (if b =? 224 then 160 else 128)
                         (if b =? 237 then 159 else 191)))
  else if inRange 240 244 b then
    ([], Some (mkPending (b - 240) 3 (if b =? 240 then 144 else 128)
                         (if b =? 244 then 143 else 191)))
  else ([65533], None).

(** The decoder with error mode "replacement"; yields code points. *)
Fixpoint utf8Decode (bytes : list Z) (st : option Utf8Pending) : list Z :=
  match bytes with
  | [] => match st with Some _ => [65533] | None => [] end
  | b :: rest =>
      match st with
      | None =>
          let (out, st') := utf8Lead b in out ++ utf8Decode rest st'
      | Some p =>
          if inRange (up_lower p) (up_upper p) b then
            let cp := up_codePoint p * 64 + (b - 128) in
            if up_needed p =? 1 then cp :: utf8Decode rest None
            else utf8Decode rest (Some (mkPending cp (up_needed p - 1) 128 191))
          else
            (* the byte is put back and read again as a lead byte *)
            let (out, st') := utf8Lead b in
            65533 :: out ++ utf8Decode rest st'
      end
  end.

Definition toUtf16 (cp : Z) : jsstring :=
  if cp <? 65536 then [cp]
  else [55296 + (cp - 65536) / 1024; 56320 + (cp - 65536) mod 1024].

(** [new TextDecoder().decode(bytes)]: [ignoreBOM] is false, so a leading
    U+FEFF is dropped. *)
Definition textDecode (bytes : list Z) : jsstring :=
  let cps := utf8Decode bytes None in
  flat_map toUtf16 (match cps with
                    | 65279 :: cps' => cps'
                    | _ => cps
                    end).

End Utf8.

(* ====================================================================== *)
(** * 8. Binary pack / unpack *)
(* ====================================================================== *)

(** [while (prefix < maxPrefix && prevBytes[prefix] === bytes[prefix]) prefix++] *)
Fixpoint commonPrefix (prevBytes bytes : list Z) : Z :=
  match prevBytes, bytes with
  | x :: prevBytes', y :: bytes' =>
      if x =? y then 1 + commonPrefix prevBytes' bytes' else 0
  | _, _ => 0
  end.

(** The front-coding loop of [serializeWBWT]. *)
Fixpoint writeDictionary (w : ByteWriter) (prevBytes : list Z) (dictionary : list jsstring)
  : ByteWriter :=
  match dictionary with
  | [] => w
  | token :: dictionary' =>
      let bytes := textEncode token in
      let prefix := commonPrefix prevBytes bytes in
      let suffix := subarrayFrom bytes prefix in
      let w1 := writeVarint w prefix in
      let w2 := writeVarint w1 (len suffix) in
      writeDictionary (pushBytes w2 suffix) bytes dictionary'
  end.

Definition serializeWBWT (fuel : nat) (payload : WBWTPayload) : result (list Z) :=
  let alphabetSize := len (dictionary payload) + 1 in
  let symbols := mtfToSymbols (mtf payload) in
  let w := pushUint32LE [] WBWT_MAGIC in
  let w := pushUint32LE w WBWT_VERSION in
  let w := writeVarint w (len (dictionary payload)) in
  let w := writeVarint w (len (mtf payload)) in
  let w := writeVarint w (JS.shr (primaryIndex payload) 0) in
  let w := writeVarint w (len symbols) in
  let w := writeDictionary w [] (dictionary payload) in
  entropyPacked <- entropyEncodeSymbols fuel symbols (alphabetSize + 1) ;;
  Ok (pushBytes w entropyPacked).

(** [bytes.subarray(offset, offset + length)], clamped to the buffer. *)
Definition subarray (bytes : list Z) (offset length : Z) : list Z :=
  firstn (Z.to_nat length) (skipn (Z.to_nat offset) bytes).

(** [part] copied into a zero-filled area of [n] bytes. *)
Definition padded (part : list Z) (n : Z) : list Z :=
  part ++ zeros (n - len part).

(** The v4 dictionary loop of [deserializeWBWT], [n] entries left.
    [tokenBytes] is [new Uint8Array(prefix + suffixLength)] with the first
    [prefix] bytes of [prevBytes] set at 0 and [suffix] set at [prefix]. *)
Fixpoint readFrontCoded (n : nat) (bytes : list Z) (offset : Z) (prevBytes : list Z)
         (dictionary : list jsstring) : result (list jsstring * Z) :=
  match n with
  | O => Ok (dictionary, offset)
  | S n' =>
      let (prefix, offset1) := readVarint bytes offset in
      let (suffixLength, offset2) := readVarint bytes offset1 in
      let suffix := subarray bytes offset2 suffixLength in
      fresh <- newTypedArray (prefix + suffixLength) ;;
      let tokenBytes :=
        padded (firstn (Z.to_nat prefix) prevBytes) prefix ++ padded suffix suffixLength in
      readFrontCoded n' bytes (offset2 + suffixLength) tokenBytes
                     (dictionary ++ [textDecode tokenBytes])
  end.

(** The v2 / v3 dictionary loop of [deserializeWBWT]. *)
Fixpoint readPlainDictionary (n : nat) (bytes : list Z) (offset : Z)
         (dictionary : list jsstring) : list jsstring * Z :=
  match n with
  | O => (dictionary, offset)
  | S n' =>
      let (length, offset1) := readVarint bytes offset in
      readPlainDictionary n' bytes (offset1 + length)
                          (dictionary ++ [textDecode (subarray bytes offset1 length)])
  end.

Definition deserializeWBWT (fuel : nat) (bytes : list Z) : result WBWTPayload :=
  let magic := readUint32LE bytes 0 in
  if negb (magic =? WBWT_MAGIC) then Throw "WBWT: invalid header"
  else
    let version := readUint32LE bytes 4 in
    if negb (version =? 2) && negb (version =? 3) && negb (version =? WBWT_VERSION)
    then Throw "WBWT: unsupported version"
    else
      let (dictCount, offset) := readVarint bytes 8 in
      let (tokenCount, offset) := readVarint bytes offset in
      let (primaryIndex, offset) := readVarint bytes offset in
      let (symbolCount, offset) :=
        if version =? WBWT_VERSION then readVarint bytes offset else (0, offset) in
      ' (dictionary, offset) <-
        (if version =? WBWT_VERSION
         then readFrontCoded (Z.to_nat dictCount) bytes offset [] []
         else Ok (readPlainDictionary (Z.to_nat dictCount) bytes offset [])) ;;
      if version =? WBWT_VERSION then
        symbols <- entropyDecodeSymbols fuel (subarrayFrom bytes offset)
                                        symbolCount (dictCount + 2) ;;
        mtf <- symbolsToMtf symbols tokenCount ;;
        Ok (mkPayload dictionary primaryIndex mtf)
      else
        mtfPacked <-
          (if version =? 2 then Ok (subarrayFrom bytes offset)
           else
             let (packedLength, offset) := readVarint bytes offset in
             entropyDecodeBytes fuel (subarrayFrom bytes offset) packedLength) ;;
        ' (mtf, _) <- decodeMtfRle fuel mtfPacked 0 tokenCount ;;
        Ok (mkPayload dictionary primaryIndex mtf).

(* ====================================================================== *)
(** * Functions outside the claims *)
(* ====================================================================== *)

(** One iteration of the [for] loop of [encodeMtfRle]: state
    [(writer, zeroRun)]. *)
Definition encodeMtfRleStep (st : ByteWriter * Z) (value : Z) : ByteWriter * Z :=
  let (writer, zeroRun) := st in
  if value =? 0 then (writer, zeroRun + 1)
  else
    let writer' :=
      if 0 <? zeroRun then writeVarint writer (JS.shl zeroRun 1) else writer in
    (writeVarint writer' (JS.or (JS.shl value 1) 1), 0).

Definition encodeMtfRle (mtf : list Z) : list Z :=
  let (writer, zeroRun) := fold_left encodeMtfRleStep mtf ([], 0) in
  if 0 <? zeroRun then writeVarint writer (JS.shl zeroRun 1) else writer.

(* ====================================================================== *)
(** * Inputs and predicates of the statements *)
(* ====================================================================== *)

(** A version 2 frame with no dictionary entry, one MTF value announced
    and an empty RLE stream. *)
Definition truncated_v2_frame : list Z := [84; 87; 66; 87; 2; 0; 0; 0; 0; 1; 0].

Definition hello_text : jsstring := js "Hello HELLO hello" ++ [10].

(** The entries the claim C6 lists. *)
Definition C6_listed_entries : list jsstring :=
  [TOKEN_CASE_TITLE; TOKEN_WS_NEWLINE; TOKEN_CASE_UPPER; js "1"; js "hello"].

Definition empty_frame : list Z := [84; 87; 66; 87; 4; 0; 0; 0; 0; 0; 0; 0].


(** An element of a [Uint8Array]. *)
Definition isByte (b : Z) : bool := inRange 0 255 b.

(** The versions [deserializeWBWT] accepts. *)
Definition versionSupported (v : Z) : bool :=
  (v =? 2) || (v =? 3) || (v =? WBWT_VERSION).

(** A header cut after the first byte of the version field. *)
Definition truncated_header : list Z := [84; 87; 66; 87; 4].

(** A version 4 frame whose dictCount is a varint of ten continuation
    bytes and a final byte. *)
Definition overlong_varint_frame : list Z :=
  [84; 87; 66; 87; 4; 0; 0; 0;
   129; 128; 128; 128; 128; 128; 128; 128; 128; 128; 0; 0; 0; 0].

(** The frame of the text "a" without its last byte (the whole
    arithmetic-coded stream). *)
Definition truncated_body_frame : list Z :=
  [84; 87; 66; 87; 4; 0; 0; 0; 1; 2; 1; 2; 0; 1; 97].

(** A version 4 frame of 16 bytes that announces no dictionary entry,
    2^32 - 1 tokens (the varint FF FF FF FF 0F) and no symbol. *)
Definition huge_count_frame : list Z :=
  [84; 87; 66; 87; 4; 0; 0; 0; 0; 255; 255; 255; 255; 15; 0; 0].

(** A frame with a sound magic and version 5. *)
Definition version5_frame : list Z := [84; 87; 66; 87; 5; 0; 0; 0; 0; 0; 0; 0].

(** The values a symbol stream stands for in [symbolsToMtf] when nothing
    bounds their number: a group of digits RUNA / RUNB is a run of zeros,
    whose length [run] and digit weight [base] are accumulated as the loop
    does, [base <<= 1] on 32 bits included; any other symbol [s] is the
    value [s - 1]. *)
Fixpoint symbolValues (symbols : list Z) (run base : Z) : list Z :=
  match symbols with
  | [] => repeat 0 (Z.to_nat run)
  | symbol :: rest =>
      if symbol <=? 1 then
        symbolValues rest (run + (if symbol =? 0 then 1 else 2) * base) (JS.shl base 1)
      else if 0 <? run then
        repeat 0 (Z.to_nat run) ++ JS.toUint32 (symbol - 1) :: symbolValues rest 0 1
      else JS.toUint32 (symbol - 1) :: symbolValues rest run base
  end.


(** No group of consecutive digits has more than [limit] of them; [seen]
    digits of the current group come before [symbols]. *)
Fixpoint groupsWithin (limit : nat) (symbols : list Z) (seen : nat) : bool :=
  match symbols with
  | [] => true
  | symbol :: rest =>
      if symbol <=? 1
      then Nat.ltb seen limit && groupsWithin limit rest (S seen)
      else groupsWithin limit rest 0
  end.

(** The literal 4, a group of 32 digits RUNA and the literal 2. *)
Definition long_group_symbols : list Z := 5 :: repeat 0 32 ++ [3].

(** A whitespace token: not empty, every code unit of class [\s]. *)
Definition isWhitespaceToken (token : jsstring) : bool := allOf isSpace token.

(** All spaces, all newlines or all tabs. *)
Definition singleWhitespaceClass (token : jsstring) : bool :=
  SPACE_PATTERN token || NEWLINE_PATTERN token || TAB_PATTERN token.

(** A token is not empty, and either has no whitespace at all or nothing
    but whitespace. *)
Definition tokenShape (token : jsstring) : bool :=
  match token with
  | [] => false
  | _ => negb (existsb isSpace token) || forallb isSpace token
  end.

(** No two consecutive tokens are both whitespace tokens. *)
Fixpoint noAdjacentWhitespace (tokens : list jsstring) : bool :=
  match tokens with
  | a :: (b :: _) as rest =>
      negb (isWhitespaceToken a && isWhitespaceToken b) && noAdjacentWhitespace rest
  | _ => true
  end.

(** The position of the first occurrence of [t] in [l]. *)
Fixpoint indexOf (t : jsstring) (l : list jsstring) : option nat :=
  match l with
  | [] => None
  | x :: l' => if streq t x then Some O else option_map S (indexOf t l')
  end.

(** The id of a token under a dictionary: one more than its position
    (0, the sentinel, if it is not an entry). *)
Definition dictionaryId (dictionary : list jsstring) (t : jsstring) : Z :=
  match indexOf t dictionary with
  | Some i => Z.of_nat i + 1
  | None => 0
  end.




(* ====================================================================== *)
(** * Invariants of the loops *)
(* ====================================================================== *)

(** The array of [symbolsToMtf], of length [N]: [mtf] holds the first [N]
    of the values [out] written so far, zero beyond them, and [idx] is
    where the next value would go. *)
Definition holds (N : nat) (mtf : list Z) (idx : Z) (out : list Z) : Prop :=
  length mtf = N
  /\ idx = Z.min (Z.of_nat N) (len out)
  /\ forall i, (i < N)%nat -> nth i mtf 0 = nth i out 0.

(** What follows the span does not start in the class. *)
Definition startsOutside (p : Z -> bool) (s : jsstring) : Prop :=
  match s with
  | c :: _ => p c = false
  | [] => True
  end.

(** The map and the dictionary of the first loop of [tokensToIds]: a
    token is bound to its position in the dictionary plus one, and the
    dictionary has no duplicates. *)
Definition keysOk (st : IdTable) : Prop :=
  (forall k, mapGet (tbl_tokenToId st) k
             = option_map (fun i => Z.of_nat i + 1) (indexOf k (tbl_dictionary st)))
  /\ NoDup (tbl_dictionary st).

(** The ids of the first loop after the tokens [done]: while ids fit in
    32 bits, [ids[i]] is the position of [tokens[i]] in the dictionary,
    plus one. *)
Definition tableOk (st : IdTable) (done : list jsstring) : Prop :=
  tbl_ids st = map (dictionaryId (tbl_dictionary st)) done
  /\ (forall k, In k (tbl_dictionary st) <-> In k done)
  /\ (length (tbl_dictionary st) <= length done)%nat.

(** The call does not throw. *)
Definition noThrow {A : Type} (r : result A) : Prop :=
  match r with
  | Throw _ => False
  | _ => True
  end.

(* ====================================================================== *)
(** * Rotations, rows and the arrays of the inverse transform *)
(* ====================================================================== *)

(** [x[i]] as a number, for an index inside the array. *)
Definition at_ (x : list Z) (i : nat) : Z := nth i x 0.

(** The index [k] places after [s], around the array. *)
Definition wrapAdd (n s k : nat) : nat := ((s + k) mod n)%nat.

(** The rotation that starts at [s] is before the one that starts at
    [t]: they agree on [k] places and then the first is smaller. *)
Definition rotLt (x : list Z) (s t : nat) : Prop :=
  exists k, (k < length x)%nat
            /\ (forall j, (j < k)%nat ->
                          at_ x (wrapAdd (length x) s j) = at_ x (wrapAdd (length x) t j))
            /\ at_ x (wrapAdd (length x) s k) < at_ x (wrapAdd (length x) t k).

(** The rotations that start at [s] and [t] are equal. *)
Definition rotEq (x : list Z) (s t : nat) : Prop :=
  forall j, (j < length x)%nat ->
            at_ x (wrapAdd (length x) s j) = at_ x (wrapAdd (length x) t j).

(** The value [v] occurs at exactly one index, [z]. *)
Definition uniqueAt (x : list Z) (v : Z) (z : nat) : Prop :=
  (z < length x)%nat /\ at_ x z = v
  /\ forall i, (i < length x)%nat -> at_ x i = v -> i = z.

(** The comparator of the sort of [buildCyclicSuffixArray]. *)
Definition rotLeb (x : list Z) (left right : Z) : bool :=
  compareRotation x (len x) left right <=? 0.

(** The cyclic predecessor of an index. *)
Definition before (n s : nat) : nat := wrapAdd n s (n - 1)%nat.

(** An index of the array, as the sort sees it. *)
Definition inRangeZ (x : list Z) (a : Z) : Prop := 0 <= a < len x.

(** How many elements of [l] are below [c], and how many are [c]. *)
Definition lessCount (l : list Z) (c : Z) : nat := length (filter (fun v => v <? c) l).
Definition countOf (l : list Z) (c : Z) : nat := length (filter (fun v => v =? c) l).

(** The row that the loop of [next] pairs with row [i] of the last
    column [l]: the rows of smaller symbols, then the earlier rows of the
    same symbol. *)
Definition pairedRow (l : list Z) (i : nat) : nat :=
  (lessCount l (at_ l i) + countOf (firstn i l) (at_ l i))%nat.

(** [primaryIndex] after the loop of the forward transform over [ord]
    from row [i]. *)
Fixpoint primaryAfter (ord : list nat) (i p : Z) : Z :=
  match ord with
  | [] => p
  | s :: ord' => primaryAfter ord' (i + 1) (if Nat.eqb s 0 then i else p)
  end.

(** An array of [a] counters that counts the symbols of [done]. *)
Definition countsOf (a : nat) (cnt done : list Z) : Prop :=
  length cnt = a
  /\ forall c, (c < a)%nat -> nth c cnt 0 = Z.of_nat (countOf done (Z.of_nat c)).

(** The last column over a sorted order of the rotations. *)
Definition lastOf (x : list Z) (ord : list nat) : list Z :=
  map (fun s => at_ x (before (length x) s)) ord.

(** The decision of [rotLt] that the comparator gives. *)
Definition rotLtb (x : list Z) (s t : nat) : bool :=
  compareRotation x (len x) (Z.of_nat s) (Z.of_nat t) =? -1.

(** [next] as the inverse transform builds it from the last column. *)
Definition nextOf (x : list Z) (a : nat) (ord : list nat) : list Z :=
  nextLoop (lastOf x ord)
           (prefixStarts (fold_left aincr32 (lastOf x ord) (zeros (Z.of_nat a))) 0)
           0 (zeros (Z.of_nat a)) (zeros (len (lastOf x ord))).

(** The forward transform followed by the inverse transform. *)
Definition bwt_then_inverse (ids : list Z) (alphabetSize : Z) : list Z :=
  let b := burrowsWheelerTransform ids in
  inverseBurrowsWheelerTransform (lastColumn b) (bwt_primaryIndex b) alphabetSize.

(** [order] and [positions] are inverse arrangements of the [a] symbols:
    [positions[order[k]] = k] and [order[positions[v]] = v]. *)
Definition inverseArrays (a : nat) (order positions : list Z) : Prop :=
  length order = a /\ length positions = a
  /\ (forall k, (k < a)%nat ->
        exists v, (v < a)%nat /\ nth k order 0 = Z.of_nat v
                  /\ nth v positions 0 = Z.of_nat k)
  /\ (forall v, (v < a)%nat ->
        exists k, (k < a)%nat /\ nth v positions 0 = Z.of_nat k
                  /\ nth k order 0 = Z.of_nat v).

(* ====================================================================== *)
(** * Definitions of the further properties *)
(* ====================================================================== *)

(** The class of a token of the tokenizer: an alphanumeric word with
    joiners, a run of other characters, or a run of whitespace. *)
Definition tokenClass (token : jsstring) : bool :=
  forallb (fun c => isJoiner c || isAlnum c) token
  || forallb isOther token
  || forallb isSpace token.

(** The seven markers of the normalizer. *)
Definition isMarker (token : jsstring) : bool :=
  streq token TOKEN_CASE_UPPER || streq token TOKEN_CASE_TITLE
  || streq token TOKEN_WS_SPACE || streq token TOKEN_WS_NEWLINE
  || streq token TOKEN_WS_TAB || streq token TOKEN_NUM
  || streq token TOKEN_ESCAPE.

(** The symbols that [mtfToSymbols] pushes for [mtf] when [run] zeros are
    pending. *)
Fixpoint encodeRuns (mtf : list Z) (run : Z) : list Z :=
  match mtf with
  | [] => if 0 <? run then flushRun run [] else []
  | value :: rest =>
      if value =? 0 then encodeRuns rest (run + 1)
      else (if 0 <? run then flushRun run [] else []) ++ (value + 1) :: encodeRuns rest 0
  end.

(** The bytes that [encodeMtfRle] pushes for [mtf] when [zeroRun] zeros
    are pending. *)
Fixpoint rleBytes (mtf : list Z) (zeroRun : Z) : list Z :=
  match mtf with
  | [] => if 0 <? zeroRun then writeVarint [] (JS.shl zeroRun 1) else []
  | value :: rest =>
      if value =? 0 then rleBytes rest (zeroRun + 1)
      else (if 0 <? zeroRun then writeVarint [] (JS.shl zeroRun 1) else [])
             ++ writeVarint [] (JS.or (JS.shl value 1) 1) ++ rleBytes rest 0
  end.

(* ====================================================================== *)
(** * Basic facts about the operators and the arrays *)
(* ====================================================================== *)

Section ArrayFacts.

Lemma update_nth_length (n : nat) (v : Z) (arr : list Z) :
  length (update_nth n v arr) = length arr.
Proof.
  revert n; induction arr as [|x arr IH]; intros [|n]; simpl; auto.
Qed.

Lemma aset32_length (arr : list Z) (i v : Z) :
  length (aset32 arr i v) = length arr.
Proof.
  unfold aset32. destruct (i <? 0); auto using update_nth_length.
Qed.

Lemma zeros_length (n : Z) : length (zeros n) = Z.to_nat n.
Proof. apply repeat_length. Qed.

Lemma toUint32_small (x : Z) : 0 <= x < 4294967296 -> JS.toUint32 x = x.
Proof. intros H. unfold JS.toUint32. apply Z.mod_small; lia. Qed.

Lemma skipn_past {A : Type} (n : nat) (l : list A) :
  (length l <= n)%nat -> skipn n l = [].
Proof. intros H. apply skipn_all2; assumption. Qed.

End ArrayFacts.

(* ====================================================================== *)
(** * The truncated legacy stream *)
(* ====================================================================== *)

Section LegacyStream.

(** Past the end of the buffer [readVarint] reads the value 0 and moves
    on by one. *)
Lemma readVarint_past_end (bytes : list Z) (offset : Z) :
  len bytes <= offset -> readVarint bytes offset = (0, offset + 1).
Proof.
  intros H. unfold readVarint, subarrayFrom.
  rewrite skipn_past by (unfold len in H; lia).
  reflexivity.
Qed.

(** Once the stream is exhausted with values still owed, no amount of
    fuel lets the loop of [decodeMtfRle] return. *)
Lemma decodeMtfRleLoop_starves (fuel : nat) :
  forall (bytes : list Z) (tokenCount : Z) (mtf : list Z) (index offset : Z),
    index < tokenCount ->
    len bytes <= offset ->
    decodeMtfRleLoop fuel bytes tokenCount mtf index offset = OutOfFuel.
Proof.
  induction fuel as [|fuel IH]; intros bytes tokenCount mtf index offset Hi Ho.
  - simpl. destruct (Z.ltb_spec index tokenCount); [reflexivity | lia].
  - simpl. destruct (Z.ltb_spec index tokenCount) as [_|]; [|lia].
    rewrite readVarint_past_end by assumption.
    change (JS.and 0 1 =? 0) with true. cbv iota.
    change (JS.shr 0 1) with 0. simpl zeroFill.
    apply IH; lia.
Qed.

End LegacyStream.


(** C9 (the source diverges from the claim).  The claim: [deserializeWBWT]
    returns or throws in finitely many steps on every buffer, in particular
    on a v2 / v3 frame whose RLE stream ends before [tokenCount] values.
    The source: on the frame [truncated_v2_frame] the loop of
    [decodeMtfRle] reads 0 past the end of the buffer, writes nothing and
    repeats; whatever the fuel, the call has not returned. *)
Theorem C9_truncated_legacy_frame_never_returns :
  forall fuel : nat, deserializeWBWT fuel truncated_v2_frame = OutOfFuel.
Proof.
  intros fuel.
  assert (H : deserializeWBWT fuel truncated_v2_frame
              = (' (mtf, _) <- decodeMtfRleLoop fuel [] 1 [0] 0 0 ;;
                 Ok (mkPayload [] 0 mtf))) by reflexivity.
  rewrite H, decodeMtfRleLoop_starves; [reflexivity | lia | unfold len; simpl; lia].
Qed.

(* ====================================================================== *)
(** * The container on concrete inputs *)
(* ====================================================================== *)

(** C2 (the source diverges from the claim).  The claim: the payload read
    back from the serialized payload of a text has the same dictionary,
    primaryIndex and mtf.  The source: [new TextDecoder()] drops a leading
    U+FEFF of every entry it decodes.  The text U+FEFF (a character of
    class [\s]) is one token; its dictionary entry is written as EF BB BF
    and read back as the empty string. *)
Theorem C2_container_drops_leading_bom :
  let p := wbwtCompress [65279] in
  exists bytes q,
    serializeWBWT 64 p = Ok bytes
    /\ deserializeWBWT 64 bytes = Ok q
    /\ dictionary p = [[65279]]
    /\ dictionary q = [[]]
    /\ dictionary q <> dictionary p
    /\ primaryIndex q = primaryIndex p
    /\ mtf q = mtf p.
Proof.
  cbv zeta.
  exists [84; 87; 66; 87; 4; 0; 0; 0; 1; 2; 1; 2; 0; 3; 239; 187; 191; 224].
  exists (mkPayload [[]] 1 [1; 1]).
  repeat split; try (vm_compute; reflexivity).
  vm_compute. discriminate.
Qed.

(** On a text without such a character the container gives the payload
    back: the text "a b". *)
Example container_roundtrip_a_b :
  exists bytes,
    serializeWBWT 64 (wbwtCompress (js "a b")) = Ok bytes
    /\ deserializeWBWT 64 bytes = Ok (wbwtCompress (js "a b")).
Proof.
  exists [84; 87; 66; 87; 4; 0; 0; 0; 4; 5; 3; 5; 0; 2; 31; 115; 0; 1; 49;
          0; 1; 97; 0; 1; 98; 250; 216].
  split; vm_compute; reflexivity.
Qed.



(** C6, as stated, fails: the dictionary of "Hello HELLO hello\n" also has
    the space marker \x1Fs, which is not among the five listed entries. *)
Lemma C6_dictionary_has_space_marker :
  ~ ((forall x, In x (dictionary (wbwtCompress hello_text)) <-> In x C6_listed_entries)
     /\ wbwtDecompress (Some (wbwtCompress hello_text)) = Ok hello_text).
Proof.
  intros [H _].
  assert (Hin : In TOKEN_WS_SPACE (dictionary (wbwtCompress hello_text))).
  { vm_compute. tauto. }
  apply H in Hin. vm_compute in Hin.
  repeat destruct Hin as [Hin | Hin]; try discriminate Hin; exact Hin.
Qed.

(** C6 (amended).  [wbwtCompress] applied to "Hello HELLO hello\n" yields
    the dictionary \x1Fc, \x1Fn, \x1Fs, \x1Fu, "1", "hello": six entries,
    the space marker among them; the three case forms collapse onto the
    single entry "hello", each spelled by its marker. *)
Theorem C6_hello_dictionary :
  dictionary (wbwtCompress hello_text)
  = [TOKEN_CASE_TITLE; TOKEN_WS_NEWLINE; TOKEN_WS_SPACE; TOKEN_CASE_UPPER;
     js "1"; js "hello"]
  /\ tokenize hello_text
     = [js "Hello"; js " "; js "HELLO"; js " "; js "hello"; [10]]
  /\ normalizeToken (js "Hello") = [TOKEN_CASE_TITLE; js "hello"]
  /\ normalizeToken (js "HELLO") = [TOKEN_CASE_UPPER; js "hello"]
  /\ normalizeToken (js "hello") = [js "hello"]
  /\ normalizeToken (js " ") = [TOKEN_WS_SPACE; js "1"]
  /\ normalizeToken [10] = [TOKEN_WS_NEWLINE; js "1"].
Proof. repeat split; vm_compute; reflexivity. Qed.


Lemma serialize_empty (fuel : nat) :
  serializeWBWT fuel (wbwtCompress []) = Ok empty_frame.
Proof. reflexivity. Qed.

(** C7, as stated, fails: the frame of the empty text does not have 14
    bytes. *)
Lemma C7_empty_frame_is_not_14_bytes :
  ~ (exists fuel bytes,
        serializeWBWT fuel (wbwtCompress []) = Ok bytes /\ length bytes = 14%nat).
Proof.
  intros (fuel & bytes & H & L).
  rewrite serialize_empty in H. injection H as <-. discriminate L.
Qed.

(** C7 (amended).  [wbwtCompress("")] yields an empty dictionary and an
    mtf of length 0; [serializeWBWT] of that payload produces exactly 12
    bytes: 4 bytes of magic, 4 bytes of version 4 and four varint zeros
    (dictCount, tokenCount, primaryIndex, symbolCount); and
    [wbwtDecompress(deserializeWBWT(...))] of those bytes returns "". *)
Theorem C7_empty_text_frame :
  wbwtCompress [] = mkPayload [] 0 []
  /\ (forall fuel, serializeWBWT fuel (wbwtCompress []) = Ok empty_frame)
  /\ length empty_frame = 12%nat
  /\ empty_frame = pushUint32LE [] WBWT_MAGIC ++ pushUint32LE [] WBWT_VERSION ++ [0; 0; 0; 0]
  /\ (forall fuel, deserializeWBWT fuel empty_frame = Ok (mkPayload [] 0 []))
  /\ wbwtDecompress (Some (mkPayload [] 0 [])) = Ok [].
Proof. repeat split. Qed.

(* ====================================================================== *)
(** * The header checks of the container *)
(* ====================================================================== *)

Section Header.

Lemma toInt32_small (x : Z) : 0 <= x < 2147483648 -> JS.toInt32 x = x.
Proof.
  intros H. unfold JS.toInt32. rewrite Z.mod_small by lia.
  destruct (Z.ltb_spec x 2147483648); lia.
Qed.

Lemma or_small (a b : Z) :
  0 <= a -> 0 <= b -> a + b < 2147483648 -> 0 <= JS.or a b <= a + b.
Proof.
  intros Ha Hb Hab. unfold JS.or.
  rewrite !toInt32_small by lia.
  pose proof (Z.add_lor_land a b) as Hadd.
  assert (0 <= Z.land a b) by (apply Z.land_nonneg; lia).
  assert (0 <= Z.lor a b) by (apply Z.lor_nonneg; lia).
  lia.
Qed.

Lemma shl_byte (b s : Z) :
  0 <= b <= 255 -> 0 <= s <= 16 -> JS.shl b s = b * 2 ^ s.
Proof.
  intros Hb Hs. unfold JS.shl.
  rewrite (toInt32_small b) by lia.
  replace (JS.toUint32 s mod 32) with s.
  2:{ unfold JS.toUint32. rewrite (Z.mod_small s 4294967296) by lia.
      rewrite Z.mod_small by lia. reflexivity. }
  rewrite Z.shiftl_mul_pow2 by lia.
  assert (0 < 2 ^ s <= 2 ^ 16) by (split; [apply Z.pow_pos_nonneg; lia | apply Z.pow_le_mono_r; lia]).
  apply toInt32_small. change (2 ^ 16) with 65536 in *. nia.
Qed.

(** Three bytes and a missing fourth stay below 2^24. *)
Lemma u32le_three_bytes (b0 b1 b2 : Z) :
  0 <= b0 <= 255 -> 0 <= b1 <= 255 -> 0 <= b2 <= 255 ->
  JS.shr (JS.or (JS.or (JS.or b0 (JS.shl b1 8)) (JS.shl b2 16)) (JS.shl 0 24)) 0
  < 16777216.
Proof.
  intros H0 H1 H2.
  rewrite (shl_byte b1 8), (shl_byte b2 16) by lia.
  change (JS.shl 0 24) with 0. change (2 ^ 8) with 256. change (2 ^ 16) with 65536.
  pose proof (or_small b0 (b1 * 256) ltac:(lia) ltac:(lia) ltac:(lia)) as Ha.
  pose proof (or_small (JS.or b0 (b1 * 256)) (b2 * 65536)
                       ltac:(lia) ltac:(lia) ltac:(lia)) as Hb.
  pose proof (or_small (JS.or (JS.or b0 (b1 * 256)) (b2 * 65536)) 0
                       ltac:(lia) ltac:(lia) ltac:(lia)) as Hc.
  unfold JS.shr. change (JS.toUint32 0 mod 32) with 0. rewrite Z.shiftr_0_r.
  rewrite toUint32_small by lia. lia.
Qed.

Lemma isByte_range (b : Z) : isByte b = true -> 0 <= b <= 255.
Proof. unfold isByte, inRange. lia. Qed.

(** With fewer than four bytes the magic cannot match: a missing byte
    reads as 0 and no byte of the magic is 0. *)
Lemma readUint32LE_short (bytes : list Z) :
  forallb isByte bytes = true ->
  (length bytes < 4)%nat ->
  readUint32LE bytes 0 <> WBWT_MAGIC.
Proof.
  intros Hb Hl. unfold WBWT_MAGIC.
  destruct bytes as [|b0 [|b1 [|b2 [|b3 rest]]]]; simpl in Hl; try lia;
    simpl in Hb; repeat rewrite andb_true_iff in Hb.
  - vm_compute. discriminate.
  - destruct Hb as [Hb0 _]. apply isByte_range in Hb0.
    pose proof (u32le_three_bytes b0 0 0 Hb0 ltac:(lia) ltac:(lia)) as H.
    unfold readUint32LE, aget; simpl. lia.
  - destruct Hb as (Hb0 & Hb1 & _). apply isByte_range in Hb0, Hb1.
    pose proof (u32le_three_bytes b0 b1 0 Hb0 Hb1 ltac:(lia)) as H.
    unfold readUint32LE, aget; simpl. lia.
  - destruct Hb as (Hb0 & Hb1 & Hb2 & _). apply isByte_range in Hb0, Hb1, Hb2.
    pose proof (u32le_three_bytes b0 b1 b2 Hb0 Hb1 Hb2) as H.
    unfold readUint32LE, aget; simpl. lia.
Qed.

Lemma deserialize_wrong_magic (fuel : nat) (bytes : list Z) :
  readUint32LE bytes 0 <> WBWT_MAGIC ->
  deserializeWBWT fuel bytes = Throw "WBWT: invalid header".
Proof.
  intros H. unfold deserializeWBWT.
  destruct (Z.eqb_spec (readUint32LE bytes 0) WBWT_MAGIC); [contradiction | reflexivity].
Qed.

Lemma deserialize_wrong_version (fuel : nat) (bytes : list Z) :
  readUint32LE bytes 0 = WBWT_MAGIC ->
  versionSupported (readUint32LE bytes 4) = false ->
  deserializeWBWT fuel bytes = Throw "WBWT: unsupported version".
Proof.
  intros Hm Hv. unfold deserializeWBWT. rewrite Hm.
  change (negb (WBWT_MAGIC =? WBWT_MAGIC)) with false. cbv iota.
  unfold versionSupported in Hv.
  apply orb_false_iff in Hv as [Hv H4]. apply orb_false_iff in Hv as [H2 H3].
  rewrite H2, H3, H4. reflexivity.
Qed.

(** Versions 1 and 5 behind a sound magic, whatever follows. *)
Lemma deserialize_version_1_or_5 (fuel : nat) (v : Z) (rest : list Z) :
  v = 1 \/ v = 5 ->
  deserializeWBWT fuel ([84; 87; 66; 87; v; 0; 0; 0] ++ rest)
  = Throw "WBWT: unsupported version".
Proof.
  intros [-> | ->]; apply deserialize_wrong_version; reflexivity.
Qed.

End Header.

(** C8, as stated, fails.  A header cut inside the version field, a
    varint of ten continuation bytes and a frame cut in its body are all
    read without an error: a byte missing from the buffer reads as 0. *)
Lemma C8_truncation_and_long_varint_accepted :
  deserializeWBWT 0 truncated_header = Ok (mkPayload [] 0 [])
  /\ deserializeWBWT 0 overlong_varint_frame = Ok (mkPayload [[]] 0 [])
  /\ deserializeWBWT 64 truncated_body_frame = Ok (mkPayload [js "a"] 1 [0; 0]).
Proof. repeat split; vm_compute; reflexivity. Qed.

(** C8 (amended).  [deserializeWBWT] throws for every buffer of fewer than
    four bytes, for every buffer whose first four bytes are not the magic,
    and for every buffer whose version field is none of 2, 3, 4 (so for
    versions 1 and 5).  These are its only checks. *)
Theorem C8_bad_magic_or_version_is_rejected (fuel : nat) (bytes : list Z) :
  forallb isByte bytes = true ->
  (length bytes < 4)%nat
  \/ readUint32LE bytes 0 <> WBWT_MAGIC
  \/ versionSupported (readUint32LE bytes 4) = false ->
  deserializeWBWT fuel bytes
  = Throw (if readUint32LE bytes 0 =? WBWT_MAGIC
           then "WBWT: unsupported version" else "WBWT: invalid header").
Proof.
  intros Hb H.
  destruct (Z.eqb_spec (readUint32LE bytes 0) WBWT_MAGIC) as [Hm | Hm].
  - destruct H as [H | [H | H]].
    + elim (readUint32LE_short bytes Hb H Hm).
    + contradiction.
    + apply deserialize_wrong_version; assumption.
  - apply deserialize_wrong_magic; assumption.
Qed.

(** The theorem of C8 at a frame of version 5. *)
Lemma C8_version5_witness :
  forallb isByte version5_frame = true
  /\ versionSupported (readUint32LE version5_frame 4) = false
  /\ deserializeWBWT 0 version5_frame = Throw "WBWT: unsupported version".
Proof.
  split; [reflexivity | split; [reflexivity |]].
  apply (C8_bad_magic_or_version_is_rejected 0 version5_frame).
  - reflexivity.
  - right; right. reflexivity.
Defined.

(* ====================================================================== *)
(** * RUNA / RUNB decoding into a bounded array *)
(* ====================================================================== *)

Section SymbolsToMtf.

Lemma nth_update_nth (k : nat) (v : Z) (arr : list Z) (i : nat) :
  nth i (update_nth k v arr) 0
  = if Nat.eqb i k then (if Nat.ltb k (length arr) then v else 0) else nth i arr 0.
Proof.
  revert k i. induction arr as [|x arr IH]; intros k i.
  - simpl. destruct (Nat.eqb i k); destruct i; reflexivity.
  - destruct k as [|k], i as [|i]; simpl; try reflexivity.
    rewrite IH. destruct (Nat.eqb i k); [|reflexivity].
    change (Nat.ltb (S k) (S (length arr))) with (Nat.ltb k (length arr)).
    reflexivity.
Qed.

(** [N] is the length of the array, [tokenCount]. *)
Variable N : nat.

Lemma holds_init : holds N (zeros (Z.of_nat N)) 0 [].
Proof.
  unfold holds, zeros, len. rewrite Nat2Z.id, repeat_length. simpl.
  split; [reflexivity|]. split; [lia|].
  intros i Hi. rewrite nth_repeat. destruct i; reflexivity.
Qed.

Lemma holds_write (mtf : list Z) (idx : Z) (out : list Z) (v : Z) :
  holds N mtf idx out -> idx < Z.of_nat N ->
  holds N (aset32 mtf idx v) (idx + 1) (out ++ [JS.toUint32 v]).
Proof.
  intros (Hl & Hi & Hn) Hlt. unfold len in Hi.
  assert (Hidx : idx = Z.of_nat (length out)) by lia.
  unfold holds, len. rewrite aset32_length, length_app. simpl length.
  split; [assumption|]. split; [lia|].
  intros i HiN. unfold aset32.
  destruct (Z.ltb_spec idx 0) as [|_]; [lia|].
  rewrite nth_update_nth, Hidx, Nat2Z.id.
  destruct (Nat.eqb_spec i (length out)) as [-> | Hne].
  - destruct (Nat.ltb_spec (length out) (length mtf)) as [_|]; [|lia].
    rewrite app_nth2, Nat.sub_diag by lia. reflexivity.
  - rewrite Hn by assumption.
    destruct (Nat.lt_ge_cases i (length out)).
    + rewrite app_nth1 by assumption. reflexivity.
    + rewrite !nth_overflow; [reflexivity | | lia].
      rewrite length_app. simpl. lia.
Qed.

(** Once the array is full, further values change nothing. *)
Lemma holds_full (mtf : list Z) (idx : Z) (out extra : list Z) :
  holds N mtf idx out -> Z.of_nat N <= idx -> holds N mtf idx (out ++ extra).
Proof.
  intros (Hl & Hi & Hn) Hge. unfold len in Hi.
  unfold holds, len. rewrite length_app.
  split; [assumption|]. split; [lia|].
  intros i HiN. rewrite Hn by assumption. rewrite app_nth1 by lia. reflexivity.
Qed.

Lemma zeroFill_holds (k : nat) :
  forall (mtf : list Z) (idx run : Z) (out : list Z),
    holds N mtf idx out ->
    exists mtf' idx' j,
      zeroFill k (Z.of_nat N) mtf idx run = (mtf', idx', run - Z.of_nat j)
      /\ holds N mtf' idx' (out ++ repeat 0 j)
      /\ Z.of_nat j <= Z.max 0 run
      /\ (j <= k)%nat
      /\ ((j < k)%nat -> run - Z.of_nat j <= 0 \/ Z.of_nat N <= idx').
Proof.
  induction k as [|k IH]; intros mtf idx run out H.
  - exists mtf, idx, O. simpl. rewrite app_nil_r, Z.sub_0_r.
    split; [reflexivity|]. split; [assumption|]. lia.
  - simpl.
    destruct (Z.ltb_spec 0 run) as [Hrun | Hrun];
      [destruct (Z.ltb_spec idx (Z.of_nat N)) as [Hidx | Hidx] |]; simpl.
    + destruct (IH (aset32 mtf idx 0) (idx + 1) (run - 1) (out ++ [0]))
        as (mtf' & idx' & j & Hz & Hh & Hj & Hk & Hexit).
      { apply (holds_write mtf idx out 0); assumption. }
      exists mtf', idx', (S j). rewrite Hz.
      split; [f_equal; lia|].
      split; [rewrite <- app_assoc in Hh; exact Hh|].
      split; [lia|]. split; [lia|].
      intros Hlt. destruct Hexit as [He | He]; [lia | left; lia | right; exact He].
    + exists mtf, idx, O. rewrite app_nil_r, Z.sub_0_r.
      split; [reflexivity|]. split; [assumption|].
      split; [lia|]. split; [lia|]. intros _; right; lia.
    + exists mtf, idx, O. rewrite app_nil_r, Z.sub_0_r.
      split; [reflexivity|]. split; [assumption|].
      split; [lia|]. split; [lia|]. intros _; left; lia.
Qed.

(** The flush loop leaves the array as if the whole run had been
    appended. *)
Lemma writeZeros_holds (st : RunState) (out : list Z) :
  holds N (rs_mtf st) (rs_mtfIndex st) out ->
  holds N (rs_mtf (writeZeros (Z.of_nat N) st))
        (rs_mtfIndex (writeZeros (Z.of_nat N) st))
        (out ++ repeat 0 (Z.to_nat (rs_run st)))
  /\ rs_base (writeZeros (Z.of_nat N) st) = rs_base st.
Proof.
  intros H. unfold writeZeros.
  destruct (zeroFill_holds (Z.to_nat (Z.of_nat N - rs_mtfIndex st))
                           (rs_mtf st) (rs_mtfIndex st) (rs_run st) out H)
    as (mtf' & idx' & j & Hz & Hh & Hj & Hk & Hexit).
  rewrite Hz. simpl. split; [|reflexivity].
  assert (Hsplit : repeat 0 (Z.to_nat (rs_run st))
                   = repeat 0 j ++ repeat 0 (Z.to_nat (rs_run st) - j)).
  { rewrite <- repeat_app. f_equal. lia. }
  assert (Hcase : j = Z.to_nat (rs_run st) \/ Z.of_nat N <= idx').
  { destruct (Nat.lt_ge_cases j (Z.to_nat (Z.of_nat N - rs_mtfIndex st))) as [Hlt | Hge].
    - destruct (Hexit Hlt) as [He | He]; [left; lia | right; exact He].
    - right. destruct H as (_ & Hi & _). destruct Hh as (_ & Hi' & _).
      unfold len in Hi, Hi'. rewrite length_app, repeat_length in Hi'. lia. }
  destruct Hcase as [-> | Hfull].
  - exact Hh.
  - rewrite Hsplit, app_assoc. apply holds_full; assumption.
Qed.

(** A literal goes to the array, or nowhere once the array is full. *)
Lemma literal_holds (mtf : list Z) (idx : Z) (out : list Z) (v : Z) :
  holds N mtf idx out ->
  holds N (if idx <? Z.of_nat N then aset32 mtf idx v else mtf)
        (if idx <? Z.of_nat N then idx + 1 else idx)
        (out ++ [JS.toUint32 v]).
Proof.
  intros H. destruct (Z.ltb_spec idx (Z.of_nat N)).
  - apply holds_write; assumption.
  - apply holds_full; assumption.
Qed.

(** One symbol: the array follows the values of the stream. *)
Lemma symbolsToMtfStep_holds (st : RunState) (out : list Z) (symbol : Z) (rest : list Z) :
  holds N (rs_mtf st) (rs_mtfIndex st) out ->
  exists out',
    holds N (rs_mtf (symbolsToMtfStep (Z.of_nat N) st symbol))
          (rs_mtfIndex (symbolsToMtfStep (Z.of_nat N) st symbol)) out'
    /\ out ++ symbolValues (symbol :: rest) (rs_run st) (rs_base st)
       = out' ++ symbolValues rest
                   (rs_run (symbolsToMtfStep (Z.of_nat N) st symbol))
                   (rs_base (symbolsToMtfStep (Z.of_nat N) st symbol)).
Proof.
  intros H. unfold symbolsToMtfStep. simpl symbolValues.
  destruct (symbol <=? 1).
  - exists out. split; [exact H | reflexivity].
  - destruct (0 <? rs_run st).
    + destruct (writeZeros_holds st out H) as [Hw _].
      pose proof (literal_holds _ _ _ (symbol - 1) Hw) as Hl.
      exists ((out ++ repeat 0 (Z.to_nat (rs_run st))) ++ [JS.toUint32 (symbol - 1)]).
      cbn [rs_mtfIndex rs_mtf rs_run rs_base].
      destruct (rs_mtfIndex (writeZeros (Z.of_nat N) st) <? Z.of_nat N);
        cbn [rs_mtfIndex rs_mtf rs_run rs_base];
        (split; [exact Hl | rewrite <- !app_assoc; reflexivity]).
    + pose proof (literal_holds _ _ _ (symbol - 1) H) as Hl.
      exists (out ++ [JS.toUint32 (symbol - 1)]).
      destruct (rs_mtfIndex st <? Z.of_nat N);
        cbn [rs_mtfIndex rs_mtf rs_run rs_base];
        (split; [exact Hl | rewrite <- !app_assoc; reflexivity]).
Qed.

Lemma symbolsToMtf_fold (symbols : list Z) :
  forall (st : RunState) (out : list Z),
    holds N (rs_mtf st) (rs_mtfIndex st) out ->
    holds N (rs_mtf (writeZeros (Z.of_nat N)
                     (fold_left (symbolsToMtfStep (Z.of_nat N)) symbols st)))
          (rs_mtfIndex (writeZeros (Z.of_nat N)
                          (fold_left (symbolsToMtfStep (Z.of_nat N)) symbols st)))
          (out ++ symbolValues symbols (rs_run st) (rs_base st)).
Proof.
  induction symbols as [|symbol rest IH]; intros st out H.
  - simpl. apply writeZeros_holds. assumption.
  - destruct (symbolsToMtfStep_holds st out symbol rest H) as (out' & Hs & ->).
    simpl fold_left. apply IH. exact Hs.
Qed.

Lemma holds_firstn (mtf : list Z) (idx : Z) (out : list Z) :
  holds N mtf idx out -> mtf = firstn N (out ++ repeat 0 N).
Proof.
  intros (Hl & _ & Hn).
  apply (nth_ext _ _ 0 0).
  - rewrite length_firstn, length_app, repeat_length. lia.
  - intros i Hi. rewrite Hl in Hi. rewrite Hn by assumption.
    rewrite nth_firstn. destruct (Nat.ltb_spec i N) as [_|]; [|lia].
    destruct (Nat.lt_ge_cases i (length out)).
    + rewrite app_nth1 by assumption. reflexivity.
    + rewrite app_nth2 by assumption. rewrite nth_repeat.
      rewrite nth_overflow by assumption. reflexivity.
Qed.

End SymbolsToMtf.

(** On an array of zeros the loops of [symbolsToMtf] leave the first
    [tokenCount] of the values the symbols stand for. *)
Lemma symbolsToMtf_loops (symbols : list Z) (tokenCount : Z) :
  0 <= tokenCount ->
  let st := fold_left (symbolsToMtfStep tokenCount) symbols
                      (mkRun (zeros tokenCount) 0 0 1) in
  length (rs_mtf (writeZeros tokenCount st)) = Z.to_nat tokenCount
  /\ rs_mtf (writeZeros tokenCount st)
     = firstn (Z.to_nat tokenCount)
              (symbolValues symbols 0 1 ++ repeat 0 (Z.to_nat tokenCount)).
Proof.
  intros Hn. cbv zeta.
  pose proof (symbolsToMtf_fold (Z.to_nat tokenCount) symbols
                (mkRun (zeros tokenCount) 0 0 1) []) as H.
  rewrite Z2Nat.id in H by assumption.
  assert (Hinit : holds (Z.to_nat tokenCount) (zeros tokenCount) 0 []).
  { pose proof (holds_init (Z.to_nat tokenCount)) as Hi.
    rewrite Z2Nat.id in Hi by assumption. exact Hi. }
  specialize (H Hinit). simpl app in H.
  split.
  - destruct H as (Hl & _). exact Hl.
  - apply holds_firstn in H. exact H.
Qed.

(** [symbolsToMtf] returns when its array is allocated. *)
Lemma symbolsToMtf_returns (symbols : list Z) (tokenCount : Z) :
  0 <= tokenCount <= MAX_ARRAY_LENGTH ->
  symbolsToMtf symbols tokenCount
  = Ok (firstn (Z.to_nat tokenCount)
               (symbolValues symbols 0 1 ++ repeat 0 (Z.to_nat tokenCount))).
Proof.
  intros Hn. unfold symbolsToMtf, newTypedArray.
  destruct (Z.ltb_spec tokenCount 0) as [|_]; [lia|].
  destruct (Z.leb_spec tokenCount MAX_ARRAY_LENGTH) as [_|]; [|lia].
  cbn [bind]. f_equal. apply symbolsToMtf_loops. lia.
Qed.

Section DigitGroups.



End DigitGroups.


(** A group of 32 digits: the weight of the last digit is -2^31 on 32
    bits, the run comes out as -1 and no zero is written; the format
    reads the group as 2^32 - 1 zeros. *)
Lemma long_group_writes_no_zero :
  symbolsToMtf long_group_symbols 4 = Ok [4; 2; 0; 0]
  /\ groupsWithin 31 long_group_symbols 0 = false.
Proof. split; vm_compute; reflexivity. Qed.



(* ====================================================================== *)
(** * The tokenizer *)
(* ====================================================================== *)

Section Tokenizer.

Lemma span_app (p : Z -> bool) (s : jsstring) :
  fst (span p s) ++ snd (span p s) = s.
Proof.
  induction s as [|c s IH]; simpl; [reflexivity|].
  destruct (p c); [|reflexivity].
  destruct (span p s) as [a b]. simpl in *. f_equal. exact IH.
Qed.

Lemma span_all (p : Z -> bool) (s : jsstring) :
  forallb p (fst (span p s)) = true.
Proof.
  induction s as [|c s IH]; simpl; [reflexivity|].
  destruct (p c) eqn:Hc; [|reflexivity].
  destruct (span p s) as [a b]. simpl in *. rewrite Hc. exact IH.
Qed.

Lemma span_stop (p : Z -> bool) (s : jsstring) :
  startsOutside p (snd (span p s)).
Proof.
  induction s as [|c s IH]; simpl; [exact I|].
  destruct (p c) eqn:Hc; [|exact Hc].
  destruct (span p s) as [a b]. exact IH.
Qed.

Lemma matchRun_spec (p : Z -> bool) (s tok rest : jsstring) :
  matchRun p s = Some (tok, rest) ->
  s = tok ++ rest /\ tok <> [] /\ forallb p tok = true /\ startsOutside p rest.
Proof.
  unfold matchRun. intros H.
  pose proof (span_app p s) as Ha. pose proof (span_all p s) as Hb.
  pose proof (span_stop p s) as Hc.
  destruct (span p s) as [w r]. simpl in *.
  destruct w as [|c w]; [discriminate|].
  injection H as <- <-. repeat split; try assumption; [symmetry; assumption | discriminate].
Qed.

Lemma matchRun_none (p : Z -> bool) (c : Z) (s : jsstring) :
  matchRun p (c :: s) = None -> p c = false.
Proof.
  unfold matchRun. simpl. destruct (p c); [|reflexivity].
  destruct (span p s). discriminate.
Qed.

Lemma joinedTail_app (p : Z -> bool) (fuel : nat) :
  forall s, fst (joinedTail p fuel s) ++ snd (joinedTail p fuel s) = s.
Proof.
  induction fuel as [|fuel IH]; intros s; simpl; [reflexivity|].
  destruct s as [|c s]; [reflexivity|].
  destruct (isJoiner c); [|reflexivity].
  pose proof (span_app p s) as Ha.
  destruct (span p s) as [w r]. simpl in Ha.
  destruct w as [|x w]; [reflexivity|].
  specialize (IH r). destruct (joinedTail p fuel r) as [t r']. simpl in *.
  rewrite <- Ha. f_equal. f_equal. rewrite <- app_assoc, IH. reflexivity.
Qed.

Lemma joinedTail_chars (p : Z -> bool) (fuel : nat) :
  forall s, forallb (fun c => isJoiner c || p c) (fst (joinedTail p fuel s)) = true.
Proof.
  induction fuel as [|fuel IH]; intros s; simpl; [reflexivity|].
  destruct s as [|c s]; [reflexivity|].
  destruct (isJoiner c) eqn:Hj; [|reflexivity].
  pose proof (span_all p s) as Ha.
  destruct (span p s) as [w r]. simpl in Ha.
  destruct w as [|x w]; [reflexivity|].
  specialize (IH r). destruct (joinedTail p fuel r) as [t r'].
  cbn [fst] in *. cbn [forallb]. rewrite Hj. cbn [orb andb].
  rewrite forallb_app. apply andb_true_intro. split; [|exact IH].
  rewrite forallb_forall in Ha |- *. intros y Hy.
  rewrite (Ha y Hy). apply orb_true_r.
Qed.

Lemma matchJoined_spec (p : Z -> bool) (s tok rest : jsstring) :
  matchJoined p s = Some (tok, rest) ->
  s = tok ++ rest /\ tok <> []
  /\ forallb (fun c => isJoiner c || p c) tok = true.
Proof.
  unfold matchJoined. intros H.
  pose proof (span_app p s) as Ha. pose proof (span_all p s) as Hb.
  destruct (span p s) as [w r]. simpl in Ha, Hb.
  destruct w as [|c w]; [discriminate|].
  pose proof (joinedTail_app p (length r) r) as Ht.
  pose proof (joinedTail_chars p (length r) r) as Hc.
  destruct (joinedTail p (length r) r) as [t r']. simpl in Ht, Hc.
  injection H as <- <-.
  split; [|split].
  - rewrite <- Ha, <- Ht. simpl. f_equal. apply app_assoc.
  - discriminate.
  - change (c :: w ++ t) with ((c :: w) ++ t).
    rewrite forallb_app. apply andb_true_intro. split; [|exact Hc].
    rewrite forallb_forall in Hb |- *. intros y Hy.
    rewrite (Hb y Hy). apply orb_true_r.
Qed.

Lemma matchJoined_none (p : Z -> bool) (c : Z) (s : jsstring) :
  matchJoined p (c :: s) = None -> p c = false.
Proof.
  unfold matchJoined. simpl. destruct (p c); [|reflexivity].
  destruct (span p s) as [a b]. destruct (joinedTail p (length b) b). discriminate.
Qed.

Lemma alnum_or_joiner_not_space (c : Z) :
  isJoiner c || isAlnum c = true -> isSpace c = false.
Proof.
  unfold isJoiner, isAlnum, isLetter, isUpper, isLower, isDigit, isSpace, inRange.
  lia.
Qed.

Lemma other_not_space (c : Z) : isOther c = true -> isSpace c = false.
Proof. unfold isOther. destruct (isSpace c); simpl; [discriminate | reflexivity]. Qed.

Lemma no_space_in (q : Z -> bool) (tok : jsstring) :
  (forall c, q c = true -> isSpace c = false) ->
  forallb q tok = true -> existsb isSpace tok = false.
Proof.
  intros Hq. induction tok as [|c tok IH]; simpl; [reflexivity|].
  intros H. apply andb_prop in H as [Hc Ht].
  rewrite (Hq c Hc), (IH Ht). reflexivity.
Qed.

(** A match of TOKEN_PATTERN: a non-empty prefix, without whitespace or
    made of the whole whitespace run that starts here. *)
Lemma TOKEN_PATTERN_spec (s tok rest : jsstring) :
  TOKEN_PATTERN s = Some (tok, rest) ->
  s = tok ++ rest /\ tok <> []
  /\ (existsb isSpace tok = false
      \/ (forallb isSpace tok = true /\ startsOutside isSpace rest)).
Proof.
  unfold TOKEN_PATTERN. intros H.
  destruct (matchJoined isAlnum s) as [[t r]|] eqn:Hw.
  - injection H as <- <-.
    destruct (matchJoined_spec _ _ _ _ Hw) as (Ha & Hb & Hc).
    repeat split; try assumption. left.
    apply (no_space_in _ _ alnum_or_joiner_not_space Hc).
  - destruct (matchRun isOther s) as [[t r]|] eqn:Ho.
    + injection H as <- <-.
      destruct (matchRun_spec _ _ _ _ Ho) as (Ha & Hb & Hc & _).
      repeat split; try assumption. left.
      apply (no_space_in _ _ other_not_space Hc).
    + destruct (matchRun_spec _ _ _ _ H) as (Ha & Hb & Hc & Hd).
      repeat split; try assumption. right. split; assumption.
Qed.

(** Every code unit starts a match: the three classes cover them all. *)
Lemma TOKEN_PATTERN_total (c : Z) (s : jsstring) :
  TOKEN_PATTERN (c :: s) <> None.
Proof.
  unfold TOKEN_PATTERN. intros H.
  destruct (matchJoined isAlnum (c :: s)) eqn:Hw; [discriminate|].
  destruct (matchRun isOther (c :: s)) eqn:Ho; [discriminate|].
  apply matchJoined_none in Hw. apply matchRun_none in Ho. apply matchRun_none in H.
  unfold isOther in Ho. rewrite Hw, H in Ho. discriminate.
Qed.

Lemma tokenShape_of (tok : jsstring) :
  tok <> [] ->
  existsb isSpace tok = false \/ forallb isSpace tok = true ->
  tokenShape tok = true.
Proof.
  intros Hne H. destruct tok as [|c tok]; [contradiction|].
  unfold tokenShape. destruct H as [-> | ->]; [reflexivity | apply orb_true_r].
Qed.

Lemma whitespace_token_head (tok : jsstring) :
  isWhitespaceToken tok = true ->
  exists c tok', tok = c :: tok' /\ isSpace c = true.
Proof.
  destruct tok as [|c tok]; [discriminate|].
  unfold isWhitespaceToken, allOf. simpl. intros H.
  apply andb_prop in H as [Hc _]. exists c, tok. split; [reflexivity | exact Hc].
Qed.

(** The scan: the tokens concatenate to the text, have the shape above,
    no two whitespace tokens are neighbours, and a first whitespace
    token means that the text starts with whitespace. *)
Lemma matchAll_spec (fuel : nat) :
  forall s,
    (length s <= fuel)%nat ->
    concat (matchAll TOKEN_PATTERN fuel s) = s
    /\ forallb tokenShape (matchAll TOKEN_PATTERN fuel s) = true
    /\ noAdjacentWhitespace (matchAll TOKEN_PATTERN fuel s) = true.
Proof.
  induction fuel as [|fuel IH]; intros s Hlen.
  - destruct s; [|simpl in Hlen; lia]. repeat split.
  - destruct s as [|c s]; [repeat split|].
    cbn [matchAll].
    destruct (TOKEN_PATTERN (c :: s)) as [[tok rest]|] eqn:Hm;
      [|elim (TOKEN_PATTERN_total c s Hm)].
    destruct (TOKEN_PATTERN_spec _ _ _ Hm) as (Happ & Hne & Hshape).
    assert (Hrest : (length rest <= fuel)%nat).
    { apply (f_equal (@length Z)) in Happ. rewrite length_app in Happ.
      simpl in Happ, Hlen. destruct tok; [contradiction|]. simpl in Happ. lia. }
    destruct (IH rest Hrest) as (Hc & Hs & Ha).
    split; [|split].
    + cbn [concat]. rewrite Hc. symmetry. exact Happ.
    + cbn [forallb]. rewrite Hs, andb_true_r.
      apply tokenShape_of; [exact Hne|].
      destruct Hshape as [H | [H _]]; [left | right]; exact H.
    + destruct (matchAll TOKEN_PATTERN fuel rest) as [|b toks] eqn:Hall; [reflexivity|].
      change (noAdjacentWhitespace (tok :: b :: toks))
        with (negb (isWhitespaceToken tok && isWhitespaceToken b)
              && noAdjacentWhitespace (b :: toks)).
      rewrite Ha, andb_true_r.
      destruct (isWhitespaceToken tok) eqn:Hwa; [|reflexivity].
      destruct (isWhitespaceToken b) eqn:Hwb; [|reflexivity].
      exfalso.
      (* [tok] is whitespace, so [rest] starts outside whitespace; but
         [b], a prefix of [rest], starts with whitespace. *)
      destruct Hshape as [Hno | [_ Hout]].
      * destruct (whitespace_token_head tok Hwa) as (x & tok' & -> & Hx).
        simpl in Hno. rewrite Hx in Hno. discriminate.
      * destruct (whitespace_token_head b Hwb) as (x & b' & -> & Hx).
        cbn [concat] in Hc. rewrite <- Hc in Hout. simpl in Hout.
        rewrite Hx in Hout. discriminate.
Qed.

(** A mixed whitespace token gets no marker: the normalizer passes it on
    as it is. *)
Lemma normalizeToken_mixed_whitespace (tok : jsstring) :
  isWhitespaceToken tok = true ->
  singleWhitespaceClass tok = false ->
  normalizeToken tok = [tok].
Proof.
  intros Hw Hs.
  destruct (whitespace_token_head tok Hw) as (c & tok' & -> & Hc).
  unfold singleWhitespaceClass in Hs.
  apply orb_false_iff in Hs as [Hs Ht]. apply orb_false_iff in Hs as [Hs Hn].
  unfold normalizeToken. rewrite Hs, Hn, Ht.
  assert (Hc31 : startsWith (c :: tok') CONTROL_PREFIX = false).
  { simpl. unfold CONTROL_PREFIX. unfold isSpace, inRange in Hc. lia. }
  assert (Hnum : NUMBER_PATTERN (c :: tok') = false).
  { unfold NUMBER_PATTERN, allOf. simpl.
    replace (isDigit c) with false; [reflexivity|].
    unfold isDigit, isSpace, inRange in *. lia. }
  assert (Hword : WORD_PATTERN (c :: tok') = false).
  { unfold WORD_PATTERN, matchJoined. simpl.
    replace (isLetter c) with false; [reflexivity|].
    unfold isLetter, isUpper, isLower, isSpace, inRange in *. lia. }
  rewrite Hc31, Hnum, Hword. reflexivity.
Qed.

End Tokenizer.

(** C5, as stated, fails: the text " \n" is ONE token, a whitespace token
    that mixes a space and a newline; the run is not split by class. *)
Lemma C5_mixed_run_is_one_token :
  tokenize [32; 10] = [[32; 10]]
  /\ isWhitespaceToken [32; 10] = true
  /\ singleWhitespaceClass [32; 10] = false.
Proof. repeat split. Qed.

(** C5 (amended).  For every input text the tokens of [tokenize]
    concatenate to the text; a token that contains a whitespace character
    consists of whitespace only; and no two whitespace tokens are
    neighbours: a whitespace token is a whole maximal run of characters of
    class [\s], whatever mix of spaces, newlines, tabs and other whitespace
    it holds, and is never split by class. *)
Theorem C5_whitespace_token_is_a_whole_run (text : jsstring) :
  concat (tokenize text) = text
  /\ forallb tokenShape (tokenize text) = true
  /\ noAdjacentWhitespace (tokenize text) = true.
Proof.
  unfold tokenize. destruct text as [|c text]; [repeat split|].
  apply matchAll_spec. lia.
Qed.

(* ====================================================================== *)
(** * The order of strings *)
(* ====================================================================== *)

Section StringOrder.

Lemma streq_true_iff (a b : jsstring) : streq a b = true <-> a = b.
Proof.
  revert b. induction a as [|x a IH]; intros [|y b]; simpl; split;
    try discriminate; try reflexivity.
  - intros H. apply andb_prop in H as [Hx Hab].
    apply Z.eqb_eq in Hx. apply IH in Hab. congruence.
  - intros H. injection H as -> ->. rewrite Z.eqb_refl. apply IH. reflexivity.
Qed.

Lemma streq_refl (a : jsstring) : streq a a = true.
Proof. apply streq_true_iff. reflexivity. Qed.

Lemma streq_false_iff (a b : jsstring) : streq a b = false <-> a <> b.
Proof.
  destruct (streq a b) eqn:H; split; intros H'; try discriminate; try reflexivity.
  - apply streq_true_iff in H. contradiction.
  - intros ->. rewrite streq_refl in H. discriminate.
Qed.

Lemma strcmp_eq (a b : jsstring) : strcmp a b = Eq -> a = b.
Proof.
  revert b. induction a as [|x a IH]; intros [|y b]; simpl; try discriminate;
    [reflexivity|].
  destruct (Z.compare_spec x y) as [Hxy | Hxy | Hxy]; try discriminate.
  intros Hc. subst. f_equal. apply IH. exact Hc.
Qed.

Lemma strcmp_refl (a : jsstring) : strcmp a a = Eq.
Proof. induction a as [|x a IH]; simpl; [reflexivity|]. rewrite Z.compare_refl. exact IH. Qed.

Lemma strcmp_antisym (a b : jsstring) : strcmp b a = CompOpp (strcmp a b).
Proof.
  revert b. induction a as [|x a IH]; intros [|y b]; simpl; try reflexivity.
  rewrite (Z.compare_antisym x y).
  destruct (x ?= y); simpl; [apply IH | reflexivity | reflexivity].
Qed.

Lemma strlt_trans (a b c : jsstring) : strlt a b -> strlt b c -> strlt a c.
Proof.
  unfold strlt. revert b c.
  induction a as [|x a IH]; intros [|y b] [|z c]; simpl; try discriminate;
    try reflexivity.
  destruct (Z.compare_spec x y) as [-> | Hxy | Hxy]; try discriminate.
  - destruct (Z.compare_spec y z) as [-> | Hyz | Hyz]; try discriminate.
    + apply IH.
    + reflexivity.
  - intros _. destruct (Z.compare_spec y z) as [-> | Hyz | Hyz]; try discriminate.
    + intros _. destruct (Z.compare_spec x z); [lia | reflexivity | lia].
    + intros _. destruct (Z.compare_spec x z); [lia | reflexivity | lia].
Qed.

Lemma strlt_irrefl (a : jsstring) : ~ strlt a a.
Proof. unfold strlt. rewrite strcmp_refl. discriminate. Qed.

Lemma strleb_total (a b : jsstring) : strleb a b = true \/ strleb b a = true.
Proof.
  unfold strleb. rewrite (strcmp_antisym a b).
  destruct (strcmp a b); simpl; auto.
Qed.

Lemma strleb_cases (a b : jsstring) : strleb a b = true -> a = b \/ strlt a b.
Proof.
  unfold strleb, strlt. destruct (strcmp a b) eqn:H; try discriminate; intros _.
  - left. apply strcmp_eq. exact H.
  - right. reflexivity.
Qed.

Lemma strleb_trans (a b c : jsstring) :
  strleb a b = true -> strleb b c = true -> strleb a c = true.
Proof.
  intros Hab Hbc.
  destruct (strleb_cases a b Hab) as [-> | Hlt]; [exact Hbc|].
  destruct (strleb_cases b c Hbc) as [<- | Hlt']; [exact Hab|].
  pose proof (strlt_trans a b c Hlt Hlt') as H.
  unfold strleb. unfold strlt in H. rewrite H. reflexivity.
Qed.

End StringOrder.

(* ====================================================================== *)
(** * The sort *)
(* ====================================================================== *)

Section SortFacts.
(** The order is total and transitive on the elements that satisfy [P]. *)
Context {A : Type} (le : A -> A -> bool) (P : A -> Prop).
Hypothesis le_total : forall a b, P a -> P b -> le a b = true \/ le b a = true.
Hypothesis le_trans :
  forall a b c, P a -> P b -> P c -> le a b = true -> le b c = true -> le a c = true.

Lemma insertBy_perm (x : A) (l : list A) : Permutation (insertBy le x l) (x :: l).
Proof.
  induction l as [|y l IH]; simpl; [reflexivity|].
  destruct (le x y); [reflexivity|].
  rewrite IH. apply perm_swap.
Qed.

Lemma insertBy_sorted_on (x : A) (l : list A) :
  P x -> Forall P l ->
  StronglySorted (fun a b => le a b = true) l ->
  StronglySorted (fun a b => le a b = true) (insertBy le x l).
Proof.
  intros Hx. induction l as [|y l IH]; intros HP Hs; simpl.
  - constructor; constructor.
  - inversion Hs as [|? ? Hl Hy]; subst. inversion HP as [|? ? Py Pl]; subst.
    destruct (le x y) eqn:Hxy.
    + constructor; [exact Hs|].
      constructor; [exact Hxy|].
      rewrite Forall_forall in Hy, Pl |- *. intros z Hz.
      apply (le_trans x y z Hx Py (Pl z Hz) Hxy (Hy z Hz)).
    + constructor; [apply IH; assumption|].
      assert (Hyx : le y x = true) by (destruct (le_total x y Hx Py); congruence).
      rewrite Forall_forall in Hy |- *. intros z Hz.
      apply (Permutation_in _ (insertBy_perm x l)) in Hz.
      destruct Hz as [<- | Hz]; [exact Hyx | apply Hy; exact Hz].
Qed.

Lemma sortBy_perm (l : list A) : Permutation (sortBy le l) l.
Proof.
  induction l as [|x l IH]; simpl; [reflexivity|].
  rewrite insertBy_perm. apply perm_skip. exact IH.
Qed.

Lemma sortBy_sorted_on (l : list A) :
  Forall P l -> StronglySorted (fun a b => le a b = true) (sortBy le l).
Proof.
  induction l as [|x l IH]; intros HP; simpl; [constructor|].
  inversion HP as [|? ? Px Pl]; subst.
  apply insertBy_sorted_on; [exact Px | | apply IH; exact Pl].
  rewrite Forall_forall in Pl |- *. intros y Hy.
  apply Pl. apply (Permutation_in _ (sortBy_perm l)). exact Hy.
Qed.

End SortFacts.

Section SortTotal.

Context {A : Type} (le : A -> A -> bool).
Hypothesis le_total : forall a b, le a b = true \/ le b a = true.
Hypothesis le_trans : forall a b c, le a b = true -> le b c = true -> le a c = true.

Lemma sortBy_sorted (l : list A) :
  StronglySorted (fun a b => le a b = true) (sortBy le l).
Proof.
  apply (sortBy_sorted_on le (fun _ => True)).
  - intros a b _ _. apply le_total.
  - intros a b c _ _ _. apply le_trans.
  - rewrite Forall_forall. intros a _. exact I.
Qed.

End SortTotal.

Section StrictlySorted.

Lemma sorted_nodup_strict (l : list jsstring) :
  StronglySorted (fun a b => strleb a b = true) l -> NoDup l ->
  StronglySorted strlt l.
Proof.
  induction l as [|x l IH]; intros Hs Hn; [constructor|].
  inversion Hs as [|? ? Hl Hx]; subst. inversion Hn as [|? ? Hnx Hnl]; subst.
  constructor; [apply IH; assumption|].
  rewrite Forall_forall in Hx |- *. intros y Hy.
  destruct (strleb_cases x y (Hx y Hy)) as [-> | H]; [contradiction | exact H].
Qed.

Lemma strict_sorted_nodup (l : list jsstring) : StronglySorted strlt l -> NoDup l.
Proof.
  induction l as [|x l IH]; intros Hs; [constructor|].
  inversion Hs as [|? ? Hl Hx]; subst.
  constructor; [|apply IH; exact Hl].
  intros Hin. rewrite Forall_forall in Hx. apply (strlt_irrefl x). apply Hx. exact Hin.
Qed.


End StrictlySorted.

(* ====================================================================== *)
(** * Rotations of an id array *)
(* ====================================================================== *)

(** The order of the rotations that [compareRotation] decides. *)
Section Rotations.

Variable x : list Z.
Local Abbreviation n := (length x).

Lemma wrapAdd_0 (s : nat) : (s < n)%nat -> wrapAdd n s 0 = s.
Proof. intros H. unfold wrapAdd. rewrite Nat.add_0_r. apply Nat.mod_small. exact H. Qed.

Lemma wrapAdd_lt (s k : nat) : (0 < n)%nat -> (wrapAdd n s k < n)%nat.
Proof. intros H. unfold wrapAdd. apply Nat.mod_upper_bound. lia. Qed.

Lemma wrapAdd_wrapAdd (s a b : nat) : wrapAdd n (wrapAdd n s a) b = wrapAdd n s (a + b).
Proof. unfold wrapAdd. rewrite Nat.Div0.add_mod_idemp_l. f_equal. lia. Qed.

Lemma wrapAdd_n (s : nat) : (s < n)%nat -> wrapAdd n s n = s.
Proof.
  intros H. unfold wrapAdd.
  replace (s + n)%nat with (s + 1 * n)%nat by lia.
  rewrite Nat.Div0.mod_add. apply Nat.mod_small. exact H.
Qed.

Lemma rotLt_irrefl (s : nat) : ~ rotLt x s s.
Proof. intros (k & _ & _ & H). lia. Qed.

Lemma rotLt_trans (s t u : nat) : rotLt x s t -> rotLt x t u -> rotLt x s u.
Proof.
  intros (k1 & Hk1 & He1 & Hl1) (k2 & Hk2 & He2 & Hl2).
  destruct (Nat.lt_trichotomy k1 k2) as [H | [H | H]].
  - exists k1. split; [exact Hk1|]. split.
    + intros j Hj. rewrite He1 by exact Hj. apply He2. lia.
    + rewrite <- (He2 k1 H). exact Hl1.
  - subst k2. exists k1. split; [exact Hk1|]. split.
    + intros j Hj. rewrite He1 by exact Hj. apply He2. exact Hj.
    + lia.
  - exists k2. split; [exact Hk2|]. split.
    + intros j Hj. rewrite He1 by lia. apply He2. exact Hj.
    + rewrite (He1 k2 H). exact Hl2.
Qed.

Lemma rotLt_asym (s t : nat) : rotLt x s t -> ~ rotLt x t s.
Proof. intros H H'. apply (rotLt_irrefl s). apply (rotLt_trans s t s); assumption. Qed.

(** Up to any bound the two rotations agree, or there is a first place
    where they differ. *)
Lemma first_difference (s t m : nat) :
  (m <= n)%nat ->
  (forall j, (j < m)%nat -> at_ x (wrapAdd n s j) = at_ x (wrapAdd n t j))
  \/ rotLt x s t \/ rotLt x t s.
Proof.
  induction m as [|m IH]; intros Hm.
  - left. intros j Hj. lia.
  - destruct (IH ltac:(lia)) as [Heq | Hlt]; [|right; exact Hlt].
    destruct (Z.lt_trichotomy (at_ x (wrapAdd n s m)) (at_ x (wrapAdd n t m)))
      as [H | [H | H]].
    + right. left. exists m. split; [lia|]. split; [exact Heq | exact H].
    + left. intros j Hj. destruct (Nat.eq_dec j m) as [-> | Hne]; [exact H|].
      apply Heq. lia.
    + right. right. exists m. split; [lia|]. split; [|exact H].
      intros j Hj. symmetry. apply Heq. exact Hj.
Qed.

Lemma rotLt_or_eq (s t : nat) : rotLt x s t \/ rotLt x t s \/ rotEq x s t.
Proof.
  destruct (first_difference s t n (Nat.le_refl n)) as [H | [H | H]]; auto.
Qed.

(** With a value that occurs once, equal rotations start at the same
    index. *)
Lemma rotEq_same (v : Z) (z s t : nat) :
  uniqueAt x v z -> (s < n)%nat -> (t < n)%nat -> rotEq x s t -> s = t.
Proof.
  intros (Hz & Hv & Hu) Hs Ht Heq.
  (* the place where the rotation from [s] meets [z] *)
  set (k := ((z + n - s) mod n)%nat).
  assert (Hk : (k < n)%nat) by (apply Nat.mod_upper_bound; lia).
  assert (Hsk : wrapAdd n s k = z).
  { unfold wrapAdd, k. rewrite Nat.Div0.add_mod_idemp_r.
    replace (s + (z + n - s))%nat with (z + 1 * n)%nat by lia.
    rewrite Nat.Div0.mod_add. apply Nat.mod_small. exact Hz. }
  pose proof (Heq k Hk) as H. rewrite Hsk, Hv in H.
  assert (Htk : wrapAdd n t k = z).
  { apply Hu; [apply wrapAdd_lt; lia | symmetry; exact H]. }
  (* both [s + k] and [t + k] are [z] modulo [n] *)
  unfold wrapAdd in Hsk, Htk.
  assert (Hmod : ((s + k) mod n = (t + k) mod n)%nat) by congruence.
  destruct (Nat.lt_ge_cases (s + k) n) as [Hsn | Hsn];
    destruct (Nat.lt_ge_cases (t + k) n) as [Htn | Htn].
  - rewrite !Nat.mod_small in Hmod by assumption. lia.
  - rewrite (Nat.mod_small (s + k)) in Hmod by assumption.
    replace (t + k)%nat with ((t + k - n) + 1 * n)%nat in Hmod by lia.
    rewrite Nat.Div0.mod_add, Nat.mod_small in Hmod by lia.
    rewrite Hmod in Hsk.
    replace (t + k)%nat with ((t + k - n) + 1 * n)%nat in Htk by lia.
    rewrite Nat.Div0.mod_add, Nat.mod_small in Htk by lia. lia.
  - rewrite (Nat.mod_small (t + k)) in Hmod by assumption.
    replace (s + k)%nat with ((s + k - n) + 1 * n)%nat in Hmod by lia.
    rewrite Nat.Div0.mod_add, Nat.mod_small in Hmod by lia. lia.
  - replace (s + k)%nat with ((s + k - n) + 1 * n)%nat in Hmod by lia.
    replace (t + k)%nat with ((t + k - n) + 1 * n)%nat in Hmod by lia.
    rewrite !Nat.Div0.mod_add, !Nat.mod_small in Hmod by lia. lia.
Qed.

Lemma rotLt_total (v : Z) (z s t : nat) :
  uniqueAt x v z -> (s < n)%nat -> (t < n)%nat -> s <> t ->
  rotLt x s t \/ rotLt x t s.
Proof.
  intros Hu Hs Ht Hne.
  destruct (rotLt_or_eq s t) as [H | [H | H]]; auto.
  elim Hne. apply (rotEq_same v z); assumption.
Qed.

(** The first elements decide, or are equal. *)
Lemma rotLt_head (s t : nat) :
  (s < n)%nat -> (t < n)%nat -> rotLt x s t -> at_ x s <= at_ x t.
Proof.
  intros Hs Ht (k & Hk & He & Hl).
  destruct k as [|k].
  - rewrite !wrapAdd_0 in Hl by assumption. lia.
  - pose proof (He O ltac:(lia)) as H. rewrite !wrapAdd_0 in H by assumption. lia.
Qed.

Lemma head_rotLt (s t : nat) :
  (s < n)%nat -> (t < n)%nat -> at_ x s < at_ x t -> rotLt x s t.
Proof.
  intros Hs Ht H. exists O. split; [lia|]. split; [intros j Hj; lia|].
  rewrite !wrapAdd_0 by assumption. exact H.
Qed.

(** Rotations with the same first element compare as the rotations that
    start one place later. *)
Lemma rotLt_next (s t : nat) :
  (s < n)%nat -> (t < n)%nat -> at_ x s = at_ x t ->
  (rotLt x s t <-> rotLt x (wrapAdd n s 1) (wrapAdd n t 1)).
Proof.
  intros Hs Ht Heq. split.
  - intros (k & Hk & He & Hl).
    destruct k as [|k].
    + rewrite !wrapAdd_0 in Hl by assumption. lia.
    + exists k. split; [lia|]. split.
      * intros j Hj. rewrite !wrapAdd_wrapAdd. apply (He (S j)). lia.
      * rewrite !wrapAdd_wrapAdd. exact Hl.
  - intros (k & Hk & He & Hl).
    rewrite !wrapAdd_wrapAdd in Hl.
    destruct (Nat.eq_dec (S k) n) as [Hkn | Hkn].
    + simpl in Hl. rewrite Hkn, !wrapAdd_n in Hl by assumption. lia.
    + exists (S k). split; [lia|]. split; [|exact Hl].
      intros j Hj. destruct j as [|j].
      * rewrite !wrapAdd_0 by assumption. exact Heq.
      * specialize (He j ltac:(lia)). rewrite !wrapAdd_wrapAdd in He. exact He.
Qed.

End Rotations.

(* ====================================================================== *)
(** * The sorted rotations *)
(* ====================================================================== *)

Section Comparator.

Variable x : list Z.
Local Abbreviation n := (length x).

Lemma aget_at (i : nat) : (i < n)%nat -> aget x (Z.of_nat i) = Some (at_ x i).
Proof.
  intros H. unfold aget, at_.
  destruct (Z.ltb_spec (Z.of_nat i) 0); [lia|].
  rewrite Nat2Z.id. apply nth_error_nth'. exact H.
Qed.

Lemma wrap_index (s k : nat) :
  (s < n)%nat -> (k < n)%nat ->
  (if Z.of_nat s + Z.of_nat k <? len x
   then Z.of_nat s + Z.of_nat k
   else Z.of_nat s + Z.of_nat k - len x)
  = Z.of_nat (wrapAdd n s k).
Proof.
  intros Hs Hk. unfold len, wrapAdd.
  destruct (Z.ltb_spec (Z.of_nat s + Z.of_nat k) (Z.of_nat n)).
  - rewrite Nat.mod_small by lia. lia.
  - replace (s + k)%nat with ((s + k - n) + 1 * n)%nat by lia.
    rewrite Nat.Div0.mod_add, Nat.mod_small by lia. lia.
Qed.

Lemma compareRotationFrom_spec (l r : nat) :
  (l < n)%nat -> (r < n)%nat ->
  forall (m off : nat),
    (off + m = n)%nat ->
    (forall j, (j < off)%nat -> at_ x (wrapAdd n l j) = at_ x (wrapAdd n r j)) ->
    let c := compareRotationFrom x (len x) (Z.of_nat l) (Z.of_nat r) m (Z.of_nat off) in
    (c = -1 /\ rotLt x l r) \/ (c = 1 /\ rotLt x r l) \/ (c = 0 /\ rotEq x l r).
Proof.
  intros Hl Hr. induction m as [|m IH]; intros off Hoff Heq; cbv zeta.
  - right. right. split; [reflexivity|]. intros j Hj. apply Heq. lia.
  - simpl compareRotationFrom.
    rewrite !wrap_index by lia.
    rewrite !aget_at by (apply wrapAdd_lt; lia).
    simpl ltU.
    destruct (Z.ltb_spec (at_ x (wrapAdd n l off)) (at_ x (wrapAdd n r off))) as [H1 | H1].
    + left. split; [reflexivity|]. exists off. split; [lia|]. split; [exact Heq | exact H1].
    + destruct (Z.ltb_spec (at_ x (wrapAdd n r off)) (at_ x (wrapAdd n l off))) as [H2 | H2].
      * right. left. split; [reflexivity|]. exists off. split; [lia|].
        split; [|exact H2]. intros j Hj. symmetry. apply Heq. exact Hj.
      * replace (Z.of_nat off + 1) with (Z.of_nat (S off)) by lia.
        apply IH; [lia|].
        intros j Hj. destruct (Nat.eq_dec j off) as [-> | Hne]; [lia|].
        apply Heq. lia.
Qed.

Lemma compareRotation_spec (l r : nat) :
  (l < n)%nat -> (r < n)%nat ->
  let c := compareRotation x (len x) (Z.of_nat l) (Z.of_nat r) in
  (c = -1 /\ rotLt x l r) \/ (c = 1 /\ rotLt x r l) \/ (c = 0 /\ rotEq x l r).
Proof.
  intros Hl Hr. unfold compareRotation.
  replace (Z.to_nat (len x)) with n by (unfold len; lia).
  apply (compareRotationFrom_spec l r Hl Hr n O); [lia | intros j Hj; lia].
Qed.

Lemma rotEq_not_lt (s t : nat) : rotEq x s t -> ~ rotLt x s t /\ ~ rotLt x t s.
Proof.
  intros He. split; intros (k & Hk & _ & Hlt); specialize (He k Hk); lia.
Qed.

Variables (v : Z) (z : nat).
Hypothesis Hu : uniqueAt x v z.

(** With a value that occurs once the comparator is the reflexive closure
    of the order of the rotations. *)
Lemma rotLeb_spec (l r : nat) :
  (l < n)%nat -> (r < n)%nat ->
  (rotLeb x (Z.of_nat l) (Z.of_nat r) = true <-> l = r \/ rotLt x l r).
Proof.
  intros Hl Hr. unfold rotLeb.
  destruct (compareRotation_spec l r Hl Hr) as [[-> H] | [[-> H] | [-> H]]].
  - split; [right; exact H | reflexivity].
  - split; [discriminate|]. intros [-> | H'].
    + elim (rotLt_irrefl x r H).
    + elim (rotLt_asym x _ _ H H').
  - split; [|reflexivity]. intros _. left. apply (rotEq_same x v z); assumption.
Qed.

Lemma rotLeb_total (a b : Z) :
  inRangeZ x a -> inRangeZ x b -> rotLeb x a b = true \/ rotLeb x b a = true.
Proof.
  unfold inRangeZ, len. intros Ha Hb.
  rewrite <- (Z2Nat.id a), <- (Z2Nat.id b) by lia.
  rewrite !rotLeb_spec by lia.
  destruct (Nat.eq_dec (Z.to_nat a) (Z.to_nat b)) as [He | Hne]; [left; left; exact He|].
  destruct (rotLt_total x v z (Z.to_nat a) (Z.to_nat b) Hu ltac:(lia) ltac:(lia) Hne);
    [left | right]; right; assumption.
Qed.

Lemma rotLeb_trans (a b c : Z) :
  inRangeZ x a -> inRangeZ x b -> inRangeZ x c ->
  rotLeb x a b = true -> rotLeb x b c = true -> rotLeb x a c = true.
Proof.
  unfold inRangeZ, len. intros Ha Hb Hc.
  rewrite <- (Z2Nat.id a), <- (Z2Nat.id b), <- (Z2Nat.id c) by lia.
  rewrite !rotLeb_spec by lia.
  intros [-> | H1] [<- | H2]; auto.
  right. apply (rotLt_trans x _ _ _ H1 H2).
Qed.

Lemma strict_from_leb (l : list nat) :
  (forall i, In i l -> (i < n)%nat) ->
  NoDup l ->
  StronglySorted (fun a b => rotLeb x a b = true) (map Z.of_nat l) ->
  StronglySorted (rotLt x) l.
Proof.
  induction l as [|a l IH]; intros Hin Hnd Hsorted; [constructor|].
  simpl in Hsorted. inversion Hsorted as [|? ? Hl Ha]; subst.
  inversion Hnd as [|? ? Hna Hnl]; subst.
  constructor.
  - apply IH; [intros i Hi; apply Hin; right; exact Hi | exact Hnl | exact Hl].
  - rewrite Forall_forall in Ha |- *. intros b Hb.
    specialize (Ha (Z.of_nat b) (in_map Z.of_nat _ _ Hb)).
    apply rotLeb_spec in Ha; [| apply Hin; left; reflexivity | apply Hin; right; exact Hb].
    destruct Ha as [-> | Ha]; [contradiction | exact Ha].
Qed.

(** The sorted order of the rotations: a strictly increasing arrangement
    of all the start indices. *)
Lemma suffix_array_spec :
  exists ord : list nat,
    buildCyclicSuffixArray x = map Z.of_nat ord
    /\ Permutation ord (seq 0 n)
    /\ StronglySorted (rotLt x) ord.
Proof.
  unfold buildCyclicSuffixArray. fold (rotLeb x).
  set (order := sortBy (rotLeb x) (indicesUpTo n)).
  assert (Hperm : Permutation order (indicesUpTo n)) by apply sortBy_perm.
  assert (Hrange : Forall (inRangeZ x) (indicesUpTo n)).
  { unfold indicesUpTo. rewrite Forall_forall. intros a Ha.
    apply in_map_iff in Ha as (i & <- & Hi). apply in_seq in Hi.
    unfold inRangeZ, len. lia. }
  assert (Hsorted : StronglySorted (fun a b => rotLeb x a b = true) order).
  { apply (sortBy_sorted_on (rotLeb x) (inRangeZ x));
      [exact rotLeb_total | exact rotLeb_trans | exact Hrange]. }
  exists (map Z.to_nat order).
  assert (Hback : order = map Z.of_nat (map Z.to_nat order)).
  { rewrite map_map. rewrite <- (map_id order) at 1. apply map_ext_in.
    intros a Ha. apply (Permutation_in _ Hperm) in Ha.
    rewrite Forall_forall in Hrange. specialize (Hrange a Ha).
    unfold inRangeZ in Hrange. lia. }
  assert (Hpn : Permutation (map Z.to_nat order) (seq 0 n)).
  { rewrite (Permutation_map Z.to_nat Hperm). unfold indicesUpTo.
    rewrite map_map. rewrite (map_ext _ (fun i => i)) by (intros; apply Nat2Z.id).
    rewrite map_id. reflexivity. }
  split; [exact Hback|]. split; [exact Hpn|].
  assert (Hnd : NoDup (map Z.to_nat order)).
  { apply (Permutation_NoDup (l := seq 0 n)); [symmetry; exact Hpn | apply seq_NoDup]. }
  assert (Hin : forall i, In i (map Z.to_nat order) -> (i < n)%nat).
  { intros i Hi. apply (Permutation_in _ Hpn) in Hi. apply in_seq in Hi. lia. }
  rewrite Hback in Hsorted.
  apply strict_from_leb; assumption.
Qed.

End Comparator.

(* ====================================================================== *)
(** * Counts, starts and next *)
(* ====================================================================== *)

Section Arrays.

Lemma update_nth_app (pre : list Z) (y v : Z) (rest : list Z) :
  update_nth (length pre) v (pre ++ y :: rest) = pre ++ v :: rest.
Proof. induction pre as [|p pre IH]; simpl; [reflexivity | rewrite IH; reflexivity]. Qed.

Lemma aget_nth (arr : list Z) (i : nat) :
  (i < length arr)%nat -> aget arr (Z.of_nat i) = Some (nth i arr 0).
Proof.
  intros H. unfold aget. destruct (Z.ltb_spec (Z.of_nat i) 0); [lia|].
  rewrite Nat2Z.id. apply nth_error_nth'. exact H.
Qed.

Lemma aset32_nth (arr : list Z) (i : nat) (v : Z) (j : nat) :
  0 <= v < 4294967296 ->
  nth j (aset32 arr (Z.of_nat i) v) 0
  = if Nat.eqb j i then (if Nat.ltb i (length arr) then v else 0) else nth j arr 0.
Proof.
  intros Hv. unfold aset32. destruct (Z.ltb_spec (Z.of_nat i) 0); [lia|].
  rewrite Nat2Z.id, nth_update_nth, toUint32_small by exact Hv. reflexivity.
Qed.

Lemma firstn_plus {A : Type} (i k : nat) (l : list A) :
  firstn (i + k) l = firstn i l ++ firstn k (skipn i l).
Proof.
  revert l. induction i as [|i IH]; intros [|y l]; simpl;
    try reflexivity; [destruct k; reflexivity | rewrite IH; reflexivity].
Qed.

Lemma filter_none {A : Type} (f : A -> bool) (l : list A) :
  (forall y, In y l -> f y = false) -> filter f l = [].
Proof.
  induction l as [|y l IH]; intros H; simpl; [reflexivity|].
  rewrite (H y (or_introl eq_refl)). apply IH. intros u Hu. apply H. right. exact Hu.
Qed.

Lemma lessCount_succ (l : list Z) (c : Z) :
  lessCount l (c + 1) = (lessCount l c + countOf l c)%nat.
Proof.
  unfold lessCount, countOf. induction l as [|v l IH]; simpl; [reflexivity|].
  destruct (Z.ltb_spec v (c + 1)); destruct (Z.ltb_spec v c);
    destruct (Z.eqb_spec v c); simpl; lia.
Qed.

Lemma lessCount_mono (l : list Z) (c d : Z) :
  c <= d -> (lessCount l c <= lessCount l d)%nat.
Proof.
  intros H. unfold lessCount. induction l as [|v l IH]; simpl; [lia|].
  destruct (Z.ltb_spec v c); destruct (Z.ltb_spec v d); simpl; lia.
Qed.

Lemma lessCount_le (l : list Z) (c : Z) : (lessCount l c <= length l)%nat.
Proof. apply filter_length_le. Qed.

Lemma countOf_app (l l' : list Z) (c : Z) :
  countOf (l ++ l') c = (countOf l c + countOf l' c)%nat.
Proof. unfold countOf. rewrite filter_app, length_app. reflexivity. Qed.

Lemma countOf_firstn_lt (l : list Z) (i : nat) :
  (i < length l)%nat ->
  (countOf (firstn i l) (at_ l i) < countOf l (at_ l i))%nat.
Proof.
  intros H. rewrite <- (firstn_skipn i l) at 3. rewrite countOf_app.
  assert (Hs : skipn i l = at_ l i :: skipn (S i) l).
  { unfold at_. revert i H. induction l as [|v l IH]; intros [|i] H; simpl in *;
      try lia; [reflexivity | apply IH; lia]. }
  rewrite Hs. unfold countOf at 3. simpl. rewrite Z.eqb_refl. simpl. lia.
Qed.

Lemma countOf_firstn_mono (l : list Z) (i j : nat) (c : Z) :
  (i <= j)%nat -> (countOf (firstn i l) c <= countOf (firstn j l) c)%nat.
Proof.
  intros H. replace j with (i + (j - i))%nat by lia.
  rewrite firstn_plus, countOf_app. lia.
Qed.

Lemma countOf_firstn_S (l : list Z) (i : nat) :
  (i < length l)%nat ->
  countOf (firstn (S i) l) (at_ l i) = S (countOf (firstn i l) (at_ l i)).
Proof.
  intros H. replace (S i) with (i + 1)%nat by lia.
  rewrite firstn_plus, countOf_app.
  assert (Hs : firstn 1 (skipn i l) = [at_ l i]).
  { unfold at_. revert i H. induction l as [|v l IH]; intros [|i] H; simpl in *;
      try lia; [reflexivity | apply IH; lia]. }
  rewrite Hs. unfold countOf at 2. simpl. rewrite Z.eqb_refl. simpl. lia.
Qed.

(** The paired rows are rows, and no two rows have the same. *)
Lemma pairedRow_lt (l : list Z) (i : nat) :
  (i < length l)%nat -> (pairedRow l i < length l)%nat.
Proof.
  intros H. unfold pairedRow.
  pose proof (countOf_firstn_lt l i H) as Hc.
  pose proof (lessCount_succ l (at_ l i)) as Hs.
  pose proof (lessCount_le l (at_ l i + 1)). lia.
Qed.

Lemma pairedRow_lt_later (l : list Z) (i j : nat) :
  (i < j)%nat -> (j < length l)%nat -> pairedRow l i <> pairedRow l j.
Proof.
  intros Hij Hj. unfold pairedRow.
  destruct (Z.lt_trichotomy (at_ l i) (at_ l j)) as [H | [H | H]].
  - pose proof (countOf_firstn_lt l i ltac:(lia)).
    pose proof (lessCount_succ l (at_ l i)).
    pose proof (lessCount_mono l (at_ l i + 1) (at_ l j) ltac:(lia)). lia.
  - rewrite H.
    pose proof (countOf_firstn_mono l (S i) j (at_ l j) ltac:(lia)) as Hm.
    rewrite <- H in Hm at 1. rewrite countOf_firstn_S in Hm by lia.
    rewrite H in Hm. lia.
  - pose proof (countOf_firstn_lt l j ltac:(lia)).
    pose proof (lessCount_succ l (at_ l j)).
    pose proof (lessCount_mono l (at_ l j + 1) (at_ l i) ltac:(lia)). lia.
Qed.

Lemma pairedRow_inj (l : list Z) (i j : nat) :
  (i < length l)%nat -> (j < length l)%nat ->
  pairedRow l i = pairedRow l j -> i = j.
Proof.
  intros Hi Hj H. destruct (Nat.lt_trichotomy i j) as [Hlt | [Heq | Hlt]];
    [|exact Heq|].
  - elim (pairedRow_lt_later l i j Hlt Hj H).
  - elim (pairedRow_lt_later l j i Hlt Hi (eq_sym H)).
Qed.

(** ** The arrays of the inverse transform *)

Variable l : list Z.      (* the last column *)
Variable a : nat.         (* alphabetSize *)
Hypothesis l_range : forall v, In v l -> 0 <= v < Z.of_nat a.
Hypothesis l_short : Z.of_nat (length l) < 4294967296.

Lemma aincr32_countsOf (cnt done : list Z) (v : Z) :
  countsOf a cnt done -> 0 <= v < Z.of_nat a ->
  Z.of_nat (length done) + 1 < 4294967296 ->
  countsOf a (aincr32 cnt v) (done ++ [v]).
Proof.
  intros [Hlen Hcnt] Hv Hd.
  destruct (Z_of_nat_complete v ltac:(lia)) as [vn ->].
  unfold aincr32. rewrite aget_nth by lia. split.
  - rewrite aset32_length. exact Hlen.
  - intros c Hc. rewrite (Hcnt vn) by lia.
    pose proof (filter_length_le (fun u => u =? Z.of_nat vn) done) as Hle.
    fold (countOf done (Z.of_nat vn)) in Hle.
    rewrite aset32_nth by lia.
    rewrite countOf_app. unfold countOf at 3. simpl.
    destruct (Nat.eqb_spec c vn) as [-> | Hne].
    + destruct (Nat.ltb_spec vn (length cnt)) as [_|]; [|lia].
      rewrite Z.eqb_refl. simpl. lia.
    + rewrite (Hcnt c Hc).
      destruct (Z.eqb_spec (Z.of_nat vn) (Z.of_nat c)); [lia|]. simpl. lia.
Qed.

(** [counts] *)
Lemma counts_fold (todo : list Z) :
  forall (done : list Z) (cnt : list Z),
    done ++ todo = l ->
    countsOf a cnt done ->
    countsOf a (fold_left aincr32 todo cnt) l.
Proof.
  induction todo as [|v todo IH]; intros done cnt Hl Hcnt.
  - rewrite app_nil_r in Hl. subst done. exact Hcnt.
  - simpl fold_left.
    assert (Hv : 0 <= v < Z.of_nat a).
    { apply l_range. rewrite <- Hl. apply in_or_app. right. left. reflexivity. }
    assert (Hd : (length done < length l)%nat).
    { rewrite <- Hl, length_app. simpl. lia. }
    apply (IH (done ++ [v])).
    + rewrite <- app_assoc. exact Hl.
    + apply aincr32_countsOf; [exact Hcnt | exact Hv | lia].
Qed.

Lemma countsOf_zeros : countsOf a (zeros (Z.of_nat a)) [].
Proof.
  split.
  - unfold zeros. rewrite repeat_length. apply Nat2Z.id.
  - intros c Hc. unfold zeros. rewrite nth_repeat. reflexivity.
Qed.

Lemma counts_spec : countsOf a (fold_left aincr32 l (zeros (Z.of_nat a))) l.
Proof. apply (counts_fold l []); [reflexivity | exact countsOf_zeros]. Qed.

(** [starts] *)
Lemma prefixStarts_spec (cs : list Z) :
  forall (k : nat) (sum : Z),
    sum = Z.of_nat (lessCount l (Z.of_nat k)) ->
    (forall j, (j < length cs)%nat ->
               nth j cs 0 = Z.of_nat (countOf l (Z.of_nat (k + j)))) ->
    length (prefixStarts cs sum) = length cs
    /\ forall j, (j < length cs)%nat ->
                 nth j (prefixStarts cs sum) 0 = Z.of_nat (lessCount l (Z.of_nat (k + j))).
Proof.
  induction cs as [|c0 cs IH]; intros k sum Hsum Hcs.
  - split; [reflexivity | intros j Hj; simpl in Hj; lia].
  - simpl prefixStarts.
    assert (Hnext : sum + c0 = Z.of_nat (lessCount l (Z.of_nat (S k)))).
    { pose proof (Hcs O ltac:(simpl; lia)) as H0. simpl in H0.
      rewrite Nat.add_0_r in H0. rewrite H0, Hsum.
      replace (Z.of_nat (S k)) with (Z.of_nat k + 1) by lia.
      rewrite lessCount_succ. lia. }
    destruct (IH (S k) (sum + c0) Hnext) as [Hlen Hnth].
    { intros j Hj. specialize (Hcs (S j) ltac:(simpl; lia)). simpl in Hcs.
      replace (S k + j)%nat with (k + S j)%nat by lia. exact Hcs. }
    split; [simpl; rewrite Hlen; reflexivity|].
    intros [|j] Hj.
    + simpl. rewrite Nat.add_0_r. rewrite toUint32_small; [exact Hsum|].
      rewrite Hsum. pose proof (lessCount_le l (Z.of_nat k)). lia.
    + simpl. rewrite Hnth by (simpl in Hj; lia).
      replace (S k + j)%nat with (k + S j)%nat by lia. reflexivity.
Qed.

Lemma starts_spec :
  let starts := prefixStarts (fold_left aincr32 l (zeros (Z.of_nat a))) 0 in
  length starts = a
  /\ forall c, (c < a)%nat -> nth c starts 0 = Z.of_nat (lessCount l (Z.of_nat c)).
Proof.
  cbv zeta. destruct counts_spec as [Hlen Hcnt].
  destruct (prefixStarts_spec (fold_left aincr32 l (zeros (Z.of_nat a))) O 0) as [Hl Hn].
  - unfold lessCount. 
    replace (filter (fun v => v <? Z.of_nat 0) l) with (@nil Z); [reflexivity|].
    symmetry. apply filter_none. intros v Hv. apply l_range in Hv.
    destruct (Z.ltb_spec v (Z.of_nat 0)); [lia | reflexivity].
  - intros j Hj. rewrite Hlen in Hj. apply Hcnt. exact Hj.
  - rewrite Hlen in Hl, Hn. split; [exact Hl | exact Hn].
Qed.

(** [next]: after the loop every row is found at its paired row. *)
Lemma nextLoop_spec (starts : list Z) (todo : list Z) :
  length starts = a ->
  (forall c, (c < a)%nat -> nth c starts 0 = Z.of_nat (lessCount l (Z.of_nat c))) ->
  forall (done occ next : list Z),
    done ++ todo = l ->
    countsOf a occ done ->
    length next = length l ->
    (forall j, (j < length done)%nat -> nth (pairedRow l j) next 0 = Z.of_nat j) ->
    let next' := nextLoop todo starts (Z.of_nat (length done)) occ next in
    length next' = length l
    /\ forall j, (j < length l)%nat -> nth (pairedRow l j) next' 0 = Z.of_nat j.
Proof.
  intros Hsl Hst.
  induction todo as [|v todo IH]; intros done occ next Hl Hocc Hnl Hnext; cbv zeta.
  - rewrite app_nil_r in Hl. subst done. split; assumption.
  - simpl nextLoop.
    assert (Hv : 0 <= v < Z.of_nat a).
    { apply l_range. rewrite <- Hl. apply in_or_app. right. left. reflexivity. }
    assert (Hd : (length done < length l)%nat).
    { rewrite <- Hl, length_app. simpl. lia. }
    assert (Hat : at_ l (length done) = v).
    { unfold at_. rewrite <- Hl, app_nth2, Nat.sub_diag by lia. reflexivity. }
    assert (Hfirst : firstn (length done) l = done).
    { rewrite <- Hl, firstn_app, Nat.sub_diag, firstn_all. simpl. apply app_nil_r. }
    destruct (Z_of_nat_complete v ltac:(lia)) as [vn ->].
    destruct Hocc as [Hol Hoc].
    rewrite !aget_nth by lia.
    rewrite (Hst vn), (Hoc vn) by lia.
    replace (Z.of_nat (lessCount l (Z.of_nat vn)) + Z.of_nat (countOf done (Z.of_nat vn)))
      with (Z.of_nat (pairedRow l (length done)))
      by (unfold pairedRow; rewrite Hat, Hfirst; lia).
    replace (Z.of_nat (length done) + 1) with (Z.of_nat (length (done ++ [Z.of_nat vn])))
      by (rewrite length_app; simpl; lia).
    apply IH.
    + rewrite <- app_assoc. exact Hl.
    + apply aincr32_countsOf; [split; assumption | exact Hv | lia].
    + rewrite aset32_length. exact Hnl.
    + intros j Hj. rewrite length_app in Hj. simpl in Hj.
      rewrite aset32_nth by lia.
      pose proof (pairedRow_lt l (length done) Hd) as Hp.
      destruct (Nat.eqb_spec (pairedRow l j) (pairedRow l (length done))) as [He | Hne].
      * apply pairedRow_inj in He; [|lia|lia]. subst j.
        destruct (Nat.ltb_spec (pairedRow l (length done)) (length next)); [reflexivity | lia].
      * apply Hnext. destruct (Nat.eq_dec j (length done)); [congruence | lia].
Qed.

End Arrays.

(* ====================================================================== *)
(** * Counting in sorted lists *)
(* ====================================================================== *)

Section Counting.

Lemma filter_length_perm {A : Type} (f : A -> bool) (l l' : list A) :
  Permutation l l' -> length (filter f l) = length (filter f l').
Proof.
  induction 1 as [|y l l' _ IH | y y' l | l l' l'' _ IH1 _ IH2]; simpl.
  - reflexivity.
  - destruct (f y); simpl; rewrite IH; reflexivity.
  - destruct (f y), (f y'); reflexivity.
  - rewrite IH1. exact IH2.
Qed.

Lemma filter_length_split {A : Type} (f g h : A -> bool) (l : list A) :
  (forall t, In t l -> h t = f t || g t) ->
  (forall t, In t l -> f t && g t = false) ->
  length (filter h l) = (length (filter f l) + length (filter g l))%nat.
Proof.
  induction l as [|y l IH]; intros Hh Hd; [reflexivity|].
  simpl. rewrite (Hh y (or_introl eq_refl)).
  pose proof (Hd y (or_introl eq_refl)) as Hy.
  assert (IH' : length (filter h l) = (length (filter f l) + length (filter g l))%nat).
  { apply IH; intros t Ht; [apply Hh | apply Hd]; right; exact Ht. }
  destruct (f y), (g y); simpl in *; try discriminate; lia.
Qed.

Lemma filter_filter_and {A : Type} (f g : A -> bool) (l : list A) :
  filter f (filter g l) = filter (fun t => f t && g t) l.
Proof.
  induction l as [|y l IH]; [reflexivity|].
  simpl. destruct (g y); simpl; [destruct (f y); simpl; rewrite IH; reflexivity|].
  rewrite andb_false_r. exact IH.
Qed.

Lemma nth_map_in {A B : Type} (g : A -> B) (l : list A) (i : nat) (d : A) (d' : B) :
  (i < length l)%nat -> nth i (map g l) d' = g (nth i l d).
Proof.
  intros H. rewrite (nth_indep _ d' (g d)) by (rewrite length_map; exact H).
  apply map_nth.
Qed.

(** In a list strictly increasing for [R], what is before position [j]
    is what is [R]-below the element at [j]. *)
Lemma sorted_prefix (R : nat -> nat -> Prop) (Rb : nat -> nat -> bool) (l : list nat) :
  StronglySorted R l ->
  (forall s t, In s l -> In t l -> (Rb s t = true <-> R s t)) ->
  (forall s t, R s t -> ~ R t s) ->
  forall j, (j < length l)%nat ->
            filter (fun t => Rb t (nth j l O)) l = firstn j l.
Proof.
  induction l as [|y l IH]; intros Hs Hb Hasym j Hj; [simpl in Hj; lia|].
  inversion Hs as [|? ? Hl Hy]; subst. rewrite Forall_forall in Hy.
  assert (Hb' : forall s t, In s l -> In t l -> (Rb s t = true <-> R s t)).
  { intros s t Hs' Ht'. apply Hb; right; assumption. }
  destruct j as [|j].
  - simpl nth. simpl firstn.
    apply filter_none. intros t [<- | Ht].
    + destruct (Rb y y) eqn:H; [|reflexivity].
      apply Hb in H; [|left; reflexivity|left; reflexivity].
      elim (Hasym _ _ H H).
    + destruct (Rb t y) eqn:H; [|reflexivity].
      apply Hb in H; [|right; exact Ht|left; reflexivity].
      elim (Hasym _ _ H (Hy t Ht)).
  - simpl in Hj. simpl nth. simpl firstn. simpl filter.
    assert (Hin : In (nth j l O) l) by (apply nth_In; lia).
    replace (Rb y (nth j l O)) with true.
    + f_equal. apply IH; [exact Hl | exact Hb' | exact Hasym | lia].
    + symmetry. apply Hb; [left; reflexivity | right; exact Hin | apply Hy; exact Hin].
Qed.

Lemma zeros_succ (k : nat) : zeros (Z.of_nat (S k)) = 0 :: zeros (Z.of_nat k).
Proof. unfold zeros. rewrite !Nat2Z.id. reflexivity. Qed.

Lemma primaryAfter_absent (ord : list nat) :
  forall i p, ~ In O ord -> primaryAfter ord i p = p.
Proof.
  induction ord as [|s ord IH]; intros i p H; [reflexivity|].
  simpl. destruct (Nat.eqb_spec s 0) as [-> | Hs]; [elim H; left; reflexivity|].
  apply IH. intros H'. apply H. right. exact H'.
Qed.

(** The primary row is a row that starts at index 0. *)
Lemma primaryAfter_spec (ord : list nat) :
  forall i p, In O ord ->
    exists j, (j < length ord)%nat /\ nth j ord O = O
              /\ primaryAfter ord i p = i + Z.of_nat j.
Proof.
  induction ord as [|s ord IH]; intros i p H; [destruct H|].
  simpl primaryAfter.
  destruct (in_dec Nat.eq_dec O ord) as [Hin | Hout].
  - destruct (IH (i + 1) (if Nat.eqb s 0 then i else p) Hin) as (j & Hj & Hn & Hp).
    exists (S j). simpl. split; [lia|]. split; [exact Hn|]. lia.
  - destruct H as [-> | H]; [|contradiction].
    exists O. simpl. split; [lia|]. split; [reflexivity|].
    rewrite primaryAfter_absent by exact Hout. lia.
Qed.

Lemma inverse_nonempty (l : list Z) (p alphabet : Z) :
  l <> [] ->
  inverseBurrowsWheelerTransform l p alphabet
  = restoreLoop l
      (nextLoop l (prefixStarts (fold_left aincr32 l (zeros alphabet)) 0)
                0 (zeros alphabet) (zeros (len l)))
      (length l) (Some p) (zeros (len l)).
Proof. intros H. destruct l; [elim H; reflexivity | reflexivity]. Qed.

End Counting.

(* ====================================================================== *)
(** * The inverse transform after the forward transform *)
(* ====================================================================== *)

Section RoundTrip.

Variable x : list Z.
Local Abbreviation n := (length x).
Hypothesis x_nonempty : (0 < n)%nat.
Hypothesis x_short : Z.of_nat n < 4294967296.

Variable a : nat.
Hypothesis a_small : Z.of_nat a <= 4294967296.
Hypothesis x_range : forall v, In v x -> 0 <= v < Z.of_nat a.

Lemma at_range (i : nat) : (i < n)%nat -> 0 <= at_ x i < 4294967296.
Proof.
  intros H. assert (Hv : 0 <= at_ x i < Z.of_nat a).
  { apply x_range. unfold at_. apply nth_In. exact H. }
  lia.
Qed.

Lemma before_lt (s : nat) : (before n s < n)%nat.
Proof. unfold before. apply wrapAdd_lt. exact x_nonempty. Qed.

Lemma before_index (s : nat) :
  (s < n)%nat ->
  (if Z.of_nat s =? 0 then len x - 1 else Z.of_nat s - 1) = Z.of_nat (before n s).
Proof.
  intros Hs. unfold before, wrapAdd, len.
  destruct (Z.eqb_spec (Z.of_nat s) 0) as [H0 | H0].
  - replace s with O by lia. rewrite Nat.add_0_l, Nat.mod_small by lia. lia.
  - replace (s + (n - 1))%nat with ((s - 1) + 1 * n)%nat by lia.
    rewrite Nat.Div0.mod_add, Nat.mod_small by lia. lia.
Qed.

Lemma after_before (s : nat) : (s < n)%nat -> wrapAdd n (before n s) 1 = s.
Proof.
  intros Hs. unfold before. rewrite wrapAdd_wrapAdd.
  replace (n - 1 + 1)%nat with n by lia. apply wrapAdd_n. exact Hs.
Qed.

Lemma before_after (s : nat) : (s < n)%nat -> before n (wrapAdd n s 1) = s.
Proof.
  intros Hs. unfold before. rewrite wrapAdd_wrapAdd.
  replace (1 + (n - 1))%nat with n by lia. apply wrapAdd_n. exact Hs.
Qed.

Lemma before_inj (s t : nat) :
  (s < n)%nat -> (t < n)%nat -> before n s = before n t -> s = t.
Proof.
  intros Hs Ht H. rewrite <- (after_before s Hs), <- (after_before t Ht), H. reflexivity.
Qed.

Lemma bwtLoop_spec (ord : list nat) :
  forall (pre : list Z) (p : Z),
    (forall s, In s ord -> (s < n)%nat) ->
    bwtLoop x (len x) (map Z.of_nat ord) (len pre)
            (pre ++ zeros (Z.of_nat (length ord))) p
    = mkBwt (pre ++ lastOf x ord) (primaryAfter ord (len pre) p).
Proof.
  induction ord as [|s ord IH]; intros pre p Hin.
  - simpl. unfold zeros. simpl. reflexivity.
  - assert (Hs : (s < n)%nat) by (apply Hin; left; reflexivity).
    change (length (s :: ord)) with (S (length ord)). rewrite zeros_succ.
    simpl map. simpl bwtLoop.
    rewrite (before_index s Hs), aget_at by apply before_lt.
    simpl JS.num.
    unfold aset32. destruct (Z.ltb_spec (len pre) 0); [unfold len in *; lia|].
    replace (Z.to_nat (len pre)) with (length pre) by (unfold len; lia).
    rewrite update_nth_app, toUint32_small by (apply at_range; apply before_lt).
    replace (len pre + 1) with (len (pre ++ [at_ x (before n s)]))
      by (unfold len; rewrite length_app; simpl; lia).
    replace (pre ++ at_ x (before n s) :: zeros (Z.of_nat (length ord)))
      with ((pre ++ [at_ x (before n s)]) ++ zeros (Z.of_nat (length ord)))
      by (rewrite <- app_assoc; reflexivity).
    rewrite IH by (intros t Ht; apply Hin; right; exact Ht).
    unfold lastOf. simpl map. rewrite <- app_assoc. simpl.
    f_equal. f_equal.
    + unfold len. rewrite length_app. simpl. lia.
    + destruct (Z.eqb_spec (Z.of_nat s) 0); destruct (Nat.eqb_spec s 0);
        try lia; try reflexivity;
        unfold len; rewrite length_app; simpl; f_equal; lia.
Qed.

Variable ord : list nat.
Hypothesis ord_perm : Permutation ord (seq 0 n).
Hypothesis ord_sorted : StronglySorted (rotLt x) ord.

Lemma ord_length : length ord = n.
Proof. rewrite (Permutation_length ord_perm). apply length_seq. Qed.

Lemma ord_in (s : nat) : In s ord <-> (s < n)%nat.
Proof.
  split; intros H.
  - apply (Permutation_in _ ord_perm) in H. apply in_seq in H. lia.
  - apply (Permutation_in _ (Permutation_sym ord_perm)). apply in_seq. lia.
Qed.

Lemma ord_nth_lt (i : nat) : (i < n)%nat -> (nth i ord O < n)%nat.
Proof. intros H. apply ord_in. apply nth_In. rewrite ord_length. exact H. Qed.

Lemma rotLtb_spec (s t : nat) :
  (s < n)%nat -> (t < n)%nat -> (rotLtb x s t = true <-> rotLt x s t).
Proof.
  intros Hs Ht. unfold rotLtb.
  destruct (compareRotation_spec x s t Hs Ht) as [[-> H] | [[-> H] | [-> H]]].
  - split; [intros _; exact H | reflexivity].
  - split; [discriminate|]. intros H'. elim (rotLt_asym x _ _ H H').
  - split; [discriminate|]. intros H'. elim (proj1 (rotEq_not_lt x s t H) H').
Qed.

Lemma map_at_seq : map (at_ x) (seq 0 n) = x.
Proof.
  apply (nth_ext _ _ 0 0).
  - rewrite length_map, length_seq. reflexivity.
  - intros i Hi. rewrite length_map, length_seq in Hi.
    rewrite (nth_map_in (at_ x) _ i O 0) by (rewrite length_seq; exact Hi).
    rewrite seq_nth by exact Hi. reflexivity.
Qed.

Lemma before_perm : Permutation (map (before n) (seq 0 n)) (seq 0 n).
Proof.
  apply Permutation_map_same_l.
  - apply Finite.Injective_map_NoDup_in; [|apply seq_NoDup].
    intros s t Hs Ht. apply in_seq in Hs, Ht.
    apply before_inj; lia.
  - intros s Hs. apply in_map_iff in Hs as (t & <- & Ht).
    apply in_seq. split; [lia|]. simpl. apply before_lt.
Qed.

(** Counting over the rows of [ord] is counting over the indices, and a
    count over indices can be taken one place earlier. *)
Lemma count_rows (f : nat -> bool) :
  length (filter f ord) = length (filter f (seq 0 n)).
Proof. apply filter_length_perm. exact ord_perm. Qed.

Lemma count_before (f : nat -> bool) :
  length (filter (fun u => f (before n u)) (seq 0 n)) = length (filter f (seq 0 n)).
Proof.
  rewrite <- (filter_length_perm f _ _ before_perm).
  rewrite filter_map_swap, length_map. reflexivity.
Qed.

Lemma lessCount_lastOf (c : Z) :
  lessCount (lastOf x ord) c = length (filter (fun t => at_ x t <? c) ord).
Proof.
  unfold lessCount, lastOf. rewrite filter_map_swap, length_map.
  rewrite !count_rows. apply (count_before (fun t => at_ x t <? c)).
Qed.

Lemma lastOf_length : length (lastOf x ord) = n.
Proof. unfold lastOf. rewrite length_map. apply ord_length. Qed.

Lemma lastOf_at (i : nat) :
  (i < n)%nat -> at_ (lastOf x ord) i = at_ x (before n (nth i ord O)).
Proof.
  intros H. unfold at_ at 1, lastOf.
  apply (nth_map_in (fun s => at_ x (before n s))). rewrite ord_length. exact H.
Qed.

(** The row paired with row [i] is the row of the rotation that starts
    one place before the rotation of row [i]. *)
Lemma pairedRow_before (i : nat) :
  (i < n)%nat ->
  nth (pairedRow (lastOf x ord) i) ord O = before n (nth i ord O).
Proof.
  intros Hi.
  set (o := nth i ord O). set (s := before n o). set (c := at_ x s).
  assert (Ho : (o < n)%nat) by (apply ord_nth_lt; exact Hi).
  assert (Hs : (s < n)%nat) by (apply before_lt).
  assert (Hafter : wrapAdd n s 1 = o) by (apply after_before; exact Ho).
  (* the row [j] of [s] *)
  destruct (In_nth ord s O (proj2 (ord_in s) Hs)) as (j & Hj & Hjs).
  rewrite ord_length in Hj.
  assert (Hpre : forall k, (k < n)%nat ->
                   filter (fun t => rotLtb x t (nth k ord O)) ord = firstn k ord).
  { intros k Hk. apply (sorted_prefix (rotLt x) (rotLtb x)).
    - exact ord_sorted.
    - intros u w Ha Hb. apply rotLtb_spec; apply ord_in; assumption.
    - apply rotLt_asym.
    - rewrite ord_length. exact Hk. }
  assert (Hrank : j = length (filter (fun t => rotLtb x t s) ord)).
  { rewrite <- Hjs, (Hpre j Hj), length_firstn, ord_length. lia. }
  (* split the rows below [s] by their first symbol *)
  assert (Hsplit : length (filter (fun t => rotLtb x t s) ord)
                   = Nat.add (length (filter (fun t => at_ x t <? c) ord))
                             (length (filter (fun t => (at_ x t =? c) && rotLtb x t s) ord))).
  { apply filter_length_split.
    - intros t Ht. apply ord_in in Ht.
      destruct (Z.ltb_spec (at_ x t) c) as [Hlt | Hge]; simpl.
      + apply rotLtb_spec; [exact Ht | exact Hs |]. apply head_rotLt; assumption.
      + destruct (Z.eqb_spec (at_ x t) c) as [Heq | Hne]; simpl; [reflexivity|].
        destruct (rotLtb x t s) eqn:Hb; [|reflexivity].
        apply rotLtb_spec in Hb; [|exact Ht|exact Hs].
        apply rotLt_head in Hb; [|exact Ht|exact Hs]. fold c in Hb. lia.
    - intros t _. destruct (Z.ltb_spec (at_ x t) c); destruct (Z.eqb_spec (at_ x t) c);
        simpl; try reflexivity; lia. }
  (* the rows of symbol [c] below [s] are the earlier rows that end in [c] *)
  assert (Hsame : countOf (firstn i (lastOf x ord)) c
                  = length (filter (fun t => (at_ x t =? c) && rotLtb x t s) ord)).
  { unfold countOf, lastOf. rewrite firstn_map, filter_map_swap, length_map.
    rewrite <- (Hpre i Hi), filter_filter_and. fold o.
    rewrite !count_rows.
    rewrite <- (count_before (fun t => (at_ x t =? c) && rotLtb x t s)).
    f_equal. apply filter_ext_in. intros u Hu. apply in_seq in Hu.
    destruct (Z.eqb_spec (at_ x (before n u)) c) as [Heq | Hne]; [|reflexivity].
    simpl.
    assert (Hbu : (before n u < n)%nat) by (apply before_lt).
    pose proof (rotLt_next x (before n u) s Hbu Hs Heq) as Hnext.
    rewrite (after_before u ltac:(lia)), Hafter in Hnext.
    destruct (rotLtb x u o) eqn:H1; destruct (rotLtb x (before n u) s) eqn:H2;
      try reflexivity.
    - apply rotLtb_spec in H1; [|lia|exact Ho]. apply Hnext in H1.
      apply rotLtb_spec in H1; [|exact Hbu|exact Hs]. congruence.
    - apply rotLtb_spec in H2; [|exact Hbu|exact Hs]. apply Hnext in H2.
      apply rotLtb_spec in H2; [|lia|exact Ho]. congruence. }
  assert (Hc : at_ (lastOf x ord) i = c) by (apply lastOf_at; exact Hi).
  assert (Hpaired : pairedRow (lastOf x ord) i = j).
  { unfold pairedRow. rewrite Hc, lessCount_lastOf, Hsame, Hrank. symmetry. exact Hsplit. }
  rewrite Hpaired. exact Hjs.
Qed.

Local Abbreviation L := (lastOf x ord).

Lemma ord_NoDup : NoDup ord.
Proof. apply (Permutation_NoDup (Permutation_sym ord_perm)). apply seq_NoDup. Qed.

Lemma lastOf_range (v : Z) : In v L -> 0 <= v < Z.of_nat a.
Proof.
  unfold lastOf. intros H. apply in_map_iff in H as (s & <- & _).
  apply x_range. unfold at_. apply nth_In. apply before_lt.
Qed.

Lemma lastOf_short : Z.of_nat (length L) < 4294967296.
Proof. rewrite lastOf_length. exact x_short. Qed.

Lemma nextOf_paired :
  length (nextOf x a ord) = n
  /\ forall j, (j < n)%nat -> nth (pairedRow L j) (nextOf x a ord) 0 = Z.of_nat j.
Proof.
  destruct (starts_spec L a lastOf_range lastOf_short) as [Hsl Hst].
  pose proof (nextLoop_spec L a lastOf_range lastOf_short _ L Hsl Hst
                            [] (zeros (Z.of_nat a)) (zeros (len L))) as H.
  cbv zeta in H. simpl length in H. change (Z.of_nat 0) with 0 in H.
  rewrite lastOf_length in H. apply H.
  - reflexivity.
  - apply countsOf_zeros.
  - unfold zeros, len. rewrite repeat_length, Nat2Z.id.
    apply lastOf_length.
  - intros j Hj. simpl in Hj. lia.
Qed.

(** [next] leads from the row of a rotation to the row of the rotation
    that starts one place later. *)
Lemma nextOf_after (r : nat) :
  (r < n)%nat ->
  exists i, (i < n)%nat /\ nth r (nextOf x a ord) 0 = Z.of_nat i
            /\ nth i ord O = wrapAdd n (nth r ord O) 1.
Proof.
  intros Hr.
  pose proof ord_length as Hlen.
  assert (Hs : (nth r ord O < n)%nat) by (apply ord_nth_lt; exact Hr).
  assert (Ht : (wrapAdd n (nth r ord O) 1 < n)%nat) by (apply wrapAdd_lt; exact x_nonempty).
  destruct (In_nth ord _ O (proj2 (ord_in _) Ht)) as (i & Hi & Hio).
  rewrite Hlen in Hi.
  exists i. split; [exact Hi|]. split; [|exact Hio].
  assert (Hp : pairedRow L i = r).
  { pose proof (pairedRow_before i Hi) as Hb.
    rewrite Hio, (before_after _ Hs) in Hb.
    pose proof (pairedRow_lt L i) as Hlt.
    rewrite lastOf_length in Hlt. specialize (Hlt Hi).
    apply (proj1 (NoDup_nth ord O) ord_NoDup); [lia | lia | exact Hb]. }
  rewrite <- Hp. apply nextOf_paired. exact Hi.
Qed.

(** The last loop: with [m] iterations left and the row of the rotation
    that starts at [n - m], the first [m] places receive the first [m]
    elements of [x] from the last place down. *)
Lemma restoreLoop_spec (m : nat) :
  forall (r : nat) (restored : list Z),
    (m <= n)%nat -> (r < n)%nat ->
    nth r ord O = wrapAdd n O (n - m) ->
    length restored = n ->
    let res := restoreLoop L (nextOf x a ord) m (Some (Z.of_nat r)) restored in
    length res = n
    /\ forall i, (i < n)%nat ->
                 nth i res 0 = if (i <? m)%nat then at_ x (n - 1 - i) else nth i restored 0.
Proof.
  induction m as [|m IH]; intros r restored Hm Hr Hrow Hlen; cbv zeta.
  - simpl. split; [exact Hlen | intros i _; reflexivity].
  - simpl restoreLoop.
    destruct (nextOf_after r Hr) as (i & Hi & Hnext & Hio).
    rewrite (aget_nth (nextOf x a ord) r) by (rewrite (proj1 nextOf_paired); exact Hr).
    rewrite Hnext. simpl agetU.
    rewrite (aget_nth L i) by (rewrite lastOf_length; exact Hi).
    simpl JS.num.
    assert (Hval : nth i L 0 = at_ x (n - S m)).
    { change (nth i L 0) with (at_ L i).
      rewrite (lastOf_at i Hi), Hio.
      rewrite before_after by (apply ord_nth_lt; exact Hr).
      rewrite Hrow. unfold wrapAdd. simpl. rewrite Nat.mod_small by lia. reflexivity. }
    rewrite Hval.
    assert (Hv : 0 <= at_ x (n - S m) < 4294967296).
    { assert (H : 0 <= at_ x (n - S m) < Z.of_nat a)
        by (apply x_range; unfold at_; apply nth_In; lia).
      lia. }
    destruct (IH i (aset32 restored (Z.of_nat m) (at_ x (n - S m)))) as [Hl Hn].
    + lia.
    + exact Hi.
    + rewrite Hio, Hrow. unfold wrapAdd. simpl.
      rewrite (Nat.mod_small (n - S m)) by lia.
      f_equal. lia.
    + rewrite aset32_length. exact Hlen.
    + split; [exact Hl|]. intros k Hk. rewrite (Hn k Hk).
      destruct (Nat.ltb_spec k m); destruct (Nat.ltb_spec k (S m)); try lia; try reflexivity.
      * assert (k = m) by lia. subst k.
        rewrite aset32_nth by exact Hv. rewrite Nat.eqb_refl.
        destruct (Nat.ltb_spec m (length restored)); [|lia].
        f_equal. lia.
      * rewrite aset32_nth by exact Hv.
        destruct (Nat.eqb_spec k m); [lia | reflexivity].
Qed.

(** From the last column and the row of the rotation that starts at 0,
    the inverse transform returns [x] reversed. *)
Lemma inverse_of_rows (p : nat) :
  (p < n)%nat -> nth p ord O = O ->
  inverseBurrowsWheelerTransform L (Z.of_nat p) (Z.of_nat a) = rev x.
Proof.
  intros Hp Hrow.
  pose proof lastOf_length as HL.
  rewrite inverse_nonempty by (intros HeqL; rewrite HeqL in HL; simpl in HL; lia).
  fold (nextOf x a ord). rewrite HL.
  destruct (restoreLoop_spec n p (zeros (len L))) as [Hl Hn].
  - lia.
  - exact Hp.
  - rewrite Hrow, Nat.sub_diag. unfold wrapAdd. simpl.
    symmetry. apply Nat.mod_small. exact x_nonempty.
  - unfold zeros, len. rewrite repeat_length, Nat2Z.id. exact HL.
  - apply (nth_ext _ _ 0 0).
    + rewrite Hl, length_rev. reflexivity.
    + intros i Hi. rewrite Hl in Hi. rewrite (Hn i Hi).
      destruct (Nat.ltb_spec i n); [|lia].
      rewrite rev_nth by exact Hi. unfold at_. f_equal. lia.
Qed.

End RoundTrip.

(** The output of the forward transform: the last column over the sorted
    rotations, and the row of the rotation that starts at 0. *)
Lemma bwt_rows (ids : list Z) (a : nat) (v : Z) (z : nat) :
  uniqueAt ids v z ->
  (forall u, In u ids -> 0 <= u < Z.of_nat a) ->
  Z.of_nat a <= 4294967296 ->
  exists (ord : list nat) (p : nat),
    burrowsWheelerTransform ids = mkBwt (lastOf ids ord) (Z.of_nat p)
    /\ Permutation ord (seq 0 (length ids))
    /\ StronglySorted (rotLt ids) ord
    /\ (p < length ids)%nat /\ nth p ord O = O.
Proof.
  intros Hu Hrange Ha.
  assert (Hne : (0 < length ids)%nat) by (destruct Hu as [Hz _]; lia).
  destruct ids as [|x0 [|x1 rest]] eqn:Hids; [simpl in Hne; lia | |].
  - exists [O], O. split; [reflexivity|]. split; [reflexivity|].
    split; [constructor; constructor|]. split; [simpl; lia | reflexivity].
  - rewrite <- Hids in *.
    destruct (suffix_array_spec ids v z Hu) as (ord & Hord & Hperm & Hsorted).
    assert (Hin : In O ord).
    { apply (Permutation_in _ (Permutation_sym Hperm)). apply in_seq. lia. }
    destruct (primaryAfter_spec ord 0 0 Hin) as (j & Hj & Hrow & Hprimary).
    rewrite (Permutation_length Hperm), length_seq in Hj.
    exists ord, j. split; [|repeat split; assumption].
    replace (burrowsWheelerTransform ids)
      with (bwtLoop ids (len ids) (buildCyclicSuffixArray ids) 0 (zeros (len ids)) 0)
      by (rewrite Hids; reflexivity).
    rewrite Hord.
    pose proof (bwtLoop_spec ids Hne a Ha Hrange ord [] 0) as H.
    simpl app in H. change (len []) with 0 in H.
    rewrite (Permutation_length Hperm), length_seq in H.
    rewrite Hprimary, Z.add_0_l in H.
    apply H. intros s Hs. apply (Permutation_in _ Hperm) in Hs.
    apply in_seq in Hs. lia.
Qed.

(** The last column holds values of the array, as many as the array. *)
Lemma bwt_lastColumn (ids : list Z) (a : nat) (v : Z) (z : nat) :
  uniqueAt ids v z ->
  (forall u, In u ids -> 0 <= u < Z.of_nat a) ->
  Z.of_nat a <= 4294967296 ->
  length (lastColumn (burrowsWheelerTransform ids)) = length ids
  /\ forall u, In u (lastColumn (burrowsWheelerTransform ids)) -> In u ids.
Proof.
  intros Hu Hrange Ha.
  assert (Hne : (0 < length ids)%nat) by (destruct Hu as [Hz _]; lia).
  destruct (bwt_rows ids a v z Hu Hrange Ha) as (ord & p & -> & Hperm & _).
  simpl lastColumn. split; [apply lastOf_length; exact Hperm|].
  intros u Hin. unfold lastOf in Hin. apply in_map_iff in Hin as (s & <- & _).
  unfold at_. apply nth_In. apply before_lt. exact Hne.
Qed.

(** The inverse transform of the forward transform of [ids] is [ids]
    reversed, for every array in which some value occurs once (the
    sentinel), with values below [alphabetSize], inside what a
    [Uint32Array] can hold. *)
Lemma bwt_roundtrip_reverses (ids : list Z) (alphabetSize v : Z) (z : nat) :
  uniqueAt ids v z ->
  (forall u, In u ids -> 0 <= u < alphabetSize) ->
  alphabetSize <= 4294967296 ->
  len ids < 4294967296 ->
  bwt_then_inverse ids alphabetSize = rev ids.
Proof.
  intros Hu Hrange Ha Hlen.
  assert (Hz : (z < length ids)%nat) by apply Hu.
  assert (Hpos : 0 <= alphabetSize).
  { assert (H : In (at_ ids z) ids) by (unfold at_; apply nth_In; exact Hz).
    apply Hrange in H. lia. }
  destruct (Z_of_nat_complete alphabetSize Hpos) as [a ->].
  destruct (bwt_rows ids a v z Hu Hrange Ha) as (ord & p & Hb & Hperm & Hsorted & Hp & Hrow).
  unfold bwt_then_inverse. rewrite Hb. cbn [lastColumn bwt_primaryIndex].
  apply inverse_of_rows; try assumption. lia.
Qed.

(** The forward transform of [1; 2; 0]. *)
Example bwt_of_1_2_0 :
  burrowsWheelerTransform [1; 2; 0] = mkBwt [2; 0; 1] 1.
Proof. reflexivity. Qed.

(** C3 (the source diverges from the claim).  The claim: the inverse
    transform applied to the output of the forward transform of an id array
    with a single sentinel 0, with an alphabet size above every id, returns
    that array.  The source: [next] maps a row to the row of the rotation
    that starts one position LATER, so the walk from the primary row meets
    x[0], x[1], ... in this order, while the loop stores them at indices
    n-1, n-2, ...: for every such array (up to the sizes a [Uint32Array]
    holds) the result is the array reversed, which is the array itself
    only when it reads the same in both directions. *)
Theorem C3_inverse_bwt_returns_the_reversal
        (x : list Z) (alphabetSize : Z) (z : nat) :
  uniqueAt x 0 z ->
  (forall id, In id x -> 0 <= id < alphabetSize) ->
  alphabetSize <= 4294967296 ->
  len x < 4294967296 ->
  bwt_then_inverse x alphabetSize = rev x
  /\ (rev x <> x -> bwt_then_inverse x alphabetSize <> x).
Proof.
  intros Hu Hrange Ha Hlen.
  assert (H : bwt_then_inverse x alphabetSize = rev x)
    by (apply (bwt_roundtrip_reverses x alphabetSize 0 z); assumption).
  split; [exact H|]. intros Hne. rewrite H. exact Hne.
Qed.

(** The theorem of C3 at x = [1; 2; 0] with alphabet size 3: the result
    is [0; 2; 1], not x. *)
Lemma C3_witness :
  bwt_then_inverse [1; 2; 0] 3 = [0; 2; 1]
  /\ bwt_then_inverse [1; 2; 0] 3 <> [1; 2; 0].
Proof.
  assert (Hu : uniqueAt [1; 2; 0] 0 2).
  { split; [simpl; lia|]. split; [reflexivity|].
    intros [|[|[|i]]] Hi H; simpl in Hi; try reflexivity; try discriminate H; lia. }
  assert (Hr : forall id, In id [1; 2; 0] -> 0 <= id < 3).
  { intros id [<- | [<- | [<- | []]]]; lia. }
  destruct (C3_inverse_bwt_returns_the_reversal [1; 2; 0] 3 2 Hu Hr) as [H1 H2].
  - lia.
  - unfold len. simpl. lia.
  - split; [exact H1 | apply H2; discriminate].
Defined.

(* ====================================================================== *)
(** * Dictionary and ids *)
(* ====================================================================== *)

Section Dictionary.

Lemma indexOf_nth (t : jsstring) (l : list jsstring) :
  forall i, indexOf t l = Some i -> nth_error l i = Some t.
Proof.
  induction l as [|x l IH]; intros i; simpl; [discriminate|].
  destruct (streq t x) eqn:Hx.
  - apply streq_true_iff in Hx. subst. intros H. injection H as <-. reflexivity.
  - destruct (indexOf t l) as [j|]; simpl; [|discriminate].
    intros H. injection H as <-. simpl. apply IH. reflexivity.
Qed.

Lemma indexOf_in (t : jsstring) (l : list jsstring) :
  In t l -> exists i, indexOf t l = Some i.
Proof.
  induction l as [|x l IH]; intros Hin; [destruct Hin|].
  simpl. destruct (streq t x) eqn:Hx; [exists O; reflexivity|].
  apply streq_false_iff in Hx.
  destruct Hin as [Heq | Hin]; [congruence|].
  destruct (IH Hin) as [i Hi]. rewrite Hi. exists (S i). reflexivity.
Qed.

Lemma indexOf_none (t : jsstring) (l : list jsstring) :
  indexOf t l = None <-> ~ In t l.
Proof.
  split.
  - intros H Hin. destruct (indexOf_in t l Hin) as [i Hi]. congruence.
  - intros H. destruct (indexOf t l) as [i|] eqn:Hi; [|reflexivity].
    elim H. apply (nth_error_In l i). apply indexOf_nth. exact Hi.
Qed.

Lemma indexOf_lt (t : jsstring) (l : list jsstring) (i : nat) :
  indexOf t l = Some i -> (i < length l)%nat.
Proof.
  intros H. apply indexOf_nth in H. apply nth_error_Some. congruence.
Qed.

Lemma indexOf_app_old (t : jsstring) (l l' : list jsstring) (i : nat) :
  indexOf t l = Some i -> indexOf t (l ++ l') = Some i.
Proof.
  revert i. induction l as [|x l IH]; intros i; simpl; [discriminate|].
  destruct (streq t x); [trivial|].
  destruct (indexOf t l) as [j|]; simpl; [|discriminate].
  intros H. rewrite (IH j eq_refl). exact H.
Qed.

Lemma indexOf_app_new (t k : jsstring) (l : list jsstring) :
  indexOf k l = None ->
  indexOf k (l ++ [t]) = if streq k t then Some (length l) else None.
Proof.
  induction l as [|x l IH]; simpl.
  - intros _. destruct (streq k t); reflexivity.
  - destruct (streq k x); [discriminate|].
    destruct (indexOf k l) as [j|]; simpl; [discriminate|].
    intros _. rewrite (IH eq_refl). destruct (streq k t); reflexivity.
Qed.

Lemma dictionaryId_in (dict : list jsstring) (t : jsstring) :
  In t dict -> 1 <= dictionaryId dict t <= len dict.
Proof.
  intros Hin. unfold dictionaryId, len.
  destruct (indexOf_in t dict Hin) as [i Hi]. rewrite Hi.
  apply indexOf_lt in Hi. lia.
Qed.

Lemma assignId_keys (st : IdTable) (token : jsstring) :
  keysOk st -> keysOk (assignId st token).
Proof.
  intros (Hmap & Hnd). unfold assignId. rewrite Hmap.
  destruct (indexOf token (tbl_dictionary st)) as [i|] eqn:Hi; simpl.
  - split; assumption.
  - unfold keysOk. cbn [tbl_dictionary tbl_tokenToId]. split.
    + intros k. simpl. unfold len.
      destruct (indexOf k (tbl_dictionary st)) as [j|] eqn:Hk.
      * rewrite (indexOf_app_old _ _ _ _ Hk).
        destruct (streq k token) eqn:Hkt.
        -- apply streq_true_iff in Hkt. subst. congruence.
        -- rewrite Hmap, Hk. reflexivity.
      * rewrite (indexOf_app_new token k _ Hk).
        destruct (streq k token); [reflexivity|].
        rewrite Hmap, Hk. reflexivity.
    + apply NoDup_app; [exact Hnd | constructor; [intros [] | constructor] |].
      intros k Hk [<- | []]. apply indexOf_none in Hi. contradiction.
Qed.

Lemma fold_assignId_keys (tokens : list jsstring) :
  forall st, keysOk st -> keysOk (fold_left assignId tokens st).
Proof.
  induction tokens as [|t tokens IH]; intros st H; [exact H|].
  simpl. apply IH. apply assignId_keys. exact H.
Qed.

Lemma keysOk_init : keysOk (mkIdTable [] [] []).
Proof. split; [reflexivity | constructor]. Qed.

Lemma tableOk_init : tableOk (mkIdTable [] [] []) [].
Proof.
  unfold tableOk. simpl.
  split; [reflexivity|]. split; [tauto | lia].
Qed.

Lemma assignId_ok (st : IdTable) (done : list jsstring) (token : jsstring) :
  keysOk st ->
  tableOk st done ->
  len done + 1 < 4294967296 ->
  tableOk (assignId st token) (done ++ [token]).
Proof.
  intros (Hmap & Hnd) (Hids & Hin & Hlen) Hbound. unfold len in Hbound.
  unfold assignId. rewrite Hmap.
  destruct (indexOf token (tbl_dictionary st)) as [i|] eqn:Hi; simpl.
  - (* a token seen before *)
    pose proof (indexOf_lt _ _ _ Hi) as Hlt.
    unfold tableOk. cbn [tbl_dictionary tbl_tokenToId tbl_ids].
    split; [|split].
    + rewrite map_app. cbn [map]. rewrite <- Hids. f_equal. f_equal.
      unfold dictionaryId. rewrite Hi. apply toUint32_small. lia.
    + intros k. rewrite in_app_iff, Hin. simpl. split; [tauto|].
      intros [H | [<- | []]]; [exact H|].
      apply Hin. apply (nth_error_In _ i). apply indexOf_nth. exact Hi.
    + rewrite length_app. simpl. lia.
  - (* a new token *)
    unfold tableOk. cbn [tbl_dictionary tbl_tokenToId tbl_ids].
    split; [|split].
    + rewrite map_app. cbn [map]. rewrite Hids. f_equal.
      * apply map_ext_in. intros k Hk. apply Hin in Hk.
        destruct (indexOf_in _ _ Hk) as [j Hj].
        unfold dictionaryId. rewrite Hj, (indexOf_app_old _ _ _ _ Hj). reflexivity.
      * f_equal. unfold dictionaryId.
        rewrite (indexOf_app_new token token _ Hi), streq_refl.
        unfold len. apply toUint32_small. lia.
    + intros k. rewrite !in_app_iff, Hin. tauto.
    + rewrite !length_app. simpl. lia.
Qed.

Lemma fold_assignId_ok (tokens : list jsstring) :
  forall st done,
    keysOk st ->
    tableOk st done ->
    len done + len tokens < 4294967296 ->
    tableOk (fold_left assignId tokens st) (done ++ tokens).
Proof.
  induction tokens as [|t tokens IH]; intros st done Hk Hok Hb.
  - simpl. rewrite app_nil_r. exact Hok.
  - simpl fold_left.
    replace (done ++ t :: tokens) with ((done ++ [t]) ++ tokens)
      by (rewrite <- app_assoc; reflexivity).
    unfold len in Hb. simpl length in Hb.
    apply IH.
    + apply assignId_keys. exact Hk.
    + apply assignId_ok; [exact Hk | exact Hok | unfold len; lia].
    + unfold len. rewrite length_app. simpl. lia.
Qed.

(** [tokenToNewId]: each entry of a duplicate-free [sorted] is bound to
    its position plus one. *)
Lemma newIds_get (sorted : list jsstring) :
  forall i m k,
    NoDup sorted ->
    mapGet (newIds sorted i m) k
    = match indexOf k sorted with
      | Some j => Some (i + Z.of_nat j + 1)
      | None => mapGet m k
      end.
Proof.
  induction sorted as [|t sorted IH]; intros i m k Hnd; [reflexivity|].
  inversion Hnd as [|? ? Ht Hnd']; subst.
  simpl newIds. rewrite (IH _ _ _ Hnd'). simpl.
  destruct (streq k t) eqn:Hkt.
  - apply streq_true_iff in Hkt. subst.
    apply indexOf_none in Ht. rewrite Ht. f_equal. lia.
  - destruct (indexOf k sorted) as [j|]; simpl; [f_equal; lia | reflexivity].
Qed.

Lemma aget_cons_succ (x : Z) (l : list Z) (i : nat) :
  aget (x :: l) (Z.of_nat i + 1) = nth_error l i.
Proof.
  unfold aget. destruct (Z.ltb_spec (Z.of_nat i + 1) 0); [lia|].
  replace (Z.to_nat (Z.of_nat i + 1)) with (S i) by lia. reflexivity.
Qed.

(** The ids of [tokensToIds]: each token gets its position in the sorted
    dictionary, plus one. *)
Lemma tokensToIds_spec (tokens : list jsstring) :
  len tokens < 4294967296 ->
  let r := tokensToIds tokens in
  StronglySorted strlt (sortedDictionary r)
  /\ (forall k, In k (sortedDictionary r) <-> In k tokens)
  /\ ids r = map (dictionaryId (sortedDictionary r)) tokens.
Proof.
  intros Hb. cbv zeta. unfold tokensToIds.
  pose proof (fold_assignId_ok tokens (mkIdTable [] [] []) [] keysOk_init tableOk_init)
    as Hok.
  simpl app in Hok. specialize (Hok ltac:(unfold len in *; simpl; lia)).
  destruct Hok as (Hids & Hin & Hlen).
  destruct (fold_assignId_keys tokens _ keysOk_init) as (Hmap & Hnd).
  set (st := fold_left assignId tokens (mkIdTable [] [] [])) in *.
  set (dict := tbl_dictionary st) in *.
  set (sorted := sortBy strleb dict).
  cbn [ids sortedDictionary].
  pose proof (sortBy_perm strleb dict) as Hperm. fold sorted in Hperm.
  assert (Hnds : NoDup sorted).
  { apply (Permutation_NoDup (l := dict)); [symmetry; exact Hperm | exact Hnd]. }
  assert (Hss : StronglySorted strlt sorted).
  { apply sorted_nodup_strict; [|exact Hnds].
    apply sortBy_sorted; [apply strleb_total | apply strleb_trans]. }
  assert (Hins : forall k, In k sorted <-> In k tokens).
  { intros k. rewrite <- Hin. split; apply Permutation_in;
      [exact Hperm | symmetry; exact Hperm]. }
  split; [exact Hss|]. split; [exact Hins|].
  rewrite Hids, map_map. apply map_ext_in. intros t Ht.
  assert (Htd : In t dict) by (apply Hin; exact Ht).
  destruct (indexOf_in t dict Htd) as [i Hi].
  replace (dictionaryId dict t) with (Z.of_nat i + 1)
    by (unfold dictionaryId; rewrite Hi; reflexivity).
  unfold oldToNewTable. rewrite aget_cons_succ.
  rewrite nth_error_map, (indexOf_nth _ _ _ Hi). simpl.
  rewrite (newIds_get sorted 0 [] t Hnds).
  assert (Hts : In t sorted) by (apply Hins; exact Ht).
  destruct (indexOf_in t sorted Hts) as [j Hj].
  unfold dictionaryId. rewrite Hj. simpl.
  apply indexOf_lt in Hj.
  assert (length sorted = length dict) by (apply Permutation_length; exact Hperm).
  unfold len in Hb. rewrite toUint32_small by lia. reflexivity.
Qed.


End Dictionary.





(* ====================================================================== *)
(** * The bounded loops reach their exit *)
(* ====================================================================== *)

(** Where a [while] loop of the source is a [Fixpoint] with a bound, the
    bound is never what ends it. *)

Section LoopBounds.

Lemma joinedTail_step (p : Z -> bool) (fuel : nat) (c : Z) (s : jsstring) :
  joinedTail p (S fuel) (c :: s)
  = if isJoiner c then
      match span p s with
      | ([], _) => ([], c :: s)
      | (w, rest) =>
          let (t, rest') := joinedTail p fuel rest in
          (c :: w ++ t, rest')
      end
    else ([], c :: s).
Proof. reflexivity. Qed.

(** [joinedTail]: more iterations than code units change nothing. *)
Lemma joinedTail_bound (p : Z -> bool) (fuel : nat) :
  forall s, (length s <= fuel)%nat -> joinedTail p (S fuel) s = joinedTail p fuel s.
Proof.
  induction fuel as [|fuel IH]; intros s Hlen.
  - destruct s; [reflexivity | simpl in Hlen; lia].
  - destruct s as [|c s]; [reflexivity|].
    rewrite (joinedTail_step p (S fuel) c s), (joinedTail_step p fuel c s).
    destruct (isJoiner c); [|reflexivity].
    pose proof (span_app p s) as Happ.
    destruct (span p s) as [[|x w] rest]; [reflexivity|].
    simpl in Happ. rewrite IH; [reflexivity|].
    apply (f_equal (@length Z)) in Happ. simpl in Happ, Hlen.
    rewrite length_app in Happ. lia.
Qed.

(** The exit test of the zero-fill loop is false when it stops, as soon
    as the bound covers the run or the room left in the array. *)
Lemma zeroFill_exit (k : nat) :
  forall (tokenCount : Z) (mtf : list Z) (index run : Z),
    run <= Z.of_nat k \/ tokenCount - index <= Z.of_nat k ->
    let '(_, index', run') := zeroFill k tokenCount mtf index run in
    (0 <? run') && (index' <? tokenCount) = false.
Proof.
  induction k as [|k IH]; intros tokenCount mtf index run Hk; simpl.
  - destruct (Z.ltb_spec 0 run); destruct (Z.ltb_spec index tokenCount);
      simpl; try reflexivity; lia.
  - destruct ((0 <? run) && (index <? tokenCount)) eqn:Hc; [|exact Hc].
    apply IH. lia.
Qed.

Lemma shr7 (c : Z) : 0 <= c < 4294967296 -> JS.shr c 7 = c / 128.
Proof.
  intros H. unfold JS.shr. rewrite toUint32_small by assumption.
  change (JS.toUint32 7 mod 32) with 7. rewrite Z.shiftr_div_pow2 by lia. reflexivity.
Qed.

Lemma writeVarintLoop_step (n : nat) (w : ByteWriter) (current : Z) :
  writeVarintLoop (S n) w current
  = if 128 <=? current
    then writeVarintLoop n (pushByte w (JS.or (JS.and current 127) 128)) (JS.shr current 7)
    else pushByte w current.
Proof. reflexivity. Qed.

Lemma flushRunLoop_step (n : nat) (run : Z) (symbols : list Z) :
  flushRunLoop (S n) run symbols
  = if 0 <? run
    then flushRunLoop n (JS.sar (run - 1) 1) (symbols ++ [JS.and (run - 1) 1 + 1 - 1])
    else symbols.
Proof. reflexivity. Qed.

(** [writeVarint]: a value below 2^32 is below 0x80 after four shifts, so
    the fifth iteration is never needed. *)
Lemma writeVarintLoop_bound (n : nat) :
  forall (w : ByteWriter) (current : Z),
    0 <= current < 128 * 128 ^ Z.of_nat n ->
    current < 4294967296 ->
    writeVarintLoop (S n) w current = writeVarintLoop n w current.
Proof.
  induction n as [|n IH]; intros w current Hc H32.
  - simpl in *. destruct (Z.leb_spec 128 current); [lia | reflexivity].
  - rewrite (writeVarintLoop_step (S n) w current), (writeVarintLoop_step n w current).
    destruct (128 <=? current); [|reflexivity].
    rewrite shr7 by lia.
    assert (Hpow : 128 ^ Z.of_nat (S n) = 128 * 128 ^ Z.of_nat n).
    { rewrite Nat2Z.inj_succ, Z.pow_succ_r by lia. reflexivity. }
    rewrite Hpow in Hc.
    assert (0 < 128 ^ Z.of_nat n) by (apply Z.pow_pos_nonneg; lia).
    apply IH.
    + split; [apply Z.div_pos; lia|].
      apply Z.div_lt_upper_bound; lia.
    + apply Z.div_lt_upper_bound; lia.
Qed.

Lemma writeVarint_exact (w : ByteWriter) (value : Z) (n : nat) :
  (4 <= n)%nat -> writeVarintLoop n w (JS.shr value 0) = writeVarint w value.
Proof.
  intros Hn. unfold writeVarint.
  assert (Hr : 0 <= JS.shr value 0 < 4294967296).
  { unfold JS.shr. change (JS.toUint32 0 mod 32) with 0. rewrite Z.shiftr_0_r.
    unfold JS.toUint32. apply Z.mod_pos_bound. lia. }
  assert (Hstep : forall m, (4 <= m)%nat ->
            writeVarintLoop (S m) w (JS.shr value 0) = writeVarintLoop m w (JS.shr value 0)).
  { intros m Hm. apply writeVarintLoop_bound; [|lia].
    split; [lia|].
    assert (128 ^ 4 <= 128 ^ Z.of_nat m) by (apply Z.pow_le_mono_r; lia).
    change (128 ^ 4) with 268435456 in *. lia. }
  induction Hn as [|m Hm IH].
  - symmetry. apply Hstep. lia.
  - rewrite Hstep by exact Hm. exact IH.
Qed.

Lemma toInt32_range (x : Z) : -2147483648 <= JS.toInt32 x < 2147483648.
Proof.
  unfold JS.toInt32.
  pose proof (Z.mod_pos_bound x 4294967296 ltac:(lia)).
  destruct (Z.ltb_spec (x mod 4294967296) 2147483648); lia.
Qed.

Lemma sar1 (x : Z) : JS.sar x 1 = JS.toInt32 x / 2.
Proof.
  unfold JS.sar. change (JS.toUint32 1 mod 32) with 1.
  rewrite Z.shiftr_div_pow2 by lia. reflexivity.
Qed.

(** [flushRun]: below 2^n the run is used up within [n] iterations. *)
Lemma flushRunLoop_bound (n : nat) :
  forall (run : Z) (symbols : list Z),
    run < 2 ^ Z.of_nat n -> run < 2147483648 ->
    flushRunLoop (S n) run symbols = flushRunLoop n run symbols.
Proof.
  induction n as [|n IH]; intros run symbols Hr H31.
  - simpl in *. destruct (Z.ltb_spec 0 run); [lia | reflexivity].
  - rewrite (flushRunLoop_step (S n) run symbols), (flushRunLoop_step n run symbols).
    destruct (Z.ltb_spec 0 run); [|reflexivity].
    rewrite sar1, toInt32_small by lia.
    rewrite Nat2Z.inj_succ, Z.pow_succ_r in Hr by lia.
    assert (0 < 2 ^ Z.of_nat n) by (apply Z.pow_pos_nonneg; lia).
    apply IH.
    + apply Z.div_lt_upper_bound; lia.
    + apply Z.div_lt_upper_bound; lia.
Qed.

(** Whatever the run, 33 iterations are enough: after the first one the
    run is a 32-bit integer halved. *)
Lemma flushRun_exact (run : Z) (symbols : list Z) (n : nat) :
  (33 <= n)%nat -> flushRunLoop n run symbols = flushRun run symbols.
Proof.
  intros Hn. unfold flushRun.
  assert (Hstep : forall m, (33 <= m)%nat ->
            flushRunLoop (S m) run symbols = flushRunLoop m run symbols).
  { intros m Hm. destruct m as [|m]; [lia|].
    rewrite (flushRunLoop_step (S m) run symbols), (flushRunLoop_step m run symbols).
    destruct (0 <? run); [|reflexivity].
    rewrite sar1. pose proof (toInt32_range (run - 1)) as Hr.
    assert (JS.toInt32 (run - 1) / 2 < 1073741824) by (apply Z.div_lt_upper_bound; lia).
    assert (2 ^ 30 <= 2 ^ Z.of_nat m) by (apply Z.pow_le_mono_r; lia).
    change (2 ^ 30) with 1073741824 in *.
    apply flushRunLoop_bound; lia. }
  induction Hn as [|m Hm IH].
  - reflexivity.
  - rewrite Hstep by exact Hm. exact IH.
Qed.

Lemma toString36_aux_step (fuel : nat) (n : Z) (acc : jsstring) :
  toString36_aux (S fuel) n acc
  = if n / 36 =? 0 then digit36 (n mod 36) :: acc
    else toString36_aux fuel (n / 36) (digit36 (n mod 36) :: acc).
Proof. reflexivity. Qed.

(** [toString(36)]: a number below 36^k has at most [k] digits. *)
Lemma toString36_aux_bound (fuel : nat) :
  forall (n : Z) (acc : jsstring),
    (1 <= fuel)%nat -> 0 <= n < 36 ^ Z.of_nat fuel ->
    toString36_aux (S fuel) n acc = toString36_aux fuel n acc.
Proof.
  induction fuel as [|fuel IH]; intros n acc Hf Hn; [lia|].
  rewrite (toString36_aux_step (S fuel) n acc), (toString36_aux_step fuel n acc).
  destruct (Z.eqb_spec (n / 36) 0) as [|Hq]; [reflexivity|].
  rewrite Nat2Z.inj_succ, Z.pow_succ_r in Hn by lia.
  assert (Hdiv : 0 <= n / 36 < 36 ^ Z.of_nat fuel).
  { split; [apply Z.div_pos; lia | apply Z.div_lt_upper_bound; lia]. }
  destruct fuel as [|fuel]; [simpl in Hdiv; lia|].
  apply IH; [lia | exact Hdiv].
Qed.

Lemma toString36_exact (n : Z) (fuel : nat) :
  0 <= n -> (S (Z.to_nat (Z.log2 n)) <= fuel)%nat ->
  toString36_aux fuel n [] = toString36 n.
Proof.
  intros Hn Hf. unfold toString36.
  assert (Hlt : n < 36 ^ Z.of_nat (S (Z.to_nat (Z.log2 n)))).
  { rewrite Nat2Z.inj_succ, Z2Nat.id by apply Z.log2_nonneg.
    destruct (Z.eq_dec n 0) as [-> | Hne]; [reflexivity|].
    pose proof (Z.log2_spec n ltac:(lia)) as [_ Hup].
    pose proof (Z.log2_nonneg n).
    assert (2 ^ Z.succ (Z.log2 n) <= 36 ^ Z.succ (Z.log2 n))
      by (apply Z.pow_le_mono_l; lia).
    lia. }
  induction Hf as [|m Hm IH]; [reflexivity|].
  rewrite toString36_aux_bound; [exact IH | lia |].
  split; [exact Hn|].
  assert (36 ^ Z.of_nat (S (Z.to_nat (Z.log2 n))) <= 36 ^ Z.of_nat m)
    by (apply Z.pow_le_mono_r; lia).
  lia.
Qed.

End LoopBounds.

(* ====================================================================== *)
(** * The renderer only appends *)
(* ====================================================================== *)

Section Renderer.

Lemma renderLoop_prefix (tokens : list (option jsstring)) :
  forall pendingCase pendingMode output s,
    renderLoop tokens pendingCase pendingMode output = Ok s ->
    exists tail, s = output ++ tail.
Proof.
  induction tokens as [|token rest IH]; intros pendingCase pendingMode output s H.
  - injection H as <-. exists []. rewrite app_nil_r. reflexivity.
  - assert (Hext : forall pc pm piece,
               renderLoop rest pc pm (output ++ piece) = Ok s ->
               exists tail, s = output ++ tail).
    { intros pc pm piece Hr. destruct (IH _ _ _ _ Hr) as [tail ->].
      exists (piece ++ tail). rewrite app_assoc. reflexivity. }
    assert (Hsame : forall pc pm,
               renderLoop rest pc pm output = Ok s -> exists tail, s = output ++ tail).
    { intros pc pm Hr. apply (IH _ _ _ _ Hr). }
    assert (Hbind : forall (m : result jsstring) pc,
               (piece <- m ;; renderLoop rest pc None (output ++ piece)) = Ok s ->
               exists tail, s = output ++ tail).
    { intros m pc Hr. destruct m; try discriminate Hr. apply (Hext _ _ _ Hr). }
    cbn [renderLoop] in H.
    repeat match type of H with
           | (if ?b then _ else _) = _ => destruct b; [apply (Hsame _ _ H)|]
           end.
    destruct pendingMode as [mode|].
    + destruct mode; try apply (Hbind _ _ H); apply (Hext _ _ _ H).
    + destruct pendingCase as [[|]|].
      * destruct token; [apply (Hbind _ _ H) | discriminate].
      * destruct token as [[|c t]|];
          [apply (Hext _ _ _ H) | apply (Hbind _ _ H) | apply (Hext _ _ _ H)].
      * apply (Hext _ _ _ H).
Qed.

(** The round trip of "Hello HELLO hello\n": the tokens come back last
    to first, so the text rendered starts with the digit 1 of the final
    newline count, not with "H". *)
Lemma hello_roundtrip_fails :
  wbwtDecompress (Some (wbwtCompress hello_text)) <> Ok hello_text.
Proof.
  assert (Hp : wbwtCompress hello_text
               = mkPayload [TOKEN_CASE_TITLE; TOKEN_WS_NEWLINE; TOKEN_WS_SPACE;
                            TOKEN_CASE_UPPER; js "1"; js "hello"]
                           1 [5; 1; 6; 0; 0; 2; 4; 5; 0; 2; 5; 6])
    by (vm_compute; reflexivity).
  rewrite Hp. unfold wbwtDecompress.
  cbn [dictionary mtf primaryIndex].
  match goal with
  | |- renderTokens ?toks <> _ =>
      assert (Ht : exists rest, toks = Some (js "1") :: rest)
        by (eexists; vm_compute; reflexivity)
  end.
  destruct Ht as [rest ->].
  unfold renderTokens. intros H.
  change (renderLoop (Some (js "1") :: rest) None None [])
    with (renderLoop rest None None ([] ++ js "1")) in H.
  apply renderLoop_prefix in H as [tail H].
  vm_compute in H. discriminate H.
Qed.

(** The round trip of "zzzzzzz b": rendered last to first, the word comes
    after the marker of a run of spaces and is read as its length,
    36^7 - 1 in base 36, which no string has. *)
Lemma long_word_roundtrip_throws :
  wbwtDecompress (Some (wbwtCompress (js "zzzzzzz b")))
  = Throw "RangeError: Invalid string length".
Proof. vm_compute. reflexivity. Qed.

(** The round trip of U+00E9 "Ab": rendered last to first, U+00E9 comes
    after the marker of a capitalized word and is converted by
    [toUpperCase], outside ASCII. *)
Lemma accented_token_roundtrip_is_case_mapped :
  wbwtDecompress (Some (wbwtCompress [233; 65; 98]))
  = Unmodelled "case mapping outside ASCII".
Proof. vm_compute. reflexivity. Qed.

End Renderer.

(* ====================================================================== *)
(** * Move-to-front *)
(* ====================================================================== *)

Section Shifts.

Lemma shiftDecode_step (j : nat) (order : list Z) :
  shiftDecode (S j) order
  = shiftDecode j (aset32 order (Z.of_nat (S j)) (JS.num (aget order (Z.of_nat j)))).
Proof. reflexivity. Qed.

Lemma shiftEncode_step (j : nat) (order positions : list Z) :
  shiftEncode (S j) order positions
  = shiftEncode j (aset32 order (Z.of_nat (S j)) (JS.num (aget order (Z.of_nat j))))
                (match aget order (Z.of_nat j) with
                 | Some m => aset32 positions m (Z.of_nat (S j))
                 | None => positions
                 end).
Proof. reflexivity. Qed.

Lemma shiftDecode_length (j : nat) :
  forall order, length (shiftDecode j order) = length order.
Proof.
  induction j as [|j IH]; intros order; [reflexivity|].
  rewrite shiftDecode_step, IH. apply aset32_length.
Qed.

(** The shift moves the places before [j] one place up. *)
Lemma shiftDecode_nth (j : nat) :
  forall order,
    (j < length order)%nat ->
    (forall k, (k < length order)%nat -> 0 <= nth k order 0 < 4294967296) ->
    forall k, nth k (shiftDecode j order) 0
              = if (1 <=? k)%nat && (k <=? j)%nat then nth (k - 1) order 0
                else nth k order 0.
Proof.
  induction j as [|j IH]; intros order Hj Hr k.
  - simpl shiftDecode.
    destruct (Nat.leb_spec 1 k); destruct (Nat.leb_spec k 0); simpl; try reflexivity; lia.
  - rewrite shiftDecode_step, (aget_nth order j) by lia. simpl JS.num.
    assert (Hv : 0 <= nth j order 0 < 4294967296) by (apply Hr; lia).
    rewrite IH.
    + rewrite !aset32_nth by exact Hv.
      destruct (Nat.leb_spec 1 k); destruct (Nat.leb_spec k j);
        destruct (Nat.leb_spec k (S j)); simpl; try lia.
      * destruct (Nat.eqb_spec (k - 1) (S j)); [lia | reflexivity].
      * destruct (Nat.eqb_spec k (S j)); [|lia].
        destruct (Nat.ltb_spec (S j) (length order)); [|lia].
        f_equal. lia.
      * destruct (Nat.eqb_spec k (S j)); [lia | reflexivity].
      * destruct (Nat.eqb_spec k (S j)); [lia | reflexivity].
    + rewrite aset32_length. lia.
    + intros i Hi. rewrite aset32_length in Hi. rewrite aset32_nth by exact Hv.
      destruct (Nat.eqb_spec i (S j)); [|apply Hr; exact Hi].
      destruct (Nat.ltb_spec (S j) (length order)); [exact Hv | lia].
Qed.

(** The encoder shifts [order] as the decoder does. *)
Lemma shiftEncode_fst (j : nat) :
  forall order positions, fst (shiftEncode j order positions) = shiftDecode j order.
Proof.
  induction j as [|j IH]; intros order positions; [reflexivity|].
  rewrite shiftEncode_step, shiftDecode_step. apply IH.
Qed.

End Shifts.

Section MoveToFront.

Variable a : nat.
Hypothesis a_small : Z.of_nat a <= 4294967296.

(** What the shift of the encoder leaves in [positions]: the symbol at
    place [i] before [j] is recorded at place [i + 1]; other symbols keep
    their record. *)
Lemma shiftEncode_snd (f : nat -> nat) (j : nat) :
  forall order positions,
    (j < length order)%nat -> length order = a -> length positions = a ->
    (forall i, (i < j)%nat -> nth i order 0 = Z.of_nat (f i) /\ (f i < a)%nat) ->
    (forall i i', (i < j)%nat -> (i' < j)%nat -> f i = f i' -> i = i') ->
    let positions' := snd (shiftEncode j order positions) in
    length positions' = a
    /\ (forall i, (i < j)%nat -> nth (f i) positions' 0 = Z.of_nat (S i))
    /\ (forall m, (forall i, (i < j)%nat -> f i <> m) ->
                  nth m positions' 0 = nth m positions 0).
Proof.
  induction j as [|j IH]; intros order positions Hj Hlo Hlp Hf Hinj; cbv zeta.
  - simpl. split; [exact Hlp|]. split; [intros i Hi; lia | intros m _; reflexivity].
  - rewrite shiftEncode_step, (aget_nth order j) by lia.
    destruct (Hf j ltac:(lia)) as [Hfj Hfa]. rewrite Hfj. simpl JS.num.
    assert (Hv : 0 <= Z.of_nat (S j) < 4294967296) by lia.
    assert (Hw : 0 <= Z.of_nat (f j) < 4294967296) by lia.
    destruct (IH (aset32 order (Z.of_nat (S j)) (Z.of_nat (f j)))
                 (aset32 positions (Z.of_nat (f j)) (Z.of_nat (S j)))) as (Hl & Hb & Hc).
    + rewrite aset32_length. lia.
    + rewrite aset32_length. exact Hlo.
    + rewrite aset32_length. exact Hlp.
    + intros i Hi. rewrite aset32_nth by exact Hw.
      destruct (Nat.eqb_spec i (S j)); [lia|]. apply Hf. lia.
    + intros i i' Hi Hi'. apply Hinj; lia.
    + split; [exact Hl|]. split.
      * intros i Hi. destruct (Nat.eq_dec i j) as [-> | Hne].
        -- rewrite Hc.
           ++ rewrite aset32_nth by exact Hv. rewrite Nat.eqb_refl.
              destruct (Nat.ltb_spec (f j) (length positions)); [reflexivity | lia].
           ++ intros i Hi' Heq. apply Hinj in Heq; lia.
        -- apply Hb. lia.
      * intros m Hm. rewrite Hc by (intros i Hi; apply Hm; lia).
        rewrite aset32_nth by exact Hv.
        destruct (Nat.eqb_spec m (f j)) as [-> | Hne]; [|reflexivity].
        elim (Hm j ltac:(lia)). reflexivity.
Qed.

End MoveToFront.

Section MoveToFrontSteps.

Variable a : nat.
Hypothesis a_small : Z.of_nat a <= 4294967296.

Lemma inverseArrays_identity :
  inverseArrays a (indicesUpTo a) (indicesUpTo a).
Proof.
  assert (Hn : forall k, (k < a)%nat -> nth k (indicesUpTo a) 0 = Z.of_nat k).
  { intros k Hk. unfold indicesUpTo.
    rewrite (nth_map_in Z.of_nat _ k O 0) by (rewrite length_seq; exact Hk).
    rewrite seq_nth by exact Hk. reflexivity. }
  unfold inverseArrays, indicesUpTo. rewrite !length_map, !length_seq.
  split; [reflexivity|]. split; [reflexivity|].
  split; intros k Hk; exists k; (split; [exact Hk|]); split; apply Hn; exact Hk.
Qed.

Lemma inverseArrays_injective (order positions : list Z) (k k' : nat) :
  inverseArrays a order positions ->
  (k < a)%nat -> (k' < a)%nat -> nth k order 0 = nth k' order 0 -> k = k'.
Proof.
  intros (_ & _ & Ho & _) Hk Hk' Heq.
  destruct (Ho k Hk) as (v & _ & Hv & Hp).
  destruct (Ho k' Hk') as (v' & _ & Hv' & Hp').
  assert (v = v') by lia. subst v'. lia.
Qed.

(** One symbol through the encoder, and its output through the decoder:
    the decoder gives the symbol back and both are left with the same
    [order]. *)
Lemma mtf_step (order positions acc accd : list Z) (v : nat) :
  inverseArrays a order positions -> (v < a)%nat ->
  exists (pos : nat) (order' positions' : list Z),
    mtfEncodeStep (order, positions, acc) (Z.of_nat v)
    = (order', positions', acc ++ [Z.of_nat pos])
    /\ mtfDecodeStep (order, accd) (Z.of_nat pos) = (order', accd ++ [Z.of_nat v])
    /\ inverseArrays a order' positions'.
Proof.
  intros Hinv Hv.
  pose proof Hinv as (Hlo & Hlp & Ho & Hp).
  destruct (Hp v Hv) as (pos & Hpos & Hpv & Hov).
  assert (Hrange : forall k, (k < length order)%nat -> 0 <= nth k order 0 < 4294967296).
  { intros k Hk. rewrite Hlo in Hk. destruct (Ho k Hk) as (u & Hu & -> & _). lia. }
  exists pos.
  unfold mtfEncodeStep, mtfDecodeStep.
  rewrite (aget_nth positions v) by lia. rewrite Hpv.
  rewrite (aget_nth order pos) by lia. rewrite Hov. simpl JS.num.
  destruct pos as [|p].
  - exists order, positions. simpl. split; [reflexivity|]. split; [reflexivity | exact Hinv].
  - destruct (Z.eqb_spec (Z.of_nat (S p)) 0) as [H0 | _]; [lia|].
    rewrite Nat2Z.id.
    pose proof (shiftEncode_fst (S p) order positions) as Hfst.
    set (f := fun i : nat => Z.to_nat (nth i order 0)).
    assert (Hf : forall i, (i < a)%nat -> nth i order 0 = Z.of_nat (f i) /\ (f i < a)%nat).
    { intros i Hi. destruct (Ho i Hi) as (u & Hu & Hiu & _).
      unfold f. rewrite Hiu, Nat2Z.id. split; [reflexivity | exact Hu]. }
    assert (Hfinj : forall i i', (i < a)%nat -> (i' < a)%nat -> f i = f i' -> i = i').
    { intros i i' Hi Hi' Heq. apply (inverseArrays_injective order positions); try assumption.
      rewrite (proj1 (Hf i Hi)), (proj1 (Hf i' Hi')), Heq. reflexivity. }
    destruct (shiftEncode_snd a a_small f (S p) order positions) as (Hl' & Hb & Hc).
    + lia.
    + exact Hlo.
    + exact Hlp.
    + intros i Hi. apply Hf. lia.
    + intros i i' Hi Hi'. apply Hfinj; lia.
    + destruct (shiftEncode (S p) order positions) as [o' p'] eqn:Hse.
      simpl fst in Hfst. simpl snd in Hl', Hb, Hc. subst o'.
      exists (aset32 (shiftDecode (S p) order) 0 (Z.of_nat v)), (aset32 p' (Z.of_nat v) 0).
      split; [reflexivity|]. split; [reflexivity|].
      assert (Hvz : 0 <= Z.of_nat v < 4294967296) by lia.
      assert (Hfp : f (S p) = v) by (unfold f; rewrite Hov; apply Nat2Z.id).
      assert (Hno : forall k, nth k (aset32 (shiftDecode (S p) order) 0 (Z.of_nat v)) 0
                    = if Nat.eqb k 0 then Z.of_nat v
                      else if (k <=? S p)%nat then nth (k - 1) order 0 else nth k order 0).
      { intros k. rewrite (aset32_nth _ O (Z.of_nat v) k Hvz).
        rewrite shiftDecode_length.
        destruct (Nat.eqb_spec k 0) as [-> | Hk0].
        - destruct (Nat.ltb_spec 0 (length order)); [reflexivity | lia].
        - rewrite shiftDecode_nth by (try exact Hrange; lia).
          destruct (Nat.leb_spec 1 k); [reflexivity | lia]. }
      assert (Hnp : forall m, nth m (aset32 p' (Z.of_nat v) 0) 0
                    = if Nat.eqb m v then 0 else nth m p' 0).
      { intros m. rewrite aset32_nth by lia.
        destruct (Nat.eqb_spec m v); [|reflexivity].
        destruct (Nat.ltb_spec v (length p')); [reflexivity | lia]. }
      unfold inverseArrays. rewrite !aset32_length, shiftDecode_length.
      split; [exact Hlo|]. split; [exact Hl'|]. split.
      * intros k Hk. rewrite Hno.
        destruct (Nat.eqb_spec k 0) as [-> | Hk0].
        { exists v. split; [exact Hv|]. split; [reflexivity|].
          rewrite Hnp, Nat.eqb_refl. reflexivity. }
        destruct (Nat.leb_spec k (S p)) as [Hle | Hgt].
        { destruct (Hf (k - 1)%nat ltac:(lia)) as [Hfk Hfa].
          exists (f (k - 1)%nat). split; [exact Hfa|]. split; [exact Hfk|].
          rewrite Hnp.
          destruct (Nat.eqb_spec (f (k - 1)%nat) v) as [Heq | Hne].
          - rewrite <- Hfp in Heq. apply Hfinj in Heq; lia.
          - rewrite Hb by lia. f_equal. lia. }
        { destruct (Hf k Hk) as [Hfk Hfa].
          exists (f k). split; [exact Hfa|]. split; [exact Hfk|].
          rewrite Hnp.
          destruct (Nat.eqb_spec (f k) v) as [Heq | Hne].
          - rewrite <- Hfp in Heq. apply Hfinj in Heq; lia.
          - rewrite Hc.
            + destruct (Ho k Hk) as (u & Hu & Hku & Hpu).
              assert (f k = u) by (unfold f; rewrite Hku; apply Nat2Z.id).
              subst u. exact Hpu.
            + intros i Hi Heq. apply Hfinj in Heq; lia. }
      * intros m Hm. rewrite Hnp.
        destruct (Nat.eqb_spec m v) as [-> | Hmv].
        { exists O. split; [lia|]. split; [reflexivity|]. rewrite Hno. reflexivity. }
        destruct (Hp m Hm) as (k0 & Hk0 & Hpm & Hom).
        assert (Hfk0 : f k0 = m) by (unfold f; rewrite Hom; apply Nat2Z.id).
        assert (Hk0p : k0 <> S p).
        { intros ->. rewrite Hov in Hom. lia. }
        destruct (Nat.lt_ge_cases k0 (S p)) as [Hlt | Hge].
        { exists (S k0). split; [lia|]. split.
          - rewrite <- Hfk0. apply Hb. exact Hlt.
          - rewrite Hno. simpl Nat.eqb.
            destruct (Nat.leb_spec (S k0) (S p)); [|lia].
            replace (S k0 - 1)%nat with k0 by lia. exact Hom. }
        { exists k0. split; [exact Hk0|]. split.
          - rewrite Hc; [exact Hpm|].
            intros i Hi Heq. rewrite <- Hfk0 in Heq. apply Hfinj in Heq; lia.
          - rewrite Hno.
            destruct (Nat.eqb_spec k0 0); [lia|].
            destruct (Nat.leb_spec k0 (S p)); [lia | exact Hom]. }
Qed.

(** A sequence through the encoder, and its output through the decoder. *)
Lemma mtf_fold (sequence : list Z) :
  forall order positions acc accd,
    inverseArrays a order positions ->
    (forall v, In v sequence -> 0 <= v < Z.of_nat a) ->
    exists order' positions' out,
      fold_left mtfEncodeStep sequence (order, positions, acc) = (order', positions', acc ++ out)
      /\ fold_left mtfDecodeStep out (order, accd) = (order', accd ++ sequence)
      /\ length out = length sequence.
Proof.
  induction sequence as [|v sequence IH]; intros order positions acc accd Hinv Hr.
  - exists order, positions, []. simpl. rewrite !app_nil_r. repeat split.
  - assert (Hv : 0 <= v < Z.of_nat a) by (apply Hr; left; reflexivity).
    destruct (Z_of_nat_complete v ltac:(lia)) as [vn ->].
    destruct (mtf_step order positions acc accd vn Hinv ltac:(lia))
      as (pos & order1 & positions1 & Henc & Hdec & Hinv1).
    destruct (IH order1 positions1 (acc ++ [Z.of_nat pos]) (accd ++ [Z.of_nat vn]) Hinv1)
      as (order' & positions' & out & Hfe & Hfd & Hlen).
    { intros u Hu. apply Hr. right. exact Hu. }
    exists order', positions', (Z.of_nat pos :: out).
    cbn [fold_left]. rewrite Henc, Hdec, Hfe, Hfd, <- !app_assoc. simpl.
    repeat split. rewrite Hlen. reflexivity.
Qed.

End MoveToFrontSteps.

(** Decoding what the encoder gives for a sequence of symbols below
    [alphabetSize] gives the sequence back. *)
Lemma moveToFront_roundtrip (sequence : list Z) (a : nat) :
  Z.of_nat a <= 4294967296 ->
  (forall v, In v sequence -> 0 <= v < Z.of_nat a) ->
  moveToFrontDecode (moveToFrontEncode sequence (Z.of_nat a)) (Z.of_nat a) = sequence
  /\ length (moveToFrontEncode sequence (Z.of_nat a)) = length sequence.
Proof.
  intros Ha Hr. unfold moveToFrontDecode, moveToFrontEncode. rewrite Nat2Z.id.
  destruct (mtf_fold a Ha sequence (indicesUpTo a) (indicesUpTo a) [] []
                     (inverseArrays_identity a) Hr)
    as (order' & positions' & out & Hfe & Hfd & Hlen).
  rewrite Hfe. simpl snd. rewrite Hfd. simpl. split; [reflexivity | exact Hlen].
Qed.

(* ====================================================================== *)
(** * Compress, then decompress *)
(* ====================================================================== *)

Section Pipeline.

Lemma wbwtCompress_nonempty (text : jsstring) :
  normalizeTokens (tokenize text) <> [] ->
  let r := tokensToIds (normalizeTokens (tokenize text)) in
  let b := burrowsWheelerTransform (ids r ++ [SENTINEL_ID]) in
  wbwtCompress text
  = mkPayload (sortedDictionary r) (bwt_primaryIndex b)
              (moveToFrontEncode (lastColumn b) (len (sortedDictionary r) + 1)).
Proof.
  intros H. cbv zeta. unfold wbwtCompress.
  destruct (normalizeTokens (tokenize text)); [elim H; reflexivity | reflexivity].
Qed.

Lemma wbwtDecompress_nonempty (p : WBWTPayload) :
  dictionary p <> [] -> mtf p <> [] ->
  let alphabetSize := len (dictionary p) + 1 in
  wbwtDecompress (Some p)
  = renderTokens
      (map (fun id => dictGet (dictionary p) (id - 1))
           (filter (fun id => negb (id =? SENTINEL_ID))
                   (inverseBurrowsWheelerTransform
                      (moveToFrontDecode (mtf p) alphabetSize)
                      (primaryIndex p) alphabetSize))).
Proof.
  intros Hd Hm. cbv zeta. unfold wbwtDecompress.
  destruct (dictionary p); [elim Hd; reflexivity|].
  destruct (mtf p); [elim Hm; reflexivity | reflexivity].
Qed.

(** The ids of present tokens are not the sentinel and name their entry. *)
Lemma filter_ids (dict : list jsstring) (tokens : list jsstring) :
  (forall t, In t tokens -> In t dict) ->
  filter (fun id => negb (id =? SENTINEL_ID)) (map (dictionaryId dict) tokens)
  = map (dictionaryId dict) tokens.
Proof.
  intros H. induction tokens as [|t tokens IH]; [reflexivity|].
  simpl. pose proof (dictionaryId_in dict t (H t (or_introl eq_refl))) as Hid.
  unfold SENTINEL_ID at 1.
  destruct (Z.eqb_spec (dictionaryId dict t) 0); [lia|]. simpl.
  rewrite IH; [reflexivity|]. intros u Hu. apply H. right. exact Hu.
Qed.

Lemma dictGet_ids (dict : list jsstring) (tokens : list jsstring) :
  (forall t, In t tokens -> In t dict) ->
  map (fun id => dictGet dict (id - 1)) (map (dictionaryId dict) tokens)
  = map Some tokens.
Proof.
  intros H. induction tokens as [|t tokens IH]; [reflexivity|].
  simpl. rewrite IH by (intros u Hu; apply H; right; exact Hu).
  f_equal. destruct (indexOf_in t dict (H t (or_introl eq_refl))) as [i Hi].
  unfold dictionaryId. rewrite Hi. unfold dictGet.
  destruct (Z.ltb_spec (Z.of_nat i + 1 - 1) 0); [lia|].
  replace (Z.to_nat (Z.of_nat i + 1 - 1)) with i by lia.
  apply indexOf_nth. exact Hi.
Qed.

(** C1 (the source diverges from the claim).  The claim: decompressing
    the payload of a text gives the text back.  The source: the ids come
    out of the inverse transform in reverse order (see C3), so for every
    text (of fewer than 2^32 - 1 normalized tokens, what the [Uint32Array]
    of the ids can number) the result is the rendering of the normalized
    tokens taken from the last to the first, not of the tokens in their
    order. *)
Theorem C1_decompress_renders_tokens_in_reverse (text : jsstring) :
  len (normalizeTokens (tokenize text)) + 1 < 4294967296 ->
  wbwtDecompress (Some (wbwtCompress text))
  = renderTokens (map Some (rev (normalizeTokens (tokenize text)))).
Proof.
  cbv zeta. intros Hlen.
  destruct (normalizeTokens (tokenize text)) as [|t0 tokens0] eqn:Htok.
  { unfold wbwtCompress. rewrite Htok. reflexivity. }
  rewrite <- Htok in *.
  set (tokens := normalizeTokens (tokenize text)) in *.
  assert (Hne : tokens <> []) by (rewrite Htok; discriminate).
  rewrite (wbwtCompress_nonempty text Hne). cbv zeta. fold tokens.
  destruct (tokensToIds_spec tokens ltac:(lia)) as (Hsorted & Hin & Hids).
  set (dict := sortedDictionary (tokensToIds tokens)) in *.
  set (x := ids (tokensToIds tokens) ++ [SENTINEL_ID]).
  assert (Hdict : In t0 dict) by (apply Hin; rewrite Htok; left; reflexivity).
  assert (Hdlen : (length dict <= length tokens)%nat).
  { apply NoDup_incl_length; [apply strict_sorted_nodup; exact Hsorted|].
    intros k Hk. apply Hin. exact Hk. }
  assert (Hxlen : length x = S (length tokens)).
  { unfold x. rewrite length_app, Hids, length_map. simpl. lia. }
  assert (Hrange : forall u, In u x -> 0 <= u < Z.of_nat (S (length dict))).
  { intros u Hu. unfold x in Hu. apply in_app_or in Hu as [Hu | [<- | []]].
    - rewrite Hids in Hu. apply in_map_iff in Hu as (t & <- & Ht).
      pose proof (dictionaryId_in dict t (proj2 (Hin t) Ht)) as H. unfold len in H. lia.
    - unfold SENTINEL_ID. lia. }
  assert (Ha : Z.of_nat (S (length dict)) <= 4294967296) by (unfold len in Hlen; lia).
  assert (Hu : uniqueAt x SENTINEL_ID (length tokens)).
  { assert (Hil : length (ids (tokensToIds tokens)) = length tokens)
      by (rewrite Hids; apply length_map).
    split; [lia|]. split.
    - unfold at_, x. rewrite app_nth2 by lia. rewrite Hil, Nat.sub_diag. reflexivity.
    - intros i Hi Hat. destruct (Nat.eq_dec i (length tokens)) as [-> | Hne']; [reflexivity|].
      exfalso. unfold at_, x in Hat. rewrite app_nth1 in Hat by lia.
      rewrite Hids in Hat.
      assert (Him : In (nth i (map (dictionaryId dict) tokens) 0)
                       (map (dictionaryId dict) tokens))
        by (apply nth_In; rewrite length_map; lia).
      rewrite Hat in Him. apply in_map_iff in Him as (t & Ht & Htin).
      pose proof (dictionaryId_in dict t (proj2 (Hin t) Htin)) as H.
      unfold SENTINEL_ID in Ht. lia. }
  destruct (bwt_lastColumn x (S (length dict)) SENTINEL_ID (length tokens) Hu Hrange Ha)
    as [Hcl Hcin].
  assert (Halpha : len dict + 1 = Z.of_nat (S (length dict))) by (unfold len; lia).
  destruct (moveToFront_roundtrip (lastColumn (burrowsWheelerTransform x))
                                  (S (length dict)) Ha)
    as [Hmtf Hmlen].
  { intros u Hu'. apply Hrange. apply Hcin. exact Hu'. }
  rewrite wbwtDecompress_nonempty; cbn [dictionary mtf primaryIndex].
  - rewrite Halpha, Hmtf.
    pose proof (bwt_roundtrip_reverses x (Z.of_nat (S (length dict))) SENTINEL_ID
                                       (length tokens) Hu Hrange Ha) as Hrt.
    unfold bwt_then_inverse in Hrt. cbv zeta in Hrt.
    rewrite Hrt by (unfold len in Hlen |- *; lia).
    unfold x. rewrite rev_app_distr. cbn [rev app filter].
    rewrite Z.eqb_refl. cbn [negb].
    rewrite Hids, <- map_rev.
    rewrite filter_ids by (intros t Ht; apply Hin; apply in_rev; exact Ht).
    rewrite dictGet_ids by (intros t Ht; apply Hin; apply in_rev; exact Ht).
    reflexivity.
  - intros H. rewrite H in Hdict. destruct Hdict.
  - intros H. rewrite Halpha in H. rewrite H in Hmlen. simpl in Hmlen. lia.
Qed.

End Pipeline.

(** Three small texts through [wbwtCompress] and [wbwtDecompress]: a
    single space, whose normalized tokens are \x1Fs, 1, comes back as "1";
    "a!" comes back as "!a"; and "a b", whose normalized tokens are a,
    \x1Fs, 1, b, comes back as "b1" followed by ten spaces (the marker
    \x1Fs now precedes "a", read as a length in base 36). *)
Example decompress_small_texts :
  wbwtDecompress (Some (wbwtCompress (js " "))) = Ok (js "1")
  /\ wbwtDecompress (Some (wbwtCompress (js "a!"))) = Ok (js "!a")
  /\ wbwtDecompress (Some (wbwtCompress (js "a b"))) = Ok (js "b1          ").
Proof. repeat split; vm_compute; reflexivity. Qed.

(** The theorem of C1 at the text "a b": the result is "b1" followed by
    ten spaces, not "a b". *)
Lemma C1_witness :
  wbwtDecompress (Some (wbwtCompress (js "a b"))) = Ok (js "b1          ")
  /\ wbwtDecompress (Some (wbwtCompress (js "a b"))) <> Ok (js "a b").
Proof.
  assert (H : wbwtDecompress (Some (wbwtCompress (js "a b"))) = Ok (js "b1          ")).
  { rewrite (C1_decompress_renders_tokens_in_reverse (js "a b")).
    - vm_compute. reflexivity.
    - vm_compute. reflexivity. }
  split; [exact H|]. rewrite H. intros E. vm_compute in E. discriminate E.
Defined.

(* ====================================================================== *)
(** * The container throws on the header only *)
(* ====================================================================== *)

Section NoOtherCheck.

Lemma bind_noThrow {A B : Type} (m : result A) (k : A -> result B) :
  noThrow m -> (forall a, noThrow (k a)) -> noThrow (bind m k).
Proof. destruct m; simpl; auto. Qed.

Create HintDb nothrow.

Ltac no_throw :=
  repeat first
    [ exact I
    | solve [auto with nothrow]
    | apply bind_noThrow; [| intros ?]
    | match goal with
      | |- noThrow (if ?b then _ else _) => destruct b
      | |- noThrow (match ?x with _ => _ end) => destruct x
      end ].

Lemma treeAddLoop_noThrow (fuel : nat) :
  forall size tree idx delta, noThrow (treeAddLoop fuel size tree idx delta).
Proof.
  induction fuel as [|fuel IH]; intros; simpl; no_throw.
Qed.
#[local] Hint Resolve treeAddLoop_noThrow : nothrow.

Lemma rebuildLoop_noThrow (fuel n : nat) :
  forall i value m, noThrow (rebuildLoop fuel n i value m).
Proof.
  induction n as [|n IH]; intros; simpl; no_throw.
Qed.
#[local] Hint Resolve rebuildLoop_noThrow : nothrow.

Lemma fenwickSumLoop_noThrow (fuel : nat) :
  forall tree idx acc, noThrow (fenwickSumLoop fuel tree idx acc).
Proof.
  induction fuel as [|fuel IH]; intros; simpl; no_throw.
Qed.
#[local] Hint Resolve fenwickSumLoop_noThrow : nothrow.

Lemma topBitLoop_noThrow (fuel : nat) :
  forall size bit, noThrow (topBitLoop fuel size bit).
Proof.
  induction fuel as [|fuel IH]; intros; simpl; no_throw.
Qed.
#[local] Hint Resolve topBitLoop_noThrow : nothrow.

Lemma descendLoop_noThrow (fuel : nat) :
  forall m value idx bit sum, noThrow (descendLoop fuel m value idx bit sum).
Proof.
  induction fuel as [|fuel IH]; intros; simpl; no_throw.
Qed.
#[local] Hint Resolve descendLoop_noThrow : nothrow.

Lemma floorDiv_noThrow (a b : Z) : noThrow (floorDiv a b).
Proof. unfold floorDiv. no_throw. Qed.
#[local] Hint Resolve floorDiv_noThrow : nothrow.

Lemma decodeRenorm_noThrow (fuel : nat) :
  forall d, noThrow (decodeRenorm fuel d).
Proof.
  induction fuel as [|fuel IH]; intros; simpl; no_throw.
Qed.
#[local] Hint Resolve decodeRenorm_noThrow : nothrow.

Lemma updateModel_noThrow (fuel : nat) (model : FenwickTree) (symbolIndex : Z) :
  noThrow (updateModel fuel model symbolIndex).
Proof.
  unfold updateModel, fenwickAdd, fenwickRescale. no_throw.
Qed.
#[local] Hint Resolve updateModel_noThrow : nothrow.

Lemma decodeSymbol_noThrow (fuel : nat) (d : ArithmeticDecoder) (model : FenwickTree) :
  noThrow (decodeSymbol fuel d model).
Proof.
  unfold decodeSymbol, findByCumulative, fenwickSum, freqAt. no_throw.
Qed.
#[local] Hint Resolve decodeSymbol_noThrow : nothrow.

Lemma decodeLoop_noThrow (fuel : nat) (store : Z -> Z) (n : nat) :
  forall d model output, noThrow (decodeLoop fuel store n d model output).
Proof.
  induction n as [|n IH]; intros; simpl; no_throw.
Qed.
#[local] Hint Resolve decodeLoop_noThrow : nothrow.

Lemma decodeMtfRleLoop_noThrow (fuel : nat) :
  forall bytes tokenCount mtf index offset,
    noThrow (decodeMtfRleLoop fuel bytes tokenCount mtf index offset).
Proof.
  induction fuel as [|fuel IH]; intros; simpl; no_throw.
Qed.
#[local] Hint Resolve decodeMtfRleLoop_noThrow : nothrow.

(** What [readVarint] returns went through [>>> 0]. *)
Lemma readVarintLoop_range (rest : list Z) :
  forall result shift offset,
    0 <= fst (readVarintLoop rest result shift offset) < 4294967296.
Proof.
  assert (Hshr : forall x, 0 <= JS.shr x 0 < 4294967296).
  { intros x. unfold JS.shr. change (JS.toUint32 0 mod 32) with 0.
    rewrite Z.shiftr_0_r. apply Z.mod_pos_bound. lia. }
  induction rest as [|byte rest IH]; intros result shift offset.
  - apply Hshr.
  - cbn [readVarintLoop].
    destruct (JS.and byte 128 =? 0); [apply Hshr | apply IH].
Qed.

Lemma readVarint_range (bytes : list Z) (offset : Z) :
  0 <= fst (readVarint bytes offset) < 4294967296.
Proof. apply readVarintLoop_range. Qed.

(** A count that is not negative allocates or is refused by the engine;
    it is no RangeError of its own. *)
Lemma newTypedArray_noThrow (n : Z) :
  0 <= n < 9007199254740992 -> noThrow (newTypedArray n).
Proof.
  intros Hn. unfold newTypedArray.
  destruct (Z.ltb_spec n 0); [lia|].
  destruct (n <=? MAX_ARRAY_LENGTH); [exact I|].
  destruct (Z.ltb_spec n 9007199254740992); [exact I | lia].
Qed.

Lemma newFenwickTree_noThrow (size : Z) :
  0 <= size < 4294967300 -> noThrow (newFenwickTree size).
Proof.
  intros Hs. unfold newFenwickTree.
  apply bind_noThrow; [apply newTypedArray_noThrow; lia | intros tree].
  apply bind_noThrow; [apply newTypedArray_noThrow; lia | intros freq].
  exact I.
Qed.

Lemma entropyDecodeSymbols_noThrow (fuel : nat) (bytes : list Z) (symbolCount alphabetSize : Z) :
  0 <= symbolCount < 4294967296 -> 0 <= alphabetSize < 4294967300 ->
  noThrow (entropyDecodeSymbols fuel bytes symbolCount alphabetSize).
Proof.
  intros Hc Ha. unfold entropyDecodeSymbols, fenwickReset.
  destruct (symbolCount =? 0); [exact I|].
  apply bind_noThrow; [apply newFenwickTree_noThrow; exact Ha | intros model].
  apply bind_noThrow; [no_throw | intros model'].
  cbv zeta.
  apply bind_noThrow; [apply newTypedArray_noThrow; lia | intros fresh].
  no_throw.
Qed.

Lemma entropyDecodeBytes_noThrow (fuel : nat) (bytes : list Z) (outputLength : Z) :
  0 <= outputLength < 4294967296 ->
  noThrow (entropyDecodeBytes fuel bytes outputLength).
Proof.
  intros Hc. unfold entropyDecodeBytes, fenwickReset.
  destruct (outputLength =? 0); [exact I|].
  apply bind_noThrow; [apply newFenwickTree_noThrow; lia | intros model].
  apply bind_noThrow; [no_throw | intros model'].
  cbv zeta.
  apply bind_noThrow; [apply newTypedArray_noThrow; lia | intros fresh].
  no_throw.
Qed.

Lemma decodeMtfRle_noThrow (fuel : nat) (bytes : list Z) (offset tokenCount : Z) :
  0 <= tokenCount < 4294967296 ->
  noThrow (decodeMtfRle fuel bytes offset tokenCount).
Proof.
  intros Hc. unfold decodeMtfRle.
  apply bind_noThrow; [apply newTypedArray_noThrow; lia | intros mtf].
  no_throw.
Qed.

Lemma symbolsToMtf_noThrow (symbols : list Z) (tokenCount : Z) :
  0 <= tokenCount < 4294967296 ->
  noThrow (symbolsToMtf symbols tokenCount).
Proof.
  intros Hc. unfold symbolsToMtf.
  apply bind_noThrow; [apply newTypedArray_noThrow; lia | intros mtf].
  exact I.
Qed.

Lemma readFrontCoded_noThrow (n : nat) (bytes : list Z) :
  forall offset prevBytes dictionary,
    noThrow (readFrontCoded n bytes offset prevBytes dictionary).
Proof.
  induction n as [|n IH]; intros offset prevBytes dictionary; [exact I|].
  cbn [readFrontCoded].
  pose proof (readVarint_range bytes offset) as Hp.
  destruct (readVarint bytes offset) as [prefix offset1]. cbn [fst] in Hp.
  pose proof (readVarint_range bytes offset1) as Hs.
  destruct (readVarint bytes offset1) as [suffixLength offset2]. cbn [fst] in Hs.
  apply bind_noThrow; [apply newTypedArray_noThrow; lia | intros fresh].
  apply IH.
Qed.

(** Past the two header checks [deserializeWBWT] checks nothing in the
    frame.  The counts it reads are not negative, so no allocation is a
    RangeError of its own, and the embedding never yields [Throw]: what
    is left to throw in the source is an allocation that the engine
    refuses, which is [Unmodelled] here. *)
Lemma deserialize_checks_the_header_only (fuel : nat) (bytes : list Z) :
  readUint32LE bytes 0 = WBWT_MAGIC ->
  versionSupported (readUint32LE bytes 4) = true ->
  noThrow (deserializeWBWT fuel bytes).
Proof.
  intros Hm Hv. unfold deserializeWBWT. rewrite Hm.
  change (negb (WBWT_MAGIC =? WBWT_MAGIC)) with false. cbv iota.
  pose proof (readVarint_range bytes 8) as Hd.
  destruct (readVarint bytes 8) as [dictCount o1]. cbn [fst] in Hd.
  pose proof (readVarint_range bytes o1) as Ht.
  destruct (readVarint bytes o1) as [tokenCount o2]. cbn [fst] in Ht.
  pose proof (readVarint_range bytes o2) as Hp.
  destruct (readVarint bytes o2) as [primaryIndex o3]. cbn [fst] in Hp.
  unfold versionSupported in Hv.
  destruct (readUint32LE bytes 4 =? 2) eqn:H2;
    destruct (readUint32LE bytes 4 =? 3) eqn:H3;
    destruct (readUint32LE bytes 4 =? WBWT_VERSION) eqn:H4;
    try discriminate Hv; cbn [negb andb].
  all: try (pose proof (readVarint_range bytes o3) as Hs;
            destruct (readVarint bytes o3) as [symbolCount o4]; cbn [fst] in Hs).
  all: apply bind_noThrow;
    [first [apply readFrontCoded_noThrow | exact I] | intros [dictionary o5]].
  all: cbv zeta.
  all: try (apply bind_noThrow;
            [apply entropyDecodeSymbols_noThrow; lia | intros symbols];
            apply bind_noThrow; [apply symbolsToMtf_noThrow; lia | intros mtf];
            exact I).
  all: apply bind_noThrow;
    [| intros mtfPacked;
       apply bind_noThrow; [apply decodeMtfRle_noThrow; lia | intros [mtf o6]; exact I]].
  all: try exact I.
  all: pose proof (readVarint_range bytes o5) as Hl;
    destruct (readVarint bytes o5) as [packedLength o6]; cbn [fst] in Hl;
    apply entropyDecodeBytes_noThrow; lia.
Qed.

(** A frame of 16 bytes that announces 2^32 - 1 tokens: whether the call
    returns depends on whether the engine allocates an array that long. *)
Lemma huge_token_count_is_an_allocation :
  deserializeWBWT 0 huge_count_frame
  = Unmodelled "whether the engine allocates an array this long".
Proof. vm_compute. reflexivity. Qed.

End NoOtherCheck.

(* ====================================================================== *)
(** * 32-bit operators *)
(* ====================================================================== *)

Section Int32.

Lemma toUint32_range (x : Z) : 0 <= JS.toUint32 x < 4294967296.
Proof. unfold JS.toUint32. apply Z.mod_pos_bound. lia. Qed.

Lemma toUint32_idem (x : Z) : JS.toUint32 (JS.toUint32 x) = JS.toUint32 x.
Proof. apply toUint32_small. apply toUint32_range. Qed.

Lemma toUint32_toInt32 (x : Z) : JS.toUint32 (JS.toInt32 x) = JS.toUint32 x.
Proof.
  unfold JS.toUint32, JS.toInt32.
  destruct (x mod 4294967296 <? 2147483648).
  - apply Z.mod_mod. lia.
  - replace (x mod 4294967296 - 4294967296)
      with (x mod 4294967296 + (-1) * 4294967296) by lia.
    rewrite Z.mod_add by lia. apply Z.mod_mod. lia.
Qed.

Lemma toInt32_toUint32 (x : Z) : JS.toInt32 (JS.toUint32 x) = JS.toInt32 x.
Proof.
  unfold JS.toInt32. fold (JS.toUint32 (JS.toUint32 x)). fold (JS.toUint32 x).
  rewrite toUint32_idem. reflexivity.
Qed.

Lemma toUint32_bits (x n : Z) :
  0 <= n ->
  Z.testbit (JS.toUint32 x) n = if n <? 32 then Z.testbit x n else false.
Proof.
  intros Hn. unfold JS.toUint32. change 4294967296 with (2 ^ 32).
  destruct (Z.ltb_spec n 32).
  - apply Z.mod_pow2_bits_low. lia.
  - apply Z.mod_pow2_bits_high. lia.
Qed.

Lemma toInt32_bits_low (x n : Z) :
  0 <= n < 32 -> Z.testbit (JS.toInt32 x) n = Z.testbit x n.
Proof.
  intros Hn.
  transitivity (Z.testbit (JS.toUint32 (JS.toInt32 x)) n).
  - rewrite toUint32_bits by lia. destruct (Z.ltb_spec n 32); [reflexivity | lia].
  - rewrite toUint32_toInt32, toUint32_bits by lia.
    destruct (Z.ltb_spec n 32); [reflexivity | lia].
Qed.

(** [(a | b) >>> 0] *)
Lemma toUint32_or (a b : Z) :
  JS.toUint32 (JS.or a b) = Z.lor (JS.toUint32 a) (JS.toUint32 b).
Proof.
  apply Z.bits_inj'. intros n Hn. unfold JS.or.
  rewrite Z.lor_spec, !toUint32_bits by exact Hn.
  destruct (Z.ltb_spec n 32); [|reflexivity].
  rewrite Z.lor_spec, !toInt32_bits_low by lia. reflexivity.
Qed.

(** [(a & b) >>> 0] *)
Lemma toUint32_and (a b : Z) :
  JS.toUint32 (JS.and a b) = Z.land (JS.toUint32 a) (JS.toUint32 b).
Proof.
  apply Z.bits_inj'. intros n Hn. unfold JS.and.
  rewrite Z.land_spec, !toUint32_bits by exact Hn.
  destruct (Z.ltb_spec n 32); [|reflexivity].
  rewrite Z.land_spec, !toInt32_bits_low by lia. reflexivity.
Qed.

Lemma testbit_above (m k n : Z) :
  0 <= m < 2 ^ k -> k <= n -> Z.testbit m n = false.
Proof.
  intros Hm Hk. destruct (Z.eq_dec m 0) as [-> | Hne]; [apply Z.bits_0|].
  apply Z.bits_above_log2; [lia|].
  assert (H : Z.log2 m < k) by (apply Z.log2_lt_pow2; lia). lia.
Qed.

(** [a & m] for a mask [m] below 2^31. *)
Lemma and_mask (a m : Z) :
  0 <= m < 2147483648 -> JS.and a m = Z.land (JS.toUint32 a) m.
Proof.
  intros Hm. unfold JS.and. rewrite (toInt32_small m) by exact Hm.
  apply Z.bits_inj'. intros n Hn. rewrite !Z.land_spec.
  destruct (Z.ltb_spec n 32).
  - rewrite toInt32_bits_low, toUint32_bits by lia.
    destruct (Z.ltb_spec n 32); [reflexivity | lia].
  - rewrite (testbit_above m 31 n) by (change (2 ^ 31) with 2147483648; lia).
    rewrite !andb_false_r. reflexivity.
Qed.

(** [a & (2^k - 1)] *)
Lemma and_ones (a k : Z) :
  0 <= k <= 31 -> JS.and a (Z.ones k) = JS.toUint32 a mod 2 ^ k.
Proof.
  intros Hk. rewrite and_mask.
  - apply Z.land_ones. lia.
  - rewrite Z.ones_equiv.
    assert (H : 0 < 2 ^ k <= 2 ^ 31) by (split; [apply Z.pow_pos_nonneg; lia | apply Z.pow_le_mono_r; lia]).
    change (2 ^ 31) with 2147483648 in H. lia.
Qed.

Lemma and_255 (a : Z) : JS.and a 255 = JS.toUint32 a mod 256.
Proof. apply (and_ones a 8). lia. Qed.

Lemma and_127 (a : Z) : JS.and a 127 = JS.toUint32 a mod 128.
Proof. apply (and_ones a 7). lia. Qed.

Lemma and_1 (a : Z) : JS.and a 1 = JS.toUint32 a mod 2.
Proof. apply (and_ones a 1). lia. Qed.

(** [a | b] for operands below 2^31. *)
Lemma or_nonneg (a b : Z) :
  0 <= a < 2147483648 -> 0 <= b < 2147483648 -> JS.or a b = Z.lor a b.
Proof. intros Ha Hb. unfold JS.or. rewrite !toInt32_small by assumption. reflexivity. Qed.

(** Bits that do not meet add up. *)
Lemma lor_shifted (a b n : Z) :
  0 <= n -> 0 <= a < 2 ^ n -> Z.lor a (b * 2 ^ n) = a + b * 2 ^ n.
Proof.
  intros Hn Ha.
  assert (Hand : Z.land a (b * 2 ^ n) = 0).
  { apply Z.bits_inj'. intros k Hk. rewrite Z.land_spec, Z.bits_0.
    destruct (Z.ltb_spec k n).
    - rewrite <- Z.shiftl_mul_pow2 by lia. rewrite Z.shiftl_spec_low by lia.
      apply andb_false_r.
    - rewrite (testbit_above a n k) by lia. reflexivity. }
  pose proof (Z.add_lor_land a (b * 2 ^ n)) as H. lia.
Qed.

(** [a << s] >>> 0 *)
Lemma toUint32_shl (a s : Z) :
  0 <= s < 32 -> JS.toUint32 (JS.shl a s) = JS.toUint32 (a * 2 ^ s).
Proof.
  intros Hs. unfold JS.shl. rewrite toUint32_toInt32.
  rewrite (toUint32_small s) by lia. rewrite Z.mod_small by lia.
  rewrite Z.shiftl_mul_pow2 by lia.
  unfold JS.toUint32. rewrite <- Z.mul_mod_idemp_l by lia.
  fold (JS.toUint32 (JS.toInt32 a)). rewrite toUint32_toInt32.
  unfold JS.toUint32. rewrite Z.mul_mod_idemp_l by lia. reflexivity.
Qed.

Lemma shl_small (a s : Z) :
  0 <= s < 32 -> 0 <= a -> a * 2 ^ s < 2147483648 -> JS.shl a s = a * 2 ^ s.
Proof.
  intros Hs Ha Hlt.
  assert (Hp : 0 < 2 ^ s) by (apply Z.pow_pos_nonneg; lia).
  unfold JS.shl. rewrite (toUint32_small s) by lia. rewrite Z.mod_small by lia.
  rewrite (toInt32_small a) by nia.
  rewrite Z.shiftl_mul_pow2 by lia. apply toInt32_small. nia.
Qed.

Lemma shr_0 (a : Z) : JS.shr a 0 = JS.toUint32 a.
Proof. unfold JS.shr. reflexivity. Qed.

Lemma shr_div (a s : Z) :
  0 <= s < 32 -> JS.shr a s = JS.toUint32 a / 2 ^ s.
Proof.
  intros Hs. unfold JS.shr. rewrite (toUint32_small s) by lia.
  rewrite Z.mod_small by lia. apply Z.shiftr_div_pow2. lia.
Qed.

End Int32.

(* ====================================================================== *)
(** * Varints *)
(* ====================================================================== *)

Section Varint.

(** A property checked on every number below [k] holds below [k]. *)
Lemma below_cases (P : Z -> bool) (k : nat) :
  forallb P (map Z.of_nat (seq 0 k)) = true ->
  forall d, 0 <= d < Z.of_nat k -> P d = true.
Proof.
  intros H d Hd. rewrite forallb_forall in H. apply H.
  apply in_map_iff. exists (Z.to_nat d). split; [lia|]. apply in_seq. lia.
Qed.

Lemma land_128_low (d : Z) : 0 <= d < 128 -> Z.land d 128 = 0.
Proof.
  intros H. apply Z.eqb_eq.
  apply (below_cases (fun d => Z.land d 128 =? 0) 128); [vm_compute; reflexivity | lia].
Qed.

Lemma land_128_high (d : Z) : 0 <= d < 128 -> Z.land (d + 128) 128 = 128.
Proof.
  intros H. apply Z.eqb_eq.
  apply (below_cases (fun d => Z.land (d + 128) 128 =? 128) 128);
    [vm_compute; reflexivity | lia].
Qed.

Lemma pushByte_app (w : ByteWriter) (value : Z) :
  pushByte w value = w ++ [JS.toUint32 value mod 256].
Proof. unfold pushByte. rewrite and_255. reflexivity. Qed.

(** The byte of a group that is not the last: the group with bit 7 set. *)
Lemma continuation_byte (current : Z) :
  0 <= current < 4294967296 ->
  JS.toUint32 (JS.or (JS.and current 127) 128) mod 256 = current mod 128 + 128.
Proof.
  intros H. rewrite and_127, (toUint32_small current) by exact H.
  assert (Hd : 0 <= current mod 128 < 128) by (apply Z.mod_pos_bound; lia).
  rewrite or_nonneg by lia.
  change 128 with (1 * 2 ^ 7) at 2. rewrite lor_shifted by (change (2 ^ 7) with 128; lia).
  change (1 * 2 ^ 7) with 128.
  rewrite toUint32_small by lia. apply Z.mod_small. lia.
Qed.

Lemma writeVarintLoop_app (n : nat) :
  forall (w : ByteWriter) (current : Z),
    writeVarintLoop n w current = w ++ writeVarintLoop n [] current.
Proof.
  induction n as [|n IH]; intros w current.
  - simpl. rewrite !pushByte_app. reflexivity.
  - rewrite !writeVarintLoop_step. destruct (128 <=? current).
    + rewrite IH, (IH (pushByte [] _)), !pushByte_app, <- app_assoc. reflexivity.
    + rewrite !pushByte_app. reflexivity.
Qed.

Lemma writeVarint_app (w : ByteWriter) (value : Z) :
  writeVarint w value = w ++ writeVarint [] value.
Proof. unfold writeVarint. apply writeVarintLoop_app. Qed.

(** Reading the last byte of a varint. *)
Lemma read_last_byte (current result shift offset : Z) (rest : list Z) :
  0 <= current < 128 -> 0 <= shift < 32 -> 0 <= result < 2 ^ shift ->
  current * 2 ^ shift + result < 4294967296 ->
  readVarintLoop (current :: rest) result shift offset
  = (current * 2 ^ shift + result, offset + 1).
Proof.
  intros Hc Hs Hr Hv. cbn [readVarintLoop].
  assert (Hp : 0 < 2 ^ shift) by (apply Z.pow_pos_nonneg; lia).
  rewrite (and_mask current 128), (toUint32_small current), land_128_low by lia.
  cbn [Z.eqb]. rewrite shr_0, toUint32_or, toUint32_shl by lia.
  rewrite and_127, (toUint32_small current), (Z.mod_small current 128) by lia.
  rewrite (toUint32_small result), (toUint32_small (current * 2 ^ shift)) by nia.
  rewrite lor_shifted by lia. f_equal. lia.
Qed.

(** Reading back the groups that [writeVarint] has written. *)
Lemma read_written_groups (n : nat) :
  forall (current result shift offset : Z) (rest : list Z),
    0 <= current < 128 * 128 ^ Z.of_nat n ->
    0 <= shift < 32 -> 0 <= result < 2 ^ shift ->
    current * 2 ^ shift + result < 4294967296 ->
    readVarintLoop (writeVarintLoop n [] current ++ rest) result shift offset
    = (current * 2 ^ shift + result, offset + len (writeVarintLoop n [] current)).
Proof.
  induction n as [|n IH]; intros current result shift offset rest Hc Hs Hr Hv.
  - change (128 ^ Z.of_nat 0) with 1 in Hc.
    simpl writeVarintLoop. rewrite pushByte_app. simpl app.
    assert (Hp : 0 < 2 ^ shift) by (apply Z.pow_pos_nonneg; lia).
    rewrite (toUint32_small current), (Z.mod_small current 256) by nia.
    apply read_last_byte; assumption || lia.
  - assert (Hp : 0 < 2 ^ shift) by (apply Z.pow_pos_nonneg; lia).
    assert (H32 : 0 <= current < 4294967296) by nia.
    rewrite writeVarintLoop_step.
    destruct (Z.leb_spec 128 current) as [Hge | Hlt].
    + rewrite writeVarintLoop_app, pushByte_app, continuation_byte by exact H32.
      rewrite shr7 by exact H32.
      assert (Hd : 0 <= current mod 128 < 128) by (apply Z.mod_pos_bound; lia).
      pose proof (Z.div_mod current 128 ltac:(lia)) as Hdm.
      assert (Hq : 1 <= current / 128) by (apply Z.div_le_lower_bound; lia).
      assert (Hshift : shift + 7 < 32).
      { apply (Z.pow_lt_mono_r_iff 2); [lia | lia|].
        rewrite Z.pow_add_r by lia. change (2 ^ 7) with 128.
        change (2 ^ 32) with 4294967296. nia. }
      assert (Hsmall : 2 ^ (shift + 7) <= 2147483648).
      { change 2147483648 with (2 ^ 31). apply Z.pow_le_mono_r; lia. }
      rewrite Z.pow_add_r in Hsmall by lia. change (2 ^ 7) with 128 in Hsmall.
      rewrite <- app_assoc. cbn [app readVarintLoop].
      rewrite (and_mask _ 128), (toUint32_small (current mod 128 + 128)) by lia.
      rewrite land_128_high by exact Hd. cbn [Z.eqb].
      rewrite and_127, (toUint32_small (current mod 128 + 128)) by lia.
      assert (Hm : (current mod 128 + 128) mod 128 = current mod 128).
      { replace (current mod 128 + 128) with (current mod 128 + 1 * 128) by lia.
        rewrite Z_mod_plus_full. apply Z.mod_mod. lia. }
      rewrite Hm.
      rewrite shl_small by nia.
      rewrite or_nonneg by nia.
      rewrite lor_shifted by lia.
      rewrite IH.
      * f_equal; [rewrite Z.pow_add_r by lia; change (2 ^ 7) with 128; nia|].
        unfold len. simpl length. lia.
      * split; [lia|]. rewrite Nat2Z.inj_succ, Z.pow_succ_r in Hc by lia.
        apply Z.div_lt_upper_bound; lia.
      * lia.
      * rewrite Z.pow_add_r by lia. change (2 ^ 7) with 128. nia.
      * rewrite Z.pow_add_r by lia. change (2 ^ 7) with 128. nia.
    + rewrite pushByte_app. simpl app.
      rewrite (toUint32_small current), (Z.mod_small current 256) by lia.
      apply read_last_byte; assumption || lia.
Qed.

Lemma skipn_len_app {A : Type} (w rest : list A) :
  skipn (Z.to_nat (len w)) (w ++ rest) = rest.
Proof.
  unfold len. rewrite Nat2Z.id, skipn_app, skipn_all, Nat.sub_diag. reflexivity.
Qed.

(** [readVarint] reads what [writeVarint] has written, whatever comes
    before and after it, and returns the offset of what follows. *)
Lemma readVarint_writeVarint (w : ByteWriter) (value : Z) (rest : list Z) :
  readVarint (writeVarint w value ++ rest) (len w)
  = (JS.toUint32 value, len (writeVarint w value)).
Proof.
  rewrite writeVarint_app. unfold readVarint, subarrayFrom.
  rewrite <- app_assoc, skipn_len_app.
  unfold writeVarint. rewrite shr_0.
  pose proof (toUint32_range value) as Hr.
  rewrite (read_written_groups 5 (JS.toUint32 value) 0 0 (len w) rest).
  - f_equal; [lia|]. unfold len. rewrite length_app. lia.
  - change (128 * 128 ^ Z.of_nat 5) with 4398046511104. lia.
  - lia.
  - change (2 ^ 0) with 1. lia.
  - lia.
Qed.

Lemma writeVarintLoop_length (n : nat) :
  forall (current : Z) (m : nat),
    0 <= current < 4294967296 -> current < 128 * 128 ^ Z.of_nat m ->
    (1 <= length (writeVarintLoop n [] current) <= S m)%nat.
Proof.
  induction n as [|n IH]; intros current m Hc Hm.
  - simpl. lia.
  - rewrite writeVarintLoop_step. destruct (Z.leb_spec 128 current); [|simpl; lia].
    rewrite writeVarintLoop_app, length_app, shr7 by exact Hc.
    destruct m as [|m]; [change (128 ^ Z.of_nat 0) with 1 in Hm; lia|].
    rewrite Nat2Z.inj_succ, Z.pow_succ_r in Hm by lia.
    assert (Hq : 0 <= current / 128 < 4294967296)
      by (split; [apply Z.div_pos; lia | apply Z.div_lt_upper_bound; lia]).
    specialize (IH (current / 128) m Hq ltac:(apply Z.div_lt_upper_bound; lia)).
    unfold pushByte. simpl length. lia.
Qed.

End Varint.

(** X8.  A varint round trip: [writeVarint] appends between one and five bytes
    to the writer, and [readVarint] at the offset where they start reads
    the value (as an unsigned 32-bit number) and returns the offset where
    they end, whatever bytes follow. *)
Theorem varint_roundtrip (w : ByteWriter) (value : Z) (rest : list Z) :
  exists bytes,
    writeVarint w value = w ++ bytes
    /\ (1 <= length bytes <= 5)%nat
    /\ readVarint (w ++ bytes ++ rest) (len w)
       = (JS.toUint32 value, len w + len bytes).
Proof.
  exists (writeVarint [] value). split; [apply writeVarint_app|]. split.
  - unfold writeVarint.
    rewrite shr_0. pose proof (toUint32_range value) as Hr.
    apply (writeVarintLoop_length 5 (JS.toUint32 value) 4 Hr).
    change (128 * 128 ^ Z.of_nat 4) with 34359738368. lia.
  - rewrite app_assoc, <- writeVarint_app, readVarint_writeVarint.
    f_equal. rewrite writeVarint_app. unfold len. rewrite length_app. lia.
Qed.

(* ====================================================================== *)
(** * 32-bit words in the writer *)
(* ====================================================================== *)

Section Uint32LE.

Lemma aget_app_at (w rest : list Z) (i : nat) :
  aget (w ++ rest) (len w + Z.of_nat i) = nth_error rest i.
Proof.
  unfold aget, len. destruct (Z.ltb_spec (Z.of_nat (length w) + Z.of_nat i) 0); [lia|].
  replace (Z.to_nat (Z.of_nat (length w) + Z.of_nat i)) with (length w + i)%nat by lia.
  rewrite nth_error_app2 by lia. f_equal. lia.
Qed.

(** The four bytes of a 32-bit value, lowest first, make the value. *)
Lemma four_bytes (u : Z) :
  0 <= u < 4294967296 ->
  Z.lor (Z.lor (Z.lor (u mod 256) ((u / 2 ^ 8) mod 256 * 2 ^ 8))
               ((u / 2 ^ 16) mod 256 * 2 ^ 16))
        ((u / 2 ^ 24) mod 256 * 2 ^ 24) = u.
Proof.
  intros Hu.
  assert (P8 : 2 ^ 8 = 256) by reflexivity.
  assert (P16 : 2 ^ 16 = 65536) by reflexivity.
  assert (P24 : 2 ^ 24 = 16777216) by reflexivity.
  assert (H0 : 0 <= u mod 256 < 256) by (apply Z.mod_pos_bound; lia).
  assert (H1 : 0 <= (u / 2 ^ 8) mod 256 < 256) by (apply Z.mod_pos_bound; lia).
  assert (H2 : 0 <= (u / 2 ^ 16) mod 256 < 256) by (apply Z.mod_pos_bound; lia).
  assert (H3 : 0 <= (u / 2 ^ 24) mod 256 < 256) by (apply Z.mod_pos_bound; lia).
  rewrite (lor_shifted (u mod 256)) by lia.
  rewrite (lor_shifted (u mod 256 + _)) by lia.
  rewrite (lor_shifted (u mod 256 + _ + _)) by lia.
  rewrite P8, P16, P24 in *.
  pose proof (Z.div_mod u 256 ltac:(lia)) as E0.
  pose proof (Z.div_mod (u / 256) 256 ltac:(lia)) as E1.
  pose proof (Z.div_mod (u / 65536) 256 ltac:(lia)) as E2.
  assert (D1 : u / 256 / 256 = u / 65536) by (rewrite Z.div_div by lia; reflexivity).
  assert (D2 : u / 65536 / 256 = u / 16777216) by (rewrite Z.div_div by lia; reflexivity).
  assert (D3 : u / 16777216 < 256) by (apply Z.div_lt_upper_bound; lia).
  assert (D4 : 0 <= u / 16777216) by (apply Z.div_pos; lia).
  rewrite (Z.mod_small (u / 16777216) 256) by lia.
  lia.
Qed.

(** [readUint32LE] reads what [pushUint32LE] has written. *)
Lemma readUint32LE_pushUint32LE (w : ByteWriter) (value : Z) (rest : list Z) :
  readUint32LE (pushUint32LE w value ++ rest) (len w) = JS.toUint32 value.
Proof.
  unfold pushUint32LE, readUint32LE. rewrite <- app_assoc.
  pose proof (aget_app_at w) as Hget.
  rewrite <- (Z.add_0_r (len w)) at 1.
  change 0 with (Z.of_nat 0) at 1. change 1 with (Z.of_nat 1) at 1.
  change 2 with (Z.of_nat 2) at 1. change 3 with (Z.of_nat 3) at 1.
  rewrite !Hget. cbn [app nth_error JS.num].
  set (u := JS.toUint32 value).
  assert (Hu : 0 <= u < 4294967296) by apply toUint32_range.
  rewrite shr_0, !and_255, !shr_div by lia. fold u.
  assert (Hd8 : 0 <= u / 2 ^ 8 < 4294967296)
    by (split; [apply Z.div_pos; lia | apply Z.div_lt_upper_bound; lia]).
  assert (Hd16 : 0 <= u / 2 ^ 16 < 4294967296)
    by (split; [apply Z.div_pos; lia | apply Z.div_lt_upper_bound; lia]).
  assert (Hd24 : 0 <= u / 2 ^ 24 < 4294967296)
    by (split; [apply Z.div_pos; lia | apply Z.div_lt_upper_bound; lia]).
  rewrite (toUint32_small (u / 2 ^ 8)), (toUint32_small (u / 2 ^ 16)),
    (toUint32_small (u / 2 ^ 24)) by assumption.
  assert (H0 : 0 <= u mod 256 < 256) by (apply Z.mod_pos_bound; lia).
  assert (H1 : 0 <= (u / 2 ^ 8) mod 256 < 256) by (apply Z.mod_pos_bound; lia).
  assert (H2 : 0 <= (u / 2 ^ 16) mod 256 < 256) by (apply Z.mod_pos_bound; lia).
  assert (H3 : 0 <= (u / 2 ^ 24) mod 256 < 256) by (apply Z.mod_pos_bound; lia).
  rewrite !toUint32_or, !toUint32_shl by lia.
  rewrite (toUint32_small (u mod 256)) by lia.
  rewrite (toUint32_small ((u / 2 ^ 8) mod 256 * 2 ^ 8))
    by (change (2 ^ 8) with 256 in *; lia).
  rewrite (toUint32_small ((u / 2 ^ 16) mod 256 * 2 ^ 16))
    by (change (2 ^ 16) with 65536 in *; lia).
  rewrite (toUint32_small ((u / 2 ^ 24) mod 256 * 2 ^ 24))
    by (change (2 ^ 24) with 16777216 in *; lia).
  apply four_bytes. exact Hu.
Qed.

End Uint32LE.

(** X9.  A 32-bit round trip: [pushUint32LE] appends four bytes to the writer,
    and [readUint32LE] at the offset where they start reads the value (as
    an unsigned 32-bit number), whatever bytes follow. *)
Theorem uint32LE_roundtrip (w : ByteWriter) (value : Z) (rest : list Z) :
  exists b0 b1 b2 b3,
    pushUint32LE w value = w ++ [b0; b1; b2; b3]
    /\ Forall (fun b => 0 <= b <= 255) [b0; b1; b2; b3]
    /\ readUint32LE (w ++ [b0; b1; b2; b3] ++ rest) (len w) = JS.toUint32 value.
Proof.
  exists (JS.and value 255), (JS.and (JS.shr value 8) 255),
         (JS.and (JS.shr value 16) 255), (JS.and (JS.shr value 24) 255).
  split; [reflexivity|]. split.
  - repeat constructor; rewrite and_255;
      match goal with
      | |- _ <= ?x mod 256 => pose proof (Z.mod_pos_bound x 256 ltac:(lia)); lia
      | |- ?x mod 256 <= _ => pose proof (Z.mod_pos_bound x 256 ltac:(lia)); lia
      end.
  - rewrite app_assoc. apply (readUint32LE_pushUint32LE w value rest).
Qed.

(* ====================================================================== *)
(** * Base 36 *)
(* ====================================================================== *)

Section Base36.

Lemma digitValue36_digit36 (d : Z) :
  0 <= d < 36 -> digitValue36 (digit36 d) = Some d.
Proof.
  intros H. unfold digit36, digitValue36, isDigit, isLower, isUpper, inRange.
  destruct (Z.ltb_spec d 10).
  - replace ((48 <=? 48 + d) && (48 + d <=? 57)) with true
      by (symmetry; apply andb_true_iff; split; apply Z.leb_le; lia).
    f_equal. lia.
  - replace ((48 <=? 87 + d) && (87 + d <=? 57)) with false
      by (symmetry; apply andb_false_iff; right; apply Z.leb_gt; lia).
    replace ((97 <=? 87 + d) && (87 + d <=? 122)) with true
      by (symmetry; apply andb_true_iff; split; apply Z.leb_le; lia).
    f_equal. lia.
Qed.

Lemma digit36_not_space (d : Z) : 0 <= d < 36 -> isSpace (digit36 d) = false.
Proof.
  intros H. unfold digit36, isSpace, inRange.
  destruct (Z.ltb_spec d 10);
    repeat (apply orb_false_iff; split);
    try (apply andb_false_iff; left; apply Z.leb_gt; lia);
    try (apply andb_false_iff; right; apply Z.leb_gt; lia);
    apply Z.eqb_neq; lia.
Qed.

Lemma parseDigits36_toString36_aux (fuel : nat) :
  forall (n : Z) (acc : jsstring),
    0 <= n < 36 ^ Z.of_nat fuel ->
    parseDigits36 (toString36_aux fuel n acc) 0 = parseDigits36 acc n.
Proof.
  induction fuel as [|fuel IH]; intros n acc Hn.
  - simpl in Hn. assert (n = 0) by lia. subst n. reflexivity.
  - rewrite toString36_aux_step.
    assert (Hm : 0 <= n mod 36 < 36) by (apply Z.mod_pos_bound; lia).
    assert (Hstep : parseDigits36 (digit36 (n mod 36) :: acc) (n / 36)
                    = parseDigits36 acc n).
    { simpl. rewrite digitValue36_digit36 by exact Hm.
      f_equal. pose proof (Z.div_mod n 36 ltac:(lia)). lia. }
    destruct (Z.eqb_spec (n / 36) 0) as [H0 | H0].
    + rewrite <- Hstep, H0. reflexivity.
    + rewrite IH; [exact Hstep|].
      rewrite Nat2Z.inj_succ, Z.pow_succ_r in Hn by lia.
      split; [apply Z.div_pos; lia | apply Z.div_lt_upper_bound; lia].
Qed.

Lemma toString36_aux_head (fuel : nat) :
  forall (n d : Z) (acc : jsstring),
    0 <= d < 36 ->
    exists d' rest, 0 <= d' < 36
                    /\ toString36_aux fuel n (digit36 d :: acc) = digit36 d' :: rest.
Proof.
  induction fuel as [|fuel IH]; intros n d acc Hd.
  - exists d, acc. split; [exact Hd | reflexivity].
  - rewrite toString36_aux_step.
    assert (Hm : 0 <= n mod 36 < 36) by (apply Z.mod_pos_bound; lia).
    destruct (n / 36 =? 0).
    + exists (n mod 36), (digit36 d :: acc). split; [exact Hm | reflexivity].
    + apply IH. exact Hm.
Qed.

Lemma toString36_head (n : Z) :
  exists d rest, 0 <= d < 36 /\ toString36 n = digit36 d :: rest.
Proof.
  unfold toString36. rewrite toString36_aux_step.
  assert (Hm : 0 <= n mod 36 < 36) by (apply Z.mod_pos_bound; lia).
  destruct (n / 36 =? 0).
  - exists (n mod 36), []. split; [exact Hm | reflexivity].
  - apply toString36_aux_head. exact Hm.
Qed.

Lemma log2_bound36 (n : Z) : 0 <= n -> n < 36 ^ Z.of_nat (S (Z.to_nat (Z.log2 n))).
Proof.
  intros Hn. rewrite Nat2Z.inj_succ, Z2Nat.id by apply Z.log2_nonneg.
  destruct (Z.eq_dec n 0) as [-> | Hne].
  - simpl. lia.
  - pose proof (Z.log2_spec n ltac:(lia)) as [_ Hlt].
    assert (H : 2 ^ Z.succ (Z.log2 n) <= 36 ^ Z.succ (Z.log2 n)).
    { apply Z.pow_le_mono_l. lia. }
    lia.
Qed.

(** [parseInt(n.toString(36), 36)] is [n]. *)
Lemma parseInt36_toString36 (n : Z) : 0 <= n -> parseInt36 (toString36 n) = Some n.
Proof.
  intros Hn.
  assert (Hp : parseDigits36 (toString36 n) 0 = n).
  { unfold toString36. rewrite parseDigits36_toString36_aux; [reflexivity|].
    split; [exact Hn | apply log2_bound36; exact Hn]. }
  destruct (toString36_head n) as (d & rest & Hd & Heq).
  unfold parseInt36. rewrite Heq in *.
  cbn [span]. rewrite digit36_not_space by exact Hd. cbn [snd].
  assert (H45 : digit36 d <> 45) by (unfold digit36; destruct (d <? 10); lia).
  assert (H43 : digit36 d <> 43) by (unfold digit36; destruct (d <? 10); lia).
  assert (Hsign : (let (neg, s1) :=
                     match digit36 d :: rest with
                     | 45 :: r => (true, r)
                     | 43 :: r => (false, r)
                     | _ => (false, digit36 d :: rest)
                     end in
                   match s1 with
                   | c :: _ =>
                       match digitValue36 c with
                       | Some _ => let v := parseDigits36 s1 0 in
                                   Some (if neg then - v else v)
                       | None => None
                       end
                   | [] => None
                   end) = Some n).
  { destruct (Z.eq_dec (digit36 d) 45) as [E | _]; [contradiction|].
    destruct (Z.eq_dec (digit36 d) 43) as [E | _]; [contradiction|].
    assert (Hm : match digit36 d :: rest with
                 | 45 :: r => (true, r)
                 | 43 :: r => (false, r)
                 | _ => (false, digit36 d :: rest)
                 end = (false, digit36 d :: rest)).
    { destruct (digit36 d) as [|p|p]; try reflexivity.
      do 6 (destruct p as [p|p|]; try reflexivity); contradiction. }
    rewrite Hm. rewrite digitValue36_digit36 by exact Hd. cbv zeta. rewrite Hp. reflexivity. }
  exact Hsign.
Qed.

End Base36.

(* ====================================================================== *)
(** * Rendering what the normalizer pushes *)
(* ====================================================================== *)

Section RenderNormalized.

Lemma isMarker_starts (t : jsstring) :
  isMarker t = true -> startsWith t CONTROL_PREFIX = true.
Proof.
  unfold isMarker. rewrite !orb_true_iff.
  intros H. repeat destruct H as [H | H]; apply streq_true_iff in H; subst t; reflexivity.
Qed.

Lemma isMarker_class (t : jsstring) :
  isMarker t = true -> tokenClass t = false.
Proof.
  unfold isMarker. rewrite !orb_true_iff.
  intros H. repeat destruct H as [H | H]; apply streq_true_iff in H; subst t; reflexivity.
Qed.

Lemma not_marker_plain (t : jsstring) :
  startsWith t CONTROL_PREFIX = false -> isMarker t = false.
Proof.
  intros H. destruct (isMarker t) eqn:Hm; [|reflexivity].
  apply isMarker_starts in Hm. congruence.
Qed.

Lemma not_marker_token (t : jsstring) :
  tokenClass t = true -> isMarker t = false.
Proof.
  intros H. destruct (isMarker t) eqn:Hm; [|reflexivity].
  apply isMarker_class in Hm. congruence.
Qed.

(** The renderer on a token that is no marker. *)
Lemma renderLoop_token (t : jsstring) (rest : list (option jsstring))
      (pendingCase : option PendingCase) (pendingMode : option PendingMode)
      (output : jsstring) :
  isMarker t = false ->
  renderLoop (Some t :: rest) pendingCase pendingMode output
  = match pendingMode with
    | Some mode =>
        let count := finiteOrZero (parseInt36 t) in
        match mode with
        | ModeSpace =>
            (piece <- repeatString 32 count ;;
             renderLoop rest pendingCase None (output ++ piece))%result
        | ModeNewline =>
            (piece <- repeatString 10 count ;;
             renderLoop rest pendingCase None (output ++ piece))%result
        | ModeTab =>
            (piece <- repeatString 9 count ;;
             renderLoop rest pendingCase None (output ++ piece))%result
        | ModeNumber | ModeEscape => renderLoop rest pendingCase None (output ++ t)
        end
    | None =>
        match pendingCase with
        | Some CaseUpper =>
            (text <- caseMapped t (toUpperCase t) ;;
             renderLoop rest None None (output ++ text))%result
        | Some CaseTitle =>
            match t with
            | c :: s =>
                (text <- caseMapped (c :: s) (titleCase (c :: s)) ;;
                 renderLoop rest None None (output ++ text))%result
            | [] => renderLoop rest None None (output ++ t)
            end
        | None => renderLoop rest None None (output ++ t)
        end
    end.
Proof.
  unfold isMarker. rewrite !orb_false_iff.
  intros ((((((H1 & H2) & H3) & H4) & H5) & H6) & H7).
  cbn [renderLoop tokenIs]. rewrite H1, H2, H3, H4, H5, H6, H7.
  destruct pendingMode as [[| | | |]|]; reflexivity.
Qed.

Lemma allOf_repeat (c : Z) (t : jsstring) :
  allOf (Z.eqb c) t = true -> t = repeat c (length t) /\ t <> [].
Proof.
  unfold allOf. destruct t as [|x t]; [discriminate|].
  intros H. split; [|discriminate].
  induction (x :: t) as [|y l IH]; [reflexivity|].
  simpl in H. apply andb_true_iff in H as [Hy Hl].
  apply Z.eqb_eq in Hy. subst y. simpl. f_equal. apply IH. exact Hl.
Qed.

Lemma toString36_plain (n : Z) : isMarker (toString36 n) = false.
Proof.
  apply not_marker_plain.
  destruct (toString36_head n) as (d & rest & Hd & ->).
  unfold startsWith, CONTROL_PREFIX. apply Z.eqb_neq.
  unfold digit36. destruct (d <? 10); lia.
Qed.

Lemma toLowerCase_starts (t : jsstring) :
  startsWith (toLowerCase t) CONTROL_PREFIX = startsWith t CONTROL_PREFIX.
Proof.
  destruct t as [|c t]; [reflexivity|].
  unfold toLowerCase, startsWith, CONTROL_PREFIX. cbn [map].
  unfold isUpper, inRange.
  destruct (Z.leb_spec 65 c); destruct (Z.leb_spec c 90); cbn [andb]; try reflexivity.
  destruct (Z.eqb_spec (c + 32) 31); destruct (Z.eqb_spec c 31); try reflexivity; lia.
Qed.

Ltac by_ranges c :=
  unfold isUpper, isLower, inRange;
  destruct (Z.leb_spec 65 c); destruct (Z.leb_spec c 90);
  destruct (Z.leb_spec 97 c); destruct (Z.leb_spec c 122); cbn [andb];
  try lia; try reflexivity;
  repeat match goal with
         | |- context [(?a <=? ?b)] => destruct (Z.leb_spec a b); cbn [andb]
         end;
  try reflexivity; lia.

Lemma upper_of_lower (t : jsstring) : toUpperCase (toLowerCase t) = toUpperCase t.
Proof.
  unfold toUpperCase, toLowerCase. rewrite map_map. apply map_ext. intros c. by_ranges c.
Qed.

Lemma lower_of_lower (t : jsstring) : toLowerCase (toLowerCase t) = toLowerCase t.
Proof.
  unfold toLowerCase. rewrite map_map. apply map_ext. intros c. by_ranges c.
Qed.

Lemma titleCase_of_lower (t : jsstring) : titleCase (toLowerCase t) = titleCase t.
Proof.
  unfold titleCase. rewrite upper_of_lower. f_equal.
  unfold toLowerCase at 2. rewrite skipn_map. apply lower_of_lower.
Qed.

(** A word of [WORD_PATTERN] is ASCII, and so is its lower case. *)
Lemma word_isAscii (t : jsstring) :
  WORD_PATTERN t = true -> isAscii t = true.
Proof.
  unfold WORD_PATTERN. intros H.
  destruct (matchJoined isLetter t) as [[tok rest]|] eqn:Hm; [|discriminate].
  destruct rest; [|discriminate].
  destruct (matchJoined_spec _ _ _ _ Hm) as (-> & _ & Hall).
  rewrite app_nil_r. unfold isAscii.
  rewrite forallb_forall in Hall |- *. intros c Hc. specialize (Hall c Hc).
  unfold isJoiner, isLetter, isUpper, isLower, inRange in *.
  repeat match type of Hall with
         | context [(?a =? ?b)] => destruct (Z.eqb_spec a b)
         | context [(?a <=? ?b)] => destruct (Z.leb_spec a b)
         end; cbn [orb andb] in Hall; try discriminate Hall;
    apply andb_true_iff; split; apply Z.leb_le; lia.
Qed.

Lemma isAscii_toLowerCase (t : jsstring) :
  isAscii t = true -> isAscii (toLowerCase t) = true.
Proof.
  unfold isAscii, toLowerCase. rewrite !forallb_forall.
  intros H c Hc. apply in_map_iff in Hc as (x & <- & Hx). specialize (H x Hx).
  unfold isUpper, inRange in *. apply andb_true_iff in H as [H0 H1].
  apply Z.leb_le in H0, H1.
  destruct (Z.leb_spec 65 x); destruct (Z.leb_spec x 90); cbn [andb];
    apply andb_true_iff; split; apply Z.leb_le; lia.
Qed.

(** What the normalizer pushes for one token of the tokenizer renders as
    the token, and leaves the renderer with nothing pending. *)
Lemma render_normalizeToken (t : jsstring) (rest : list (option jsstring))
      (output : jsstring) :
  t <> [] -> tokenClass t = true -> slen t <= MAX_STRING_LENGTH ->
  renderLoop (map Some (normalizeToken t) ++ rest) None None output
  = renderLoop rest None None (output ++ t).
Proof.
  intros Hne Hclass Hlen.
  assert (Hrun : forall (c : Z) (mode : PendingMode) (marker : jsstring),
            allOf (Z.eqb c) t = true ->
            (forall piece out, renderLoop (Some marker :: piece :: rest) None None out
                               = renderLoop (piece :: rest) None (Some mode) out) ->
            (forall count,
                match mode with
                | ModeSpace => repeatString 32 count
                | ModeNewline => repeatString 10 count
                | ModeTab => repeatString 9 count
                | _ => repeatString c count
                end = repeatString c count) ->
            (mode = ModeSpace \/ mode = ModeNewline \/ mode = ModeTab) ->
            renderLoop (map Some [marker; toString36 (slen t)] ++ rest) None None output
            = renderLoop rest None None (output ++ t)).
  { intros c mode marker Hall Hmark Hrep Hmode.
    destruct (allOf_repeat c t Hall) as [Heq _].
    cbn [map app]. rewrite Hmark.
    rewrite renderLoop_token by apply toString36_plain.
    cbv zeta. rewrite parseInt36_toString36 by (unfold slen; lia).
    unfold finiteOrZero.
    assert (Hpow : MAX_STRING_LENGTH < 2 ^ 1024).
    { apply (Z.lt_trans _ (2 ^ 29)); [reflexivity | apply Z.pow_lt_mono_r; lia]. }
    replace (Z.abs (slen t) <? 2 ^ 1024) with true
      by (symmetry; apply Z.ltb_lt; unfold slen in *; lia).
    assert (Hr : repeatString c (slen t) = Ok t).
    { unfold repeatString.
      destruct (Z.ltb_spec (slen t) 0); [unfold slen in *; lia|].
      destruct (Z.leb_spec (slen t) MAX_STRING_LENGTH); [|lia].
      unfold slen. rewrite Nat2Z.id, <- Heq. reflexivity. }
    destruct Hmode as [-> | [-> | ->]]; rewrite (Hrep (slen t)), Hr; reflexivity. }
  unfold normalizeToken.
  destruct (startsWith t CONTROL_PREFIX) eqn:H31.
  { cbn [map app].
    change (renderLoop (Some TOKEN_ESCAPE :: Some t :: rest) None None output)
      with (renderLoop (Some t :: rest) None (Some ModeEscape) output).
    rewrite renderLoop_token by (apply not_marker_token; exact Hclass). reflexivity. }
  pose proof (not_marker_plain t H31) as Hplain.
  destruct (SPACE_PATTERN t) eqn:Hsp.
  { apply (Hrun 32 ModeSpace TOKEN_WS_SPACE Hsp); [reflexivity | reflexivity | tauto]. }
  destruct (NEWLINE_PATTERN t) eqn:Hnl.
  { apply (Hrun 10 ModeNewline TOKEN_WS_NEWLINE Hnl); [reflexivity | reflexivity | tauto]. }
  destruct (TAB_PATTERN t) eqn:Htab.
  { apply (Hrun 9 ModeTab TOKEN_WS_TAB Htab); [reflexivity | reflexivity | tauto]. }
  destruct (NUMBER_PATTERN t) eqn:Hnum.
  { cbn [map app].
    change (renderLoop (Some TOKEN_NUM :: Some t :: rest) None None output)
      with (renderLoop (Some t :: rest) None (Some ModeNumber) output).
    rewrite renderLoop_token by exact Hplain. reflexivity. }
  assert (Hself : renderLoop (map Some [t] ++ rest) None None output
                  = renderLoop rest None None (output ++ t)).
  { cbn [map app]. rewrite renderLoop_token by exact Hplain. reflexivity. }
  assert (Hlower : isMarker (toLowerCase t) = false).
  { apply not_marker_plain. rewrite toLowerCase_starts. exact H31. }
  destruct (WORD_PATTERN t) eqn:Hword; [|exact Hself].
  assert (Hascii : isAscii (toLowerCase t) = true)
    by (apply isAscii_toLowerCase, word_isAscii; exact Hword).
  cbv zeta.
  destruct (streq t (toLowerCase t)) eqn:Hl.
  { apply streq_true_iff in Hl. rewrite <- Hl. exact Hself. }
  destruct (streq t (toUpperCase t)) eqn:Hu.
  { apply streq_true_iff in Hu. cbn [map app].
    change (renderLoop (Some TOKEN_CASE_UPPER :: Some (toLowerCase t) :: rest) None None output)
      with (renderLoop (Some (toLowerCase t) :: rest) (Some CaseUpper) None output).
    rewrite renderLoop_token by exact Hlower.
    unfold caseMapped. rewrite Hascii. cbn [bind].
    rewrite upper_of_lower, <- Hu. reflexivity. }
  destruct (streq t (titleCase t)) eqn:Ht; [|exact Hself].
  apply streq_true_iff in Ht. cbn [map app].
  change (renderLoop (Some TOKEN_CASE_TITLE :: Some (toLowerCase t) :: rest) None None output)
    with (renderLoop (Some (toLowerCase t) :: rest) (Some CaseTitle) None output).
  rewrite renderLoop_token by exact Hlower.
  destruct (toLowerCase t) as [|c s] eqn:Hlow.
  { destruct t; [contradiction | discriminate Hlow]. }
  unfold caseMapped. rewrite Hascii. cbn [bind].
  rewrite <- Hlow, titleCase_of_lower, <- Ht. reflexivity.
Qed.

End RenderNormalized.

(* ====================================================================== *)
(** * Tokenize, normalize, render *)
(* ====================================================================== *)

Section TokenLayer.

Lemma TOKEN_PATTERN_class (s tok rest : jsstring) :
  TOKEN_PATTERN s = Some (tok, rest) -> tok <> [] /\ tokenClass tok = true.
Proof.
  unfold TOKEN_PATTERN, tokenClass. intros H.
  destruct (matchJoined isAlnum s) as [[w r]|] eqn:Hj.
  - injection H as <- <-. apply matchJoined_spec in Hj as (_ & Hne & Hall).
    split; [exact Hne|]. rewrite Hall. reflexivity.
  - destruct (matchRun isOther s) as [[w r]|] eqn:Ho.
    + injection H as <- <-. apply matchRun_spec in Ho as (_ & Hne & Hall & _).
      split; [exact Hne|]. rewrite Hall. apply orb_true_iff. left. apply orb_true_r.
    + apply matchRun_spec in H as (_ & Hne & Hall & _).
      split; [exact Hne|]. rewrite Hall. apply orb_true_r.
Qed.

Lemma matchAll_class (fuel : nat) :
  forall s t, In t (matchAll TOKEN_PATTERN fuel s) -> t <> [] /\ tokenClass t = true.
Proof.
  induction fuel as [|fuel IH]; intros s t Hin; [destruct Hin|].
  cbn [matchAll] in Hin. destruct s as [|c s]; [destruct Hin|].
  destruct (TOKEN_PATTERN (c :: s)) as [[tok rest]|] eqn:Hp.
  - destruct Hin as [<- | Hin]; [exact (TOKEN_PATTERN_class _ _ _ Hp) | exact (IH _ _ Hin)].
  - exact (IH _ _ Hin).
Qed.

Lemma tokenize_class (text t : jsstring) :
  In t (tokenize text) -> t <> [] /\ tokenClass t = true.
Proof.
  unfold tokenize. destruct text; [intros []|]. apply matchAll_class.
Qed.

Lemma tokenize_concat (text : jsstring) : concat (tokenize text) = text.
Proof.
  unfold tokenize. destruct text as [|c s]; [reflexivity|].
  apply (matchAll_spec (length (c :: s))). apply Nat.le_refl.
Qed.

Lemma length_in_concat {A : Type} (l : list A) (ls : list (list A)) :
  In l ls -> (length l <= length (concat ls))%nat.
Proof.
  induction ls as [|x ls IH]; intros H; [destruct H|].
  simpl. rewrite length_app. destruct H as [-> | H]; [lia|].
  specialize (IH H). lia.
Qed.

Lemma render_normalizeTokens (tokens : list jsstring) :
  forall output,
    (forall t, In t tokens ->
               t <> [] /\ tokenClass t = true /\ slen t <= MAX_STRING_LENGTH) ->
    renderLoop (map Some (normalizeTokens tokens)) None None output
    = Ok (output ++ concat tokens).
Proof.
  induction tokens as [|t tokens IH]; intros output H.
  - simpl. rewrite app_nil_r. reflexivity.
  - unfold normalizeTokens. cbn [flat_map concat]. rewrite map_app.
    destruct (H t (or_introl eq_refl)) as (Hne & Hclass & Hlen).
    rewrite render_normalizeToken by assumption.
    fold (normalizeTokens tokens). rewrite IH.
    + rewrite app_assoc. reflexivity.
    + intros u Hu. apply H. right. exact Hu.
Qed.

(** X1.  Rendering the normalized tokens of a text gives the text, for a text
    of at most [MAX_STRING_LENGTH] code units (a longer one is a string in
    some engines only). *)
Theorem render_normalize_tokenize (text : jsstring) :
  slen text <= MAX_STRING_LENGTH ->
  renderTokens (map Some (normalizeTokens (tokenize text))) = Ok text.
Proof.
  intros Hlen. unfold renderTokens.
  rewrite render_normalizeTokens.
  - rewrite tokenize_concat. reflexivity.
  - intros t Ht. destruct (tokenize_class text t Ht) as [Hne Hclass].
    split; [exact Hne|]. split; [exact Hclass|].
    pose proof (length_in_concat t (tokenize text) Ht) as Hle.
    rewrite tokenize_concat in Hle.
    unfold slen in *. lia.
Qed.

Lemma render_normalize_tokenize_witness :
  renderTokens (map Some (normalizeTokens (tokenize (js "Hello, WORLD  42"))))
  = Ok (js "Hello, WORLD  42").
Proof.
  apply render_normalize_tokenize. vm_compute. discriminate.
Defined.

End TokenLayer.

(* ====================================================================== *)
(** * RUNA / RUNB digits *)
(* ====================================================================== *)

Section RunLengths.

Lemma flushRunLoop_app (n : nat) :
  forall (run : Z) (symbols : list Z),
    flushRunLoop n run symbols = symbols ++ flushRunLoop n run [].
Proof.
  induction n as [|n IH]; intros run symbols.
  - simpl. rewrite app_nil_r. reflexivity.
  - rewrite !flushRunLoop_step. destruct (0 <? run).
    + rewrite IH, (IH _ ([] ++ _)), <- app_assoc. reflexivity.
    + rewrite app_nil_r. reflexivity.
Qed.

Lemma flushRun_app (run : Z) (symbols : list Z) :
  flushRun run symbols = symbols ++ flushRun run [].
Proof. apply flushRunLoop_app. Qed.

Lemma mtfToSymbols_fold (mtf : list Z) :
  forall (symbols : list Z) (run : Z),
    (let (symbols', run') := fold_left mtfToSymbolsStep mtf (symbols, run) in
     if 0 <? run' then flushRun run' symbols' else symbols')
    = symbols ++ encodeRuns mtf run.
Proof.
  induction mtf as [|value rest IH]; intros symbols run.
  - simpl. destruct (0 <? run); [apply flushRun_app | rewrite app_nil_r; reflexivity].
  - cbn [fold_left encodeRuns]. unfold mtfToSymbolsStep at 2.
    destruct (value =? 0); [apply IH|].
    rewrite IH. destruct (0 <? run).
    + rewrite flushRun_app, <- !app_assoc. reflexivity.
    + rewrite <- app_assoc. reflexivity.
Qed.

Lemma mtfToSymbols_encodeRuns (mtf : list Z) :
  mtfToSymbols mtf = map JS.toUint32 (encodeRuns mtf 0).
Proof.
  unfold mtfToSymbols. pose proof (mtfToSymbols_fold mtf [] 0) as H.
  destruct (fold_left mtfToSymbolsStep mtf ([], 0)) as [symbols run].
  rewrite H. reflexivity.
Qed.

(** The digits of a run are RUNA and RUNB, and read back as the run. *)
Lemma run_digits (n : nat) :
  forall (r run base : Z) (rest : list Z),
    0 <= r < 2 ^ Z.of_nat n -> 0 < base -> r * base < 2147483648 ->
    map JS.toUint32 (flushRunLoop n r []) = flushRunLoop n r []
    /\ exists base',
        symbolValues (flushRunLoop n r [] ++ rest) run base
        = symbolValues rest (run + r * base) base'.
Proof.
  induction n as [|n IH]; intros r run base rest Hr Hb Hlt.
  - change (2 ^ Z.of_nat 0) with 1 in Hr. assert (r = 0) by lia. subst r.
    split; [reflexivity|]. exists base. simpl. f_equal. lia.
  - rewrite flushRunLoop_step.
    destruct (Z.ltb_spec 0 r) as [Hpos | Hzero].
    + assert (Hr1 : 0 <= r - 1 < 2147483648) by nia.
      rewrite sar1, (toInt32_small (r - 1)) by exact Hr1.
      rewrite and_1, (toUint32_small (r - 1)) by lia.
      replace ((r - 1) mod 2 + 1 - 1) with ((r - 1) mod 2) by lia.
      assert (Hd : 0 <= (r - 1) mod 2 < 2) by (apply Z.mod_pos_bound; lia).
      pose proof (Z.div_mod (r - 1) 2 ltac:(lia)) as Hdm.
      assert (Hq : 0 <= (r - 1) / 2) by (apply Z.div_pos; lia).
      rewrite flushRunLoop_app. cbn [app].
      destruct (Z.eq_dec ((r - 1) / 2) 0) as [Hlast | Hmore].
      * (* the last digit *)
        rewrite Hlast.
        assert (Hnil : flushRunLoop n 0 [] = []) by (destruct n; reflexivity).
        rewrite Hnil. split.
        -- cbn [map]. rewrite toUint32_small by lia. reflexivity.
        -- exists (JS.shl base 1). cbn [app symbolValues].
           destruct (Z.leb_spec ((r - 1) mod 2) 1); [|lia].
           f_equal.
           destruct (Z.eqb_spec ((r - 1) mod 2) 0); nia.
      * destruct (IH ((r - 1) / 2) (run + ((r - 1) mod 2 + 1) * base) (2 * base) rest)
          as [Hmap [base' Hval]].
        -- split; [lia|]. rewrite Nat2Z.inj_succ, Z.pow_succ_r in Hr by lia.
           apply Z.div_lt_upper_bound; lia.
        -- lia.
        -- nia.
        -- split.
           ++ cbn [map]. rewrite Hmap, toUint32_small by lia. reflexivity.
           ++ exists base'. cbn [app symbolValues].
              destruct (Z.leb_spec ((r - 1) mod 2) 1); [|lia].
              rewrite shl_small by nia. change (2 ^ 1) with 2.
              replace (base * 2) with (2 * base) by lia.
              replace (run + (if (r - 1) mod 2 =? 0 then 1 else 2) * base)
                with (run + ((r - 1) mod 2 + 1) * base)
                by (destruct (Z.eqb_spec ((r - 1) mod 2) 0); nia).
              rewrite Hval. f_equal. nia.
    + assert (r = 0) by lia. subst r. split; [reflexivity|].
      exists base. simpl. f_equal. lia.
Qed.

Lemma flushRun_digits (r : Z) (rest : list Z) :
  0 <= r < 2147483648 ->
  map JS.toUint32 (flushRun r []) = flushRun r []
  /\ exists base',
      symbolValues (flushRun r [] ++ rest) 0 1 = symbolValues rest r base'.
Proof.
  intros Hr. unfold flushRun.
  destruct (run_digits 33 r 0 1 rest) as [Hmap [base' Hval]].
  - change (2 ^ Z.of_nat 33) with 8589934592. lia.
  - lia.
  - lia.
  - split; [exact Hmap|]. exists base'. rewrite Hval. f_equal. lia.
Qed.

(** The symbols of [mtf] stand for [mtf], after the pending zeros. *)
Lemma symbolValues_encodeRuns (mtf : list Z) :
  forall run,
    0 <= run -> run + len mtf < 2147483648 ->
    (forall v, In v mtf -> 0 <= v < 4294967295) ->
    symbolValues (map JS.toUint32 (encodeRuns mtf run)) 0 1
    = repeat 0 (Z.to_nat run) ++ mtf.
Proof.
  induction mtf as [|value rest IH]; intros run Hrun Hlen Hrange.
  - cbn [encodeRuns]. unfold len in Hlen. simpl in Hlen. rewrite app_nil_r.
    destruct (Z.ltb_spec 0 run).
    + destruct (flushRun_digits run []) as [Hmap [base' Hval]]; [lia|].
      rewrite Hmap. rewrite app_nil_r in Hval. rewrite Hval. reflexivity.
    + assert (run = 0) by lia. subst run. reflexivity.
  - assert (Hv : 0 <= value < 4294967295) by (apply Hrange; left; reflexivity).
    assert (Hrest : forall v, In v rest -> 0 <= v < 4294967295)
      by (intros v Hin; apply Hrange; right; exact Hin).
    unfold len in Hlen. simpl length in Hlen.
    cbn [encodeRuns]. destruct (Z.eqb_spec value 0) as [-> | Hne].
    + rewrite IH by (unfold len; lia || assumption).
      replace (Z.to_nat (run + 1)) with (Z.to_nat run + 1)%nat by lia.
      rewrite repeat_app, <- app_assoc. reflexivity.
    + assert (Hlit : symbolValues (map JS.toUint32 ((value + 1) :: encodeRuns rest 0)) run 1
                     = repeat 0 (Z.to_nat run) ++ value :: rest
                     /\ forall base, 0 < run ->
                          symbolValues (map JS.toUint32 ((value + 1) :: encodeRuns rest 0))
                                       run base
                          = repeat 0 (Z.to_nat run) ++ value :: rest).
      { assert (Htail : symbolValues (map JS.toUint32 (encodeRuns rest 0)) 0 1 = rest).
        { rewrite IH by (unfold len; lia || assumption). reflexivity. }
        cbn [map symbolValues]. rewrite (toUint32_small (value + 1)) by lia.
        destruct (Z.leb_spec (value + 1) 1); [lia|].
        replace (value + 1 - 1) with value by lia.
        rewrite (toUint32_small value) by lia.
        split.
        - destruct (Z.ltb_spec 0 run).
          + rewrite Htail. reflexivity.
          + assert (run = 0) by lia. subst run. rewrite Htail. reflexivity.
        - intros base Hpos. destruct (Z.ltb_spec 0 run); [|lia].
          rewrite Htail. reflexivity. }
      destruct (Z.ltb_spec 0 run) as [Hpos | Hzero].
      * destruct (flushRun_digits run (map JS.toUint32 ((value + 1) :: encodeRuns rest 0)))
          as [Hmap [base' Hval]]; [lia|].
        rewrite map_app, Hmap, Hval. apply (proj2 Hlit). exact Hpos.
      * assert (run = 0) by lia. subst run. cbn [app]. apply (proj1 Hlit).
Qed.

End RunLengths.

(* ====================================================================== *)
(** * RUNA / RUNB round trip *)
(* ====================================================================== *)

Section RunRoundTrip.

(** X10.  [symbolsToMtf] undoes [mtfToSymbols]: the RUNA / RUNB digits of every
    run of zeros read back as the run, every other value as itself. *)
Theorem symbolsToMtf_mtfToSymbols (mtf : list Z) :
  len mtf < 2147483648 ->
  (forall v, In v mtf -> 0 <= v < 4294967295) ->
  symbolsToMtf (mtfToSymbols mtf) (len mtf) = Ok mtf.
Proof.
  intros Hlen Hrange.
  rewrite symbolsToMtf_returns by (unfold MAX_ARRAY_LENGTH, len in *; lia).
  f_equal.
  rewrite mtfToSymbols_encodeRuns, symbolValues_encodeRuns by (lia || assumption).
  cbn [Z.to_nat repeat app]. unfold len. rewrite Nat2Z.id.
  rewrite firstn_app, Nat.sub_diag, firstn_all. cbn [firstn]. apply app_nil_r.
Qed.

Lemma symbolsToMtf_mtfToSymbols_witness :
  mtfToSymbols [0; 0; 0; 5; 0; 2] = [0; 0; 6; 0; 3]
  /\ symbolsToMtf (mtfToSymbols [0; 0; 0; 5; 0; 2]) (len [0; 0; 0; 5; 0; 2])
     = Ok [0; 0; 0; 5; 0; 2].
Proof.
  split; [reflexivity|].
  apply symbolsToMtf_mtfToSymbols.
  - vm_compute. reflexivity.
  - intros v Hv. simpl in Hv. lia.
Defined.

End RunRoundTrip.

(* ====================================================================== *)
(** * Legacy run-length stream *)
(* ====================================================================== *)

Section LegacyRle.

Lemma encodeMtfRle_fold (mtf : list Z) :
  forall (writer : ByteWriter) (zeroRun : Z),
    (let (writer', zeroRun') := fold_left encodeMtfRleStep mtf (writer, zeroRun) in
     if 0 <? zeroRun' then writeVarint writer' (JS.shl zeroRun' 1) else writer')
    = writer ++ rleBytes mtf zeroRun.
Proof.
  induction mtf as [|value rest IH]; intros writer zeroRun.
  - simpl. destruct (0 <? zeroRun); [apply writeVarint_app | rewrite app_nil_r; reflexivity].
  - cbn [fold_left rleBytes]. unfold encodeMtfRleStep at 2.
    destruct (value =? 0); [apply IH|].
    rewrite IH. destruct (0 <? zeroRun).
    + rewrite (writeVarint_app (writeVarint _ _)), (writeVarint_app writer), <- !app_assoc.
      reflexivity.
    + rewrite (writeVarint_app writer), <- !app_assoc. reflexivity.
Qed.

Lemma encodeMtfRle_rleBytes (mtf : list Z) : encodeMtfRle mtf = rleBytes mtf 0.
Proof.
  exact (encodeMtfRle_fold mtf [] 0).
Qed.

(** A run varint: [zeroRun << 1] reads back as an even value whose half is
    the run. *)
Lemma run_varint (zeroRun : Z) :
  0 <= zeroRun < 2147483648 ->
  JS.toUint32 (JS.shl zeroRun 1) = 2 * zeroRun.
Proof.
  intros H. rewrite toUint32_shl by lia. change (2 ^ 1) with 2.
  rewrite toUint32_small by lia. lia.
Qed.

(** A literal varint: [(value << 1) | 1] reads back as an odd value whose
    half is the value. *)
Lemma literal_varint (value : Z) :
  0 <= value < 2147483648 ->
  JS.toUint32 (JS.or (JS.shl value 1) 1) = 2 * value + 1.
Proof.
  intros H. rewrite toUint32_or, toUint32_shl by lia. change (2 ^ 1) with 2.
  rewrite (toUint32_small (value * 2)), (toUint32_small 1) by lia.
  rewrite Z.lor_comm. change 2 with (2 ^ 1).
  rewrite lor_shifted by (change (2 ^ 1) with 2; lia). change (2 ^ 1) with 2. lia.
Qed.

Lemma even_tag (n : Z) : 0 <= n -> 2 * n < 4294967296 ->
  JS.and (2 * n) 1 = 0 /\ JS.shr (2 * n) 1 = n.
Proof.
  intros H0 H1. rewrite and_1, shr_div, toUint32_small by lia. change (2 ^ 1) with 2.
  split.
  - rewrite Z.mul_comm. apply Z.mod_mul. lia.
  - rewrite Z.mul_comm. apply Z.div_mul. lia.
Qed.

Lemma odd_tag (n : Z) : 0 <= n -> 2 * n + 1 < 4294967296 ->
  JS.and (2 * n + 1) 1 = 1 /\ JS.shr (2 * n + 1) 1 = n.
Proof.
  intros H0 H1. rewrite and_1, shr_div, toUint32_small by lia. change (2 ^ 1) with 2.
  split.
  - rewrite Z.add_comm, Z.mul_comm, Z.mod_add by lia. reflexivity.
  - rewrite Z.add_comm, Z.mul_comm, Z.div_add by lia. reflexivity.
Qed.

(** Filling a run of zeros where the array holds zeros already. *)
Lemma zeroFill_zeros (k : nat) :
  forall (tokenCount : Z) (done tail : list Z),
    len done + Z.of_nat k <= tokenCount ->
    zeroFill k tokenCount (done ++ repeat 0 k ++ tail) (len done) (Z.of_nat k)
    = (done ++ repeat 0 k ++ tail, len done + Z.of_nat k, 0).
Proof.
  induction k as [|k IH]; intros tokenCount done tail Hle.
  - simpl. rewrite Z.add_0_r. reflexivity.
  - cbn [zeroFill].
    destruct (Z.ltb_spec 0 (Z.of_nat (S k))); [|lia].
    destruct (Z.ltb_spec (len done) tokenCount); [|lia]. cbn [andb].
    assert (Hset : aset32 (done ++ repeat 0 (S k) ++ tail) (len done) 0
                   = (done ++ [0]) ++ repeat 0 k ++ tail).
    { unfold aset32, len. destruct (Z.ltb_spec (Z.of_nat (length done)) 0); [lia|].
      rewrite Nat2Z.id. cbn [repeat app]. rewrite update_nth_app, <- app_assoc.
      reflexivity. }
    rewrite Hset.
    replace (len done + 1) with (len (done ++ [0]))
      by (unfold len; rewrite length_app; simpl; lia).
    replace (Z.of_nat (S k) - 1) with (Z.of_nat k) by lia.
    rewrite IH.
    + rewrite <- !app_assoc. cbn [repeat app]. f_equal. f_equal.
      unfold len. rewrite length_app. simpl. lia.
    + unfold len in *. rewrite length_app. simpl. lia.
Qed.

(** The decoder on what the encoder has written for [rest] with
    [zeroRun] zeros pending, after [done]. *)
Lemma decode_rleBytes (rest : list Z) :
  forall (fuel : nat) (zeroRun : Z) (done pre post : list Z),
    0 <= zeroRun ->
    zeroRun + len rest < 2147483648 ->
    (forall v, In v rest -> 0 <= v < 2147483648) ->
    (Z.to_nat zeroRun + length rest <= fuel)%nat ->
    decodeMtfRleLoop fuel (pre ++ rleBytes rest zeroRun ++ post)
                     (len done + zeroRun + len rest)
                     (done ++ repeat 0 (Z.to_nat zeroRun + length rest))
                     (len done) (len pre)
    = Ok (done ++ repeat 0 (Z.to_nat zeroRun) ++ rest,
          len pre + len (rleBytes rest zeroRun)).
Proof.
  assert (Hstop : forall fuel bytes n arr offset,
             decodeMtfRleLoop fuel bytes n arr n offset = Ok (arr, offset)).
  { intros fuel bytes n arr offset. destruct fuel; cbn [decodeMtfRleLoop];
      rewrite Z.ltb_irrefl; reflexivity. }
  assert (Hrun : forall fuel zeroRun done tail pre post n,
             0 < zeroRun < 2147483648 ->
             len done + zeroRun <= n ->
             decodeMtfRleLoop (S fuel) (pre ++ writeVarint [] (JS.shl zeroRun 1) ++ post) n
                              (done ++ repeat 0 (Z.to_nat zeroRun) ++ tail)
                              (len done) (len pre)
             = decodeMtfRleLoop fuel (pre ++ writeVarint [] (JS.shl zeroRun 1) ++ post) n
                                (done ++ repeat 0 (Z.to_nat zeroRun) ++ tail)
                                (len done + zeroRun)
                                (len pre + len (writeVarint [] (JS.shl zeroRun 1)))).
  { intros fuel zeroRun done tail pre post n Hz Hn.
    cbn [decodeMtfRleLoop]. destruct (Z.ltb_spec (len done) n); [|lia].
    rewrite app_assoc, <- writeVarint_app, readVarint_writeVarint.
    rewrite run_varint by lia.
    destruct (even_tag zeroRun) as [-> ->]; [lia | lia|]. cbn [Z.eqb].
    pose proof (zeroFill_zeros (Z.to_nat zeroRun) n done tail) as Hfill.
    rewrite Z2Nat.id in Hfill by lia. rewrite Hfill by lia.
    rewrite writeVarint_app. unfold len. rewrite length_app.
    rewrite <- app_assoc. f_equal. lia. }
  assert (Hlit : forall fuel value done tail pre post n,
             0 < value < 2147483648 ->
             len done < n ->
             decodeMtfRleLoop (S fuel)
                              (pre ++ writeVarint [] (JS.or (JS.shl value 1) 1) ++ post) n
                              (done ++ 0 :: tail) (len done) (len pre)
             = decodeMtfRleLoop fuel
                                (pre ++ writeVarint [] (JS.or (JS.shl value 1) 1) ++ post) n
                                (done ++ value :: tail) (len done + 1)
                                (len pre + len (writeVarint [] (JS.or (JS.shl value 1) 1)))).
  { intros fuel value done tail pre post n Hv Hn.
    cbn [decodeMtfRleLoop]. destruct (Z.ltb_spec (len done) n); [|lia].
    rewrite app_assoc, <- writeVarint_app, readVarint_writeVarint.
    rewrite literal_varint by lia.
    destruct (odd_tag value) as [-> ->]; [lia | lia|]. cbn [Z.eqb].
    assert (Hset : aset32 (done ++ 0 :: tail) (len done) value = done ++ value :: tail).
    { unfold aset32, len. destruct (Z.ltb_spec (Z.of_nat (length done)) 0); [lia|].
      rewrite Nat2Z.id, update_nth_app, toUint32_small by lia. reflexivity. }
    rewrite Hset, writeVarint_app. unfold len. rewrite length_app.
    rewrite <- app_assoc. f_equal. lia. }
  induction rest as [|value rest IH]; intros fuel zeroRun done pre post Hz Hlen Hrange Hfuel.
  - cbn [rleBytes]. unfold len in Hlen |- *. simpl length in *.
    rewrite Nat.add_0_r, !Z.add_0_r, app_nil_r.
    destruct (Z.ltb_spec 0 zeroRun) as [Hpos | Hzero].
    + destruct fuel as [|fuel]; [lia|].
      pose proof (Hrun fuel zeroRun done [] pre post
                       (Z.of_nat (length done) + zeroRun)) as H.
      unfold len in H. rewrite app_nil_r in H. rewrite H by lia.
      apply Hstop.
    + assert (zeroRun = 0) by lia. subst zeroRun. cbn [Z.to_nat repeat app].
      rewrite !Z.add_0_r, app_nil_r. apply Hstop.
  - assert (Hv : 0 <= value < 2147483648) by (apply Hrange; left; reflexivity).
    assert (Hrest : forall v, In v rest -> 0 <= v < 2147483648)
      by (intros v Hin; apply Hrange; right; exact Hin).
    unfold len in Hlen. simpl length in Hlen, Hfuel.
    cbn [rleBytes]. destruct (Z.eqb_spec value 0) as [-> | Hne].
    + pose proof (IH fuel (zeroRun + 1) done pre post) as H.
      replace (len done + (zeroRun + 1) + len rest)
        with (len done + zeroRun + len (0 :: rest)) in H
        by (unfold len; simpl length; lia).
      replace (Z.to_nat (zeroRun + 1) + length rest)%nat
        with (Z.to_nat zeroRun + length (0%Z :: rest))%nat in H by (simpl length; lia).
      rewrite H by (unfold len; simpl; lia || assumption).
      f_equal. f_equal. f_equal.
      replace (Z.to_nat (zeroRun + 1)) with (Z.to_nat zeroRun + 1)%nat by lia.
      rewrite repeat_app, <- app_assoc. reflexivity.
    + set (lit := writeVarint [] (JS.or (JS.shl value 1) 1)).
      assert (Hliteral : forall fuel' done' pre' ,
                 (length rest <= fuel')%nat ->
                 decodeMtfRleLoop (S fuel') (pre' ++ lit ++ rleBytes rest 0 ++ post)
                                  (len done' + 1 + len rest)
                                  (done' ++ 0 :: repeat 0 (length rest))
                                  (len done') (len pre')
                 = Ok (done' ++ value :: rest,
                       len pre' + len lit + len (rleBytes rest 0))).
      { intros fuel' done' pre' Hf.
        unfold lit. rewrite Hlit by (unfold len; lia).
        fold lit.
        pose proof (IH fuel' 0 (done' ++ [value]) (pre' ++ lit) post) as H.
        cbn [Z.to_nat repeat app Nat.add] in H.
        rewrite <- !app_assoc in H. cbn [app] in H.
        replace (len (done' ++ [value]) + 0 + len rest) with (len done' + 1 + len rest) in H
          by (unfold len; rewrite length_app; simpl; lia).
        replace (len (done' ++ [value])) with (len done' + 1) in H
          by (unfold len; rewrite length_app; simpl; lia).
        replace (len (pre' ++ lit)) with (len pre' + len lit) in H
          by (unfold len; rewrite length_app; lia).
        rewrite H by (unfold len; lia || assumption). reflexivity. }
      destruct (Z.ltb_spec 0 zeroRun) as [Hpos | Hzero].
      * destruct fuel as [|fuel]; [lia|]. destruct fuel as [|fuel]; [lia|].
        set (run := writeVarint [] (JS.shl zeroRun 1)).
        rewrite <- !app_assoc.
        replace (repeat 0 (Z.to_nat zeroRun + length (value :: rest)))
          with (repeat 0 (Z.to_nat zeroRun) ++ 0 :: repeat 0 (length rest))
          by (simpl length; rewrite repeat_app; reflexivity).
        unfold run. rewrite Hrun by (unfold len; simpl length; lia). fold run.
        pose proof (Hliteral fuel (done ++ repeat 0 (Z.to_nat zeroRun)) (pre ++ run)) as H.
        rewrite <- !app_assoc in H.
        replace (len (done ++ repeat 0 (Z.to_nat zeroRun))) with (len done + zeroRun) in H
          by (unfold len; rewrite length_app, repeat_length; lia).
        replace (len (pre ++ run)) with (len pre + len run) in H
          by (unfold len; rewrite length_app; lia).
        replace (len done + zeroRun + len (value :: rest))
          with (len done + zeroRun + 1 + len rest) by (unfold len; simpl length; lia).
        rewrite H by lia. f_equal. f_equal.
        unfold len. rewrite !length_app. lia.
      * assert (zeroRun = 0) by lia. subst zeroRun.
        destruct fuel as [|fuel]; [simpl in Hfuel; lia|].
        cbn [Z.to_nat repeat app Nat.add]. simpl length. cbn [repeat].
        pose proof (Hliteral fuel done pre) as H.
        replace (len done + 0 + len (value :: rest)) with (len done + 1 + len rest)
          by (unfold len; simpl length; lia).
        rewrite <- app_assoc.
        rewrite H by (simpl in Hfuel; lia). f_equal. f_equal.
        unfold len. rewrite !length_app. lia.
Qed.

End LegacyRle.

(** X11.  [decodeMtfRle] undoes [encodeMtfRle]: on the bytes of the encoder,
    whatever follows them, the loop of the decoder ends after at most one
    varint per value and returns the values and the offset of what
    follows. *)
Theorem decodeMtfRle_encodeMtfRle (mtf post : list Z) (fuel : nat) :
  len mtf < 2147483648 ->
  (forall v, In v mtf -> 0 <= v < 2147483648) ->
  (length mtf <= fuel)%nat ->
  decodeMtfRle fuel (encodeMtfRle mtf ++ post) 0 (len mtf)
  = Ok (mtf, len (encodeMtfRle mtf)).
Proof.
  intros Hlen Hrange Hfuel.
  unfold decodeMtfRle. rewrite encodeMtfRle_rleBytes.
  pose proof (decode_rleBytes mtf fuel 0 [] [] post) as H.
  cbn [app Z.to_nat Nat.add repeat] in H. change (len []) with 0 in H.
  rewrite !Z.add_0_l in H.
  unfold newTypedArray.
  destruct (Z.ltb_spec (len mtf) 0); [unfold len in *; lia|].
  destruct (Z.leb_spec (len mtf) MAX_ARRAY_LENGTH);
    [|unfold MAX_ARRAY_LENGTH in *; lia].
  cbn [bind].
  unfold zeros. replace (Z.to_nat (len mtf)) with (length mtf) by (unfold len; lia).
  apply H; assumption || lia.
Qed.

Lemma decodeMtfRle_encodeMtfRle_witness :
  encodeMtfRle [0; 0; 3; 0; 200] = [4; 7; 2; 145; 3]
  /\ decodeMtfRle 5 (encodeMtfRle [0; 0; 3; 0; 200] ++ [255]) 0 (len [0; 0; 3; 0; 200])
     = Ok ([0; 0; 3; 0; 200], len (encodeMtfRle [0; 0; 3; 0; 200])).
Proof.
  split; [reflexivity|].
  apply decodeMtfRle_encodeMtfRle.
  - vm_compute. reflexivity.
  - intros v Hv. simpl in Hv. lia.
  - simpl. lia.
Defined.

(* ====================================================================== *)
(** * Move-to-front, both directions *)
(* ====================================================================== *)

Section MoveToFrontInverse.

Variable a : nat.
Hypothesis a_small : Z.of_nat a <= 4294967296.

(** The position that the encoder emits for a symbol is the place of the
    symbol in [order]. *)
Lemma mtfEncodeStep_emits (order positions acc : list Z) (v pos : nat) :
  inverseArrays a order positions -> (v < a)%nat ->
  nth v positions 0 = Z.of_nat pos ->
  exists order' positions',
    mtfEncodeStep (order, positions, acc) (Z.of_nat v)
    = (order', positions', acc ++ [Z.of_nat pos]).
Proof.
  intros (Hlo & Hlp & _ & _) Hv Hpos. unfold mtfEncodeStep.
  rewrite (aget_nth positions v) by lia. rewrite Hpos.
  destruct (Z.of_nat pos =? 0); [eexists; eexists; reflexivity|].
  destruct (shiftEncode (Z.to_nat (Z.of_nat pos)) order positions) as [o' p'].
  eexists; eexists; reflexivity.
Qed.

(** One position through the decoder, and its output through the
    encoder. *)
Lemma mtf_step_back (order positions acc accd : list Z) (pos : nat) :
  inverseArrays a order positions -> (pos < a)%nat ->
  exists (v : nat) (order' positions' : list Z),
    (v < a)%nat
    /\ mtfDecodeStep (order, accd) (Z.of_nat pos) = (order', accd ++ [Z.of_nat v])
    /\ mtfEncodeStep (order, positions, acc) (Z.of_nat v)
       = (order', positions', acc ++ [Z.of_nat pos])
    /\ inverseArrays a order' positions'.
Proof.
  intros Hinv Hpos.
  pose proof Hinv as (Hlo & Hlp & Ho & Hp).
  destruct (Ho pos Hpos) as (v & Hv & Hov & Hpv).
  destruct (mtf_step a a_small order positions acc accd v Hinv Hv)
    as (pos' & order' & positions' & Henc & Hdec & Hinv').
  destruct (mtfEncodeStep_emits order positions acc v pos Hinv Hv Hpv)
    as (o2 & p2 & Henc2).
  rewrite Henc in Henc2. injection Henc2 as _ _ Hout.
  apply app_inv_head in Hout. injection Hout as Hout.
  apply Nat2Z.inj in Hout. subst pos'.
  exists v, order', positions'.
  split; [exact Hv|]. split; [exact Hdec|]. split; [exact Henc | exact Hinv'].
Qed.

Lemma mtf_fold_back (positionsIn : list Z) :
  forall order positions acc accd,
    inverseArrays a order positions ->
    (forall p, In p positionsIn -> 0 <= p < Z.of_nat a) ->
    exists order' positions' out,
      fold_left mtfDecodeStep positionsIn (order, accd) = (order', accd ++ out)
      /\ fold_left mtfEncodeStep out (order, positions, acc)
         = (order', positions', acc ++ positionsIn)
      /\ length out = length positionsIn
      /\ forall v, In v out -> 0 <= v < Z.of_nat a.
Proof.
  induction positionsIn as [|p rest IH]; intros order positions acc accd Hinv Hr.
  - exists order, positions, []. simpl. rewrite !app_nil_r.
    split; [reflexivity|]. split; [reflexivity|]. split; [reflexivity | intros v []].
  - assert (Hp : 0 <= p < Z.of_nat a) by (apply Hr; left; reflexivity).
    destruct (Z_of_nat_complete p ltac:(lia)) as [pn ->].
    destruct (mtf_step_back order positions acc accd pn Hinv ltac:(lia))
      as (v & order1 & positions1 & Hv & Hdec & Henc & Hinv1).
    destruct (IH order1 positions1 (acc ++ [Z.of_nat pn]) (accd ++ [Z.of_nat v]) Hinv1)
      as (order' & positions' & out & Hfd & Hfe & Hlen & Hrange).
    { intros u Hu. apply Hr. right. exact Hu. }
    exists order', positions', (Z.of_nat v :: out).
    cbn [fold_left]. rewrite Hdec, Henc, Hfd, Hfe, <- !app_assoc. simpl.
    split; [reflexivity|]. split; [reflexivity|].
    split; [rewrite Hlen; reflexivity|].
    intros u [<- | Hu]; [lia | apply Hrange; exact Hu].
Qed.

(** The positions that the encoder emits are below the alphabet size. *)
Lemma mtf_fold_range (sequence : list Z) :
  forall order positions acc,
    inverseArrays a order positions ->
    (forall v, In v sequence -> 0 <= v < Z.of_nat a) ->
    exists order' positions' out,
      fold_left mtfEncodeStep sequence (order, positions, acc) = (order', positions', acc ++ out)
      /\ forall p, In p out -> 0 <= p < Z.of_nat a.
Proof.
  induction sequence as [|v rest IH]; intros order positions acc Hinv Hr.
  - exists order, positions, []. simpl. rewrite app_nil_r. split; [reflexivity | intros p []].
  - assert (Hv : 0 <= v < Z.of_nat a) by (apply Hr; left; reflexivity).
    destruct (Z_of_nat_complete v ltac:(lia)) as [vn ->].
    pose proof Hinv as (_ & _ & _ & Hp).
    destruct (Hp vn ltac:(lia)) as (pos & Hpos & Hpv & _).
    destruct (mtf_step a a_small order positions acc [] vn Hinv ltac:(lia))
      as (pos' & order1 & positions1 & Henc & _ & Hinv1).
    destruct (mtfEncodeStep_emits order positions acc vn pos Hinv ltac:(lia) Hpv)
      as (o2 & p2 & Henc2).
    rewrite Henc in Henc2. injection Henc2 as _ _ Hout.
    apply app_inv_head in Hout. injection Hout as Hout.
    apply Nat2Z.inj in Hout. subst pos'.
    destruct (IH order1 positions1 (acc ++ [Z.of_nat pos]) Hinv1)
      as (order' & positions' & out & Hfe & Hrange).
    { intros u Hu. apply Hr. right. exact Hu. }
    exists order', positions', (Z.of_nat pos :: out).
    cbn [fold_left]. rewrite Henc, Hfe, <- app_assoc. split; [reflexivity|].
    intros p [<- | Hin]; [lia | apply Hrange; exact Hin].
Qed.

End MoveToFrontInverse.

Lemma moveToFrontEncode_range (sequence : list Z) (a : nat) :
  Z.of_nat a <= 4294967296 ->
  (forall v, In v sequence -> 0 <= v < Z.of_nat a) ->
  forall p, In p (moveToFrontEncode sequence (Z.of_nat a)) -> 0 <= p < Z.of_nat a.
Proof.
  intros Ha Hr. unfold moveToFrontEncode. rewrite Nat2Z.id.
  destruct (mtf_fold_range a Ha sequence (indicesUpTo a) (indicesUpTo a) []
                           (inverseArrays_identity a) Hr)
    as (order' & positions' & out & Hfe & Hrange).
  rewrite Hfe. exact Hrange.
Qed.

(** X5.  [moveToFrontDecode] undoes [moveToFrontEncode] on a sequence of
    symbols below the alphabet size; the encoder emits one position per
    symbol, each below the alphabet size. *)
Theorem moveToFrontDecode_moveToFrontEncode (sequence : list Z) (alphabetSize : Z) :
  0 <= alphabetSize <= 4294967296 ->
  (forall v, In v sequence -> 0 <= v < alphabetSize) ->
  moveToFrontDecode (moveToFrontEncode sequence alphabetSize) alphabetSize = sequence
  /\ length (moveToFrontEncode sequence alphabetSize) = length sequence
  /\ forall p, In p (moveToFrontEncode sequence alphabetSize) -> 0 <= p < alphabetSize.
Proof.
  intros Ha Hr.
  destruct (Z_of_nat_complete alphabetSize ltac:(lia)) as [a ->].
  destruct (moveToFront_roundtrip sequence a ltac:(lia) Hr) as [Hrt Hlen].
  split; [exact Hrt|]. split; [exact Hlen|].
  apply moveToFrontEncode_range; [lia | exact Hr].
Qed.

Lemma moveToFrontDecode_moveToFrontEncode_witness :
  moveToFrontEncode [2; 2; 0; 1; 2] 3 = [2; 0; 1; 2; 2]
  /\ moveToFrontDecode (moveToFrontEncode [2; 2; 0; 1; 2] 3) 3 = [2; 2; 0; 1; 2].
Proof.
  split; [reflexivity|].
  apply (moveToFrontDecode_moveToFrontEncode [2; 2; 0; 1; 2] 3); [lia|].
  intros v Hv. simpl in Hv. lia.
Defined.

(** X6.  [moveToFrontEncode] undoes [moveToFrontDecode] on a sequence of
    positions below the alphabet size, and the decoder yields symbols below
    the alphabet size. *)
Theorem moveToFrontEncode_moveToFrontDecode (positions : list Z) (alphabetSize : Z) :
  0 <= alphabetSize <= 4294967296 ->
  (forall p, In p positions -> 0 <= p < alphabetSize) ->
  moveToFrontEncode (moveToFrontDecode positions alphabetSize) alphabetSize = positions
  /\ forall v, In v (moveToFrontDecode positions alphabetSize) -> 0 <= v < alphabetSize.
Proof.
  intros Ha Hr.
  destruct (Z_of_nat_complete alphabetSize ltac:(lia)) as [a ->].
  unfold moveToFrontEncode, moveToFrontDecode. rewrite Nat2Z.id.
  destruct (mtf_fold_back a ltac:(lia) positions (indicesUpTo a) (indicesUpTo a) [] []
                          (inverseArrays_identity a) Hr)
    as (order' & positions' & out & Hfd & Hfe & _ & Hrange).
  rewrite Hfd. cbn [snd app]. rewrite Hfe. split; [reflexivity | exact Hrange].
Qed.

Lemma moveToFrontEncode_moveToFrontDecode_witness :
  moveToFrontDecode [2; 0; 1; 2; 2] 3 = [2; 2; 0; 1; 2]
  /\ moveToFrontEncode (moveToFrontDecode [2; 0; 1; 2; 2] 3) 3 = [2; 0; 1; 2; 2].
Proof.
  split; [reflexivity|].
  apply (moveToFrontEncode_moveToFrontDecode [2; 0; 1; 2; 2] 3); [lia|].
  intros v Hv. simpl in Hv. lia.
Defined.

(* ====================================================================== *)
(** * The forward transform *)
(* ====================================================================== *)

Section ForwardTransform.

(** The sorted indices are an arrangement of the indices. *)
Lemma suffix_array_indices (ids : list Z) :
  exists ord : list nat,
    buildCyclicSuffixArray ids = map Z.of_nat ord
    /\ Permutation ord (seq 0 (length ids)).
Proof.
  unfold buildCyclicSuffixArray.
  pose proof (sortBy_perm (fun left right => compareRotation ids (len ids) left right <=? 0)
                          (indicesUpTo (length ids))) as Hperm.
  unfold indicesUpTo in Hperm at 2.
  destruct (Permutation_map_inv _ _ Hperm) as (ord & Heq & Hord).
  exists ord. split; [exact Heq | apply Permutation_sym; exact Hord].
Qed.

Lemma lastOf_permutation (ids : list Z) (ord : list nat) :
  (0 < length ids)%nat ->
  Permutation ord (seq 0 (length ids)) -> Permutation (lastOf ids ord) ids.
Proof.
  intros Hne Hperm. unfold lastOf.
  apply (Permutation_trans
           (Permutation_map (fun s => at_ ids (before (length ids) s)) Hperm)).
  rewrite <- (map_map (before (length ids)) (at_ ids)).
  apply (Permutation_trans (Permutation_map (at_ ids) (before_perm ids Hne O))).
  rewrite map_at_seq. apply Permutation_refl.
Qed.

(** The forward transform as the last column over the sorted indices. *)
Lemma bwt_over_indices (ids : list Z) :
  (forall v, In v ids -> 0 <= v < 4294967296) ->
  ids <> [] ->
  exists (ord : list nat) (p : nat),
    buildCyclicSuffixArray ids = map Z.of_nat ord
    /\ Permutation ord (seq 0 (length ids))
    /\ burrowsWheelerTransform ids = mkBwt (lastOf ids ord) (Z.of_nat p)
    /\ (p < length ids)%nat /\ nth p ord O = O.
Proof.
  intros Hrange Hne.
  assert (Hlen : (0 < length ids)%nat) by (destruct ids; [contradiction | simpl; lia]).
  destruct (suffix_array_indices ids) as (ord & Hord & Hperm).
  assert (Hin : In O ord).
  { apply (Permutation_in _ (Permutation_sym Hperm)). apply in_seq. lia. }
  destruct (primaryAfter_spec ord 0 0 Hin) as (j & Hj & Hrow & Hprimary).
  rewrite (Permutation_length Hperm), length_seq in Hj.
  destruct ids as [|x0 [|x1 rest]] eqn:Hids; [contradiction | |].
  - (* one element: the transform does not sort *)
    assert (Hord1 : ord = [O]).
    { apply Permutation_sym, Permutation_length_1_inv in Hperm. exact Hperm. }
    subst ord. exists [O], O.
    split; [exact Hord|]. split; [reflexivity|]. split; [reflexivity|].
    split; [simpl; lia | reflexivity].
  - rewrite <- Hids in *.
    exists ord, j. split; [exact Hord|]. split; [exact Hperm|].
    split; [|split; assumption].
    replace (burrowsWheelerTransform ids)
      with (bwtLoop ids (len ids) (buildCyclicSuffixArray ids) 0 (zeros (len ids)) 0)
      by (rewrite Hids; reflexivity).
    rewrite Hord.
    pose proof (bwtLoop_spec ids Hlen (Z.to_nat 4294967296) ltac:(lia)) as H.
    specialize (H ltac:(intros v Hv; apply Hrange in Hv; lia) ord [] 0).
    simpl app in H. change (len []) with 0 in H.
    rewrite (Permutation_length Hperm), length_seq in H.
    rewrite Hprimary, Z.add_0_l in H.
    apply H. intros s Hs. apply (Permutation_in _ Hperm) in Hs.
    apply in_seq in Hs. lia.
Qed.

End ForwardTransform.

(** X4.  The last column of the forward transform is a rearrangement of the
    array, and [primaryIndex] is the row of the rotation that starts at
    index 0: the sorted index there is 0 and the last column holds the last
    element of the array. *)
Theorem bwt_last_column_permutation (ids : list Z) :
  (forall v, In v ids -> 0 <= v < 4294967296) ->
  let b := burrowsWheelerTransform ids in
  Permutation (lastColumn b) ids
  /\ (ids <> [] ->
      0 <= bwt_primaryIndex b < len ids
      /\ aget (buildCyclicSuffixArray ids) (bwt_primaryIndex b) = Some 0
      /\ aget (lastColumn b) (bwt_primaryIndex b) = aget ids (len ids - 1)).
Proof.
  intros Hrange. cbv zeta.
  destruct ids as [|x0 rest] eqn:Hids.
  { split; [reflexivity | intros H; contradiction]. }
  rewrite <- Hids in *.
  assert (Hne : ids <> []) by (rewrite Hids; discriminate).
  assert (Hlen : (0 < length ids)%nat) by (rewrite Hids; simpl; lia).
  destruct (bwt_over_indices ids Hrange Hne) as (ord & p & Hord & Hperm & Hb & Hp & Hrow).
  rewrite Hb. cbn [lastColumn bwt_primaryIndex].
  split; [apply lastOf_permutation; assumption|].
  intros _.
  pose proof (Permutation_length Hperm) as Hol. rewrite length_seq in Hol.
  split; [unfold len; lia|]. split.
  - rewrite Hord, aget_nth by (rewrite length_map; lia).
    rewrite (nth_map_in Z.of_nat ord p O 0) by lia. rewrite Hrow. reflexivity.
  - rewrite aget_nth by (rewrite lastOf_length by exact Hperm; lia).
    fold (at_ (lastOf ids ord) p). rewrite lastOf_at by assumption.
    rewrite Hrow. unfold before, wrapAdd. rewrite Nat.add_0_l.
    rewrite Nat.mod_small by lia.
    replace (len ids - 1) with (Z.of_nat (length ids - 1)) by (unfold len; lia).
    rewrite aget_nth by lia. reflexivity.
Qed.

Lemma bwt_last_column_permutation_witness :
  burrowsWheelerTransform [3; 1; 3; 1; 2] = mkBwt [3; 3; 1; 1; 2] 4
  /\ Permutation [3; 3; 1; 1; 2] [3; 1; 3; 1; 2].
Proof.
  assert (Hb : burrowsWheelerTransform [3; 1; 3; 1; 2] = mkBwt [3; 3; 1; 1; 2] 4)
    by reflexivity.
  split; [exact Hb|].
  pose proof (bwt_last_column_permutation [3; 1; 3; 1; 2]) as H.
  cbv zeta in H. rewrite Hb in H. apply H.
  intros v Hv. simpl in Hv. lia.
Defined.

(** X3.  With a value that occurs once, [buildCyclicSuffixArray] arranges the
    indices so that the rotations are in strictly increasing order. *)
Theorem suffix_array_strictly_sorted (ids : list Z) (v : Z) (z : nat) :
  uniqueAt ids v z ->
  exists ord : list nat,
    buildCyclicSuffixArray ids = map Z.of_nat ord
    /\ Permutation ord (seq 0 (length ids))
    /\ StronglySorted (rotLt ids) ord.
Proof. apply suffix_array_spec. Qed.

Lemma suffix_array_strictly_sorted_witness :
  buildCyclicSuffixArray [2; 1; 2; 0] = [3; 1; 2; 0]
  /\ exists ord : list nat,
      buildCyclicSuffixArray [2; 1; 2; 0] = map Z.of_nat ord
      /\ Permutation ord (seq 0 (length [2; 1; 2; 0]))
      /\ StronglySorted (rotLt [2; 1; 2; 0]) ord.
Proof.
  split; [reflexivity|].
  apply (suffix_array_strictly_sorted [2; 1; 2; 0] 0 3).
  split; [simpl; lia|]. split; [reflexivity|].
  intros [|[|[|[|i]]]] Hi H; simpl in Hi; try reflexivity; try discriminate H; lia.
Defined.

(* ====================================================================== *)
(** * Ids and payload *)
(* ====================================================================== *)

(** X2.  Every id that [tokensToIds] returns is between 1 and the size of the
    dictionary, and the dictionary entry it names is the token. *)
Theorem tokensToIds_lookup (tokens : list jsstring) :
  len tokens < 4294967296 ->
  let r := tokensToIds tokens in
  length (ids r) = length tokens
  /\ (forall id, In id (ids r) -> 1 <= id <= len (sortedDictionary r))
  /\ map (fun id => dictGet (sortedDictionary r) (id - 1)) (ids r) = map Some tokens.
Proof.
  intros Hlen. cbv zeta.
  destruct (tokensToIds_spec tokens Hlen) as (_ & Hin & Hids).
  rewrite Hids. split; [apply length_map|]. split.
  - intros id Hid. apply in_map_iff in Hid as (t & <- & Ht).
    apply dictionaryId_in. apply Hin. exact Ht.
  - apply dictGet_ids. intros t Ht. apply Hin. exact Ht.
Qed.

Lemma tokensToIds_lookup_witness :
  ids (tokensToIds [js "b"; js "a"; js "b"]) = [2; 1; 2]
  /\ sortedDictionary (tokensToIds [js "b"; js "a"; js "b"]) = [js "a"; js "b"]
  /\ map (fun id => dictGet (sortedDictionary (tokensToIds [js "b"; js "a"; js "b"])) (id - 1))
         (ids (tokensToIds [js "b"; js "a"; js "b"]))
     = map Some [js "b"; js "a"; js "b"].
Proof.
  split; [reflexivity|]. split; [reflexivity|].
  apply (tokensToIds_lookup [js "b"; js "a"; js "b"]). vm_compute. reflexivity.
Defined.

Section Payload.

Lemma normalizeToken_nonempty (t : jsstring) : normalizeToken t <> [].
Proof.
  unfold normalizeToken.
  repeat match goal with
         | |- context [if ?c then _ else _] => destruct c
         end; discriminate.
Qed.

Lemma normalizeTokens_nonempty (tokens : list jsstring) :
  tokens <> [] -> normalizeTokens tokens <> [].
Proof.
  destruct tokens as [|t tokens]; [contradiction|]. intros _.
  unfold normalizeTokens. cbn [flat_map].
  pose proof (normalizeToken_nonempty t) as H.
  destruct (normalizeToken t); [contradiction | discriminate].
Qed.

Lemma tokens_of_text_nonempty (text : jsstring) :
  text <> [] -> normalizeTokens (tokenize text) <> [].
Proof.
  intros H. apply normalizeTokens_nonempty. intros Hnil.
  pose proof (tokenize_concat text) as Hc. rewrite Hnil in Hc. simpl in Hc. congruence.
Qed.

End Payload.

(** X7.  The payload of a text that is not empty: one [mtf] entry per
    normalized token and one for the sentinel, every entry at most the
    size of the dictionary, and [primaryIndex] an index into [mtf]. *)
Theorem wbwtCompress_payload (text : jsstring) :
  text <> [] ->
  len (normalizeTokens (tokenize text)) + 1 < 4294967296 ->
  let p := wbwtCompress text in
  dictionary p <> []
  /\ len (mtf p) = len (normalizeTokens (tokenize text)) + 1
  /\ (forall m, In m (mtf p) -> 0 <= m <= len (dictionary p))
  /\ 0 <= primaryIndex p < len (mtf p).
Proof.
  intros Htext Hlen. cbv zeta.
  pose proof (tokens_of_text_nonempty text Htext) as Hne.
  rewrite (wbwtCompress_nonempty text Hne). cbv zeta. cbn [dictionary mtf primaryIndex].
  set (tokens := normalizeTokens (tokenize text)) in *.
  destruct (tokensToIds_spec tokens ltac:(lia)) as (Hsorted & Hin & Hids).
  set (dict := sortedDictionary (tokensToIds tokens)) in *.
  set (x := ids (tokensToIds tokens) ++ [SENTINEL_ID]).
  assert (Hdne : dict <> []).
  { destruct tokens as [|t0 ts] eqn:Ht; [contradiction|].
    intros Hd. assert (Hi : In t0 dict) by (apply Hin; left; reflexivity).
    rewrite Hd in Hi. destruct Hi. }
  assert (Hdlen : (length dict <= length tokens)%nat).
  { apply NoDup_incl_length; [apply strict_sorted_nodup; exact Hsorted|].
    intros k Hk. apply Hin. exact Hk. }
  assert (Hxlen : length x = S (length tokens)).
  { unfold x. rewrite length_app, Hids, length_map. simpl. lia. }
  assert (Hrange : forall u, In u x -> 0 <= u < Z.of_nat (S (length dict))).
  { intros u Hu. unfold x in Hu. apply in_app_or in Hu as [Hu | [<- | []]].
    - rewrite Hids in Hu. apply in_map_iff in Hu as (t & <- & Ht).
      pose proof (dictionaryId_in dict t (proj2 (Hin t) Ht)) as H. unfold len in H. lia.
    - unfold SENTINEL_ID. lia. }
  assert (Ha : Z.of_nat (S (length dict)) <= 4294967296) by (unfold len in Hlen; lia).
  assert (Hx32 : forall u, In u x -> 0 <= u < 4294967296)
    by (intros u Hu; apply Hrange in Hu; lia).
  assert (Hxne : x <> []) by (intros Hx; rewrite Hx in Hxlen; discriminate).
  destruct (bwt_over_indices x Hx32 Hxne) as (ord & p & _ & Hperm & Hb & Hp & _).
  rewrite Hb. cbn [lastColumn bwt_primaryIndex].
  assert (Halpha : len dict + 1 = Z.of_nat (S (length dict))) by (unfold len; lia).
  rewrite Halpha.
  assert (Hcol : forall u, In u (lastOf x ord) -> 0 <= u < Z.of_nat (S (length dict))).
  { intros u Hu. apply Hrange.
    apply (Permutation_in _ (lastOf_permutation x ord ltac:(lia) Hperm)). exact Hu. }
  destruct (moveToFront_roundtrip (lastOf x ord) (S (length dict)) Ha Hcol) as [_ Hmlen].
  assert (Hml : len (moveToFrontEncode (lastOf x ord) (Z.of_nat (S (length dict))))
                = len tokens + 1).
  { unfold len. rewrite Hmlen, (lastOf_length x ord Hperm), Hxlen. lia. }
  split; [exact Hdne|]. split; [exact Hml|]. split.
  - intros m Hm. apply (moveToFrontEncode_range _ _ Ha Hcol) in Hm. unfold len. lia.
  - rewrite Hml. unfold len. lia.
Qed.

Lemma wbwtCompress_payload_witness :
  wbwtCompress (js "a b a") = mkPayload [TOKEN_WS_SPACE; js "1"; js "a"; js "b"] 6 [3; 4; 1; 3; 0; 4; 4; 1]
  /\ len (mtf (wbwtCompress (js "a b a"))) = len (normalizeTokens (tokenize (js "a b a"))) + 1.
Proof.
  split; [vm_compute; reflexivity|].
  apply (wbwtCompress_payload (js "a b a")).
  - discriminate.
  - vm_compute. reflexivity.
Defined.
